(** * LGO Deterministic Predictor: the arithmetic core of [lgojumpfinal.cpp]

    A shallow embedding of the big-decimal helpers ([add_strings],
    [calculate_mod_12], [calculate_mod_7], [determine_prime_set]), of the
    base-gap heuristic and of [LGO_Predict_Deterministic], followed by the
    properties the specification states about them; then of the sequence
    file ([load_last_prime], [save_new_prime]), of [display_menu] and of
    [prediction_loop], with the properties that tie them together.

    Conventions of the embedding.
    - A [std::string] is a [list ascii]; [char] is signed (x86).
    - [int] is 32 bits, [long long] and [size_t] are 64 bits (Windows x64).
      Conversions and arithmetic on them are written with their wrap-around
      ([to_int], [to_ll]).
    - C++ [/] and [%] on integers truncate towards zero: [Z.quot], [Z.rem].
    - Exceptions of the standard library ([std::out_of_range],
      [std::invalid_argument]) are values of an error monad.
    - Floating point.  [((long double)digits * digits) / 50.0L] is computed
      as IEEE arithmetic does, every operation rounded to nearest, ties to
      even, at the precision of the platform's [long double] (53 bits with
      MSVC, 64 bits with GCC and MinGW).  [delta_7 * pi / 10], which the
      program evaluates at four values only, all far from a rounding
      boundary, is computed in exact rational arithmetic.  Both are then
      rounded as [std::round] does.  [std::log] and the arithmetic on its
      results are left uninterpreted: they are the operations of a class
      [Libm], and every theorem holds for every instance.
    - The outside world is passed in: the sequence file is a field of the
      state, standard input is the list of its lines, and the state of the
      S key is the list of the answers the loop gets.  What the program
      prints is not modelled. *)

From Stdlib Require Import ZArith Ascii String Bool Lia QArith Lqa List.
Import ListNotations.
Local Open Scope Z_scope.

(** ** Machine integers *)

Definition INT_MAX : Z := 2147483647.
Definition LLONG_MAX : Z := 9223372036854775807.
Definition LLONG_MIN : Z := -9223372036854775808.

(** Conversion to [int]: reduction modulo 2^32 into [-2^31, 2^31). *)
Definition to_int (z : Z) : Z := (z + 2^31) mod 2^32 - 2^31.

(** Conversion to [long long]: reduction modulo 2^64 into [-2^63, 2^63). *)
Definition to_ll (z : Z) : Z := (z + 2^63) mod 2^64 - 2^63.

Definition in_ll (z : Z) : Prop := LLONG_MIN <= z <= LLONG_MAX.

Definition add_ll (a b : Z) : Z := to_ll (a + b).
Definition sub_ll (a b : Z) : Z := to_ll (a - b).

(** ** Characters and digit strings *)

Definition cstring := list ascii.

(** The value of a [char] promoted to [int] ([char] is signed). *)
Definition char_to_int (c : ascii) : Z :=
  let n := Z.of_nat (nat_of_ascii c) in
  if n <? 128 then n else n - 256.

(** The conversion [(char) n]. *)
Definition int_to_char (n : Z) : ascii :=
  ascii_of_nat (Z.to_nat (n mod 256)).

Definition char_0 : Z := 48.

(** [c - '0'] *)
Definition digit_of (c : ascii) : Z := char_to_int c - char_0.

Definition is_digit (c : ascii) : bool :=
  (48 <=? Z.of_nat (nat_of_ascii c)) && (Z.of_nat (nat_of_ascii c) <=? 57).

(** A DecimalString of the specification: non-empty, digits only. *)
Definition all_digits (s : cstring) : Prop := Forall (fun c => is_digit c = true) s.

Definition decimal_string (s : cstring) : Prop := s <> [] /\ all_digits s.

Definition lit (s : string) : cstring := list_ascii_of_string s.

(** The number a digit string denotes, position by position:
    the first character weighs [10 ^ (length - 1)]. *)
Fixpoint value (s : cstring) : Z :=
  match s with
  | [] => 0
  | c :: r => digit_of c * 10 ^ Z.of_nat (length r) + value r
  end.

(** ** Remainders of a decimal string *)

(** [for (char c : pn_str) remainder = (remainder * 10 + (c - '0')) % m;] *)
Definition mod_loop (m : Z) (pn_str : cstring) (remainder : Z) : Z :=
  fold_left (fun remainder c => Z.rem (add_ll (to_ll (remainder * 10)) (digit_of c)) m)
            pn_str remainder.

Definition calculate_mod_12 (pn_str : cstring) : Z := mod_loop 12 pn_str 0.

Definition calculate_mod_7 (pn_str : cstring) : Z := mod_loop 7 pn_str 0.

(** ** Prime sets *)

Inductive PrimeSet := SET_NONE | SET_A | SET_B | SET_C | SET_D.

(** The integer value of the enumerator. *)
Definition PrimeSet_index (p : PrimeSet) : Z :=
  match p with
  | SET_NONE => 0 | SET_A => 1 | SET_B => 2 | SET_C => 3 | SET_D => 4
  end.

Definition cstring_eqb (a b : cstring) : bool :=
  if list_eq_dec ascii_dec a b then true else false.

Definition determine_prime_set (pn_str : cstring) : PrimeSet :=
  match pn_str with
  | [] => SET_NONE
  | _ =>
    let p_mod_12 := calculate_mod_12 pn_str in
    if p_mod_12 =? 1 then SET_A
    else if p_mod_12 =? 5 then SET_B
    else if p_mod_12 =? 7 then SET_C
    else if p_mod_12 =? 11 then SET_D
    else if cstring_eqb pn_str (lit "2") then SET_A
    else if cstring_eqb pn_str (lit "3") then SET_B
    else SET_NONE
  end.

(** ** Correction tables *)

Definition ULAM_CORRECTION_SIZE : Z := 5.
Definition MOD_7_CORRECTION_SIZE : Z := 7.

Definition ulam_delta_correction_12 : list Z := [0; -2; 2; -1; -6].
Definition ulam_delta_correction_7 : list Z := [0; 3; -1; 0; 1; -1; 0].

(** Reading [table[i]]; [None] when the index is outside the array. *)
Definition array_read (table : list Z) (i : Z) : option Z :=
  if i <? 0 then None else nth_error table (Z.to_nat i).

(** ** Big-decimal addition *)

(** [std::to_string(long long)]: the decimal digits of [n], most significant
    first, after a minus sign when [n] is negative.  A [long long] has at
    most 19 digits. *)
Fixpoint decimal_digits (fuel : nat) (n : Z) (acc : cstring) : cstring :=
  match fuel with
  | O => acc
  | S fuel' =>
    let acc' := int_to_char (char_0 + n mod 10) :: acc in
    if n <? 10 then acc' else decimal_digits fuel' (n / 10) acc'
  end.

Definition to_string (n : Z) : cstring :=
  if n <? 0 then "-"%char :: decimal_digits 20 (- n) []
  else decimal_digits 20 n [].

(** [s[i]] for an index inside the string. *)
Definition char_at (s : cstring) (i : Z) : ascii := nth (Z.to_nat i) s zero.

(** The [while (i >= 0 || j >= 0 || carry)] loop of [add_strings].  One
    unit of fuel is one evaluation of the loop condition; [None] means the
    fuel ran out before the condition became false. *)
Fixpoint add_loop (fuel : nat) (large_num_str small_num_str : cstring)
         (i j carry : Z) (result : cstring) : option cstring :=
  match fuel with
  | O => None
  | S fuel' =>
    if (0 <=? i) || (0 <=? j) || negb (carry =? 0) then
      let sum := carry in
      let sum := if 0 <=? i then sum + digit_of (char_at large_num_str i) else sum in
      let i := if 0 <=? i then i - 1 else i in
      let sum := if 0 <=? j then sum + digit_of (char_at small_num_str j) else sum in
      let j := if 0 <=? j then j - 1 else j in
      let carry := Z.quot sum 10 in
      let sum := Z.rem sum 10 in
      add_loop fuel' large_num_str small_num_str i j carry
               (int_to_char (sum + char_0) :: result)
    else Some result
  end.

(** [int i = large_num_str.length() - 1;] converts a [size_t] to [int]. *)
Definition last_index (s : cstring) : Z := to_int (Z.of_nat (length s) - 1).

Definition add_strings_fuel (large_num_str small_num_str : cstring) : nat :=
  (length large_num_str + length small_num_str + 4)%nat.

Definition add_strings (large_num_str : cstring) (small_num_ll : Z) : option cstring :=
  let small_num_str := to_string small_num_ll in
  add_loop (add_strings_fuel large_num_str small_num_str)
           large_num_str small_num_str
           (last_index large_num_str) (last_index small_num_str) 0 [].

(** ** Errors *)

(** What can stop a call before it returns: an exception of the standard
    library, an array read outside its bounds, or (an artefact of the
    embedding only) a loop that used up its fuel. *)
Inductive error :=
| std_out_of_range
| std_invalid_argument
| array_out_of_bounds
| fuel_exhausted.

Inductive result (A : Type) :=
| Ok (a : A)
| Err (e : error).
Arguments Ok {A} a.
Arguments Err {A} e.

Definition bind {A B : Type} (m : result A) (k : A -> result B) : result B :=
  match m with
  | Ok a => k a
  | Err e => Err e
  end.

Notation "x <- m ;; k" := (bind m (fun x => k))
  (at level 61, m at next level, right associativity).

Definition of_option {A : Type} (e : error) (o : option A) : result A :=
  match o with
  | Some a => Ok a
  | None => Err e
  end.

(** [s.substr(pos, count)] *)
Definition substr (s : cstring) (pos count : Z) : result cstring :=
  if Z.of_nat (length s) <? pos then Err std_out_of_range
  else Ok (firstn (Z.to_nat count) (skipn (Z.to_nat pos) s)).

(** ** Floating point *)

Inductive fp_type := Double | LongDouble.

(** [long double] is the 64-bit format with MSVC and the 80-bit x87 format
    with GCC and MinGW. *)
Inductive long_double_format := LD_binary64 | LD_x87.

Definition ld_precision (f : long_double_format) : Z :=
  match f with LD_binary64 => 53 | LD_x87 => 64 end.

Definition ld_emax (f : long_double_format) : Z :=
  match f with LD_binary64 => 1024 | LD_x87 => 16384 end.

(** The least integer that rounding to nearest takes beyond the largest
    finite [long double]: [strtold] reports [ERANGE] from here on. *)
Definition ld_overflow_threshold (f : long_double_format) : Z :=
  2 ^ ld_emax f - 2 ^ (ld_emax f - ld_precision f - 1).

(** The operations of <cmath> and of the floating-point unit that the
    predictor uses, each at the C++ type it is performed at. *)
Class Libm := {
  fp : Type;
  ld_format : long_double_format;
  (** conversion of an integer, rounding to nearest *)
  fp_of_Z : fp_type -> Z -> fp;
  (** the decimal literal [m * 10^e] *)
  fp_literal : fp_type -> Z -> Z -> fp;
  (** conversion between the floating types *)
  fp_cast : fp_type -> fp -> fp;
  fp_add : fp_type -> fp -> fp -> fp;
  fp_mul : fp_type -> fp -> fp -> fp;
  fp_div : fp_type -> fp -> fp -> fp;
  (** [std::log] *)
  fp_log : fp_type -> fp -> fp;
  (** [std::round] *)
  fp_round : fp_type -> fp -> fp;
  (** the integer part of a finite value, [None] for infinities and NaN *)
  fp_trunc : fp -> option Z;
  (** [x > y] *)
  fp_gt : fp -> fp -> bool
}.

(** [std::round] of the rational [num / den] ([den > 0]): the nearest
    integer, halves away from zero. *)
Definition round_half_away (num den : Z) : Z :=
  if 0 <=? num then (2 * num + den) / (2 * den)
  else - ((2 * (- num) + den) / (2 * den)).

(** The integer nearest to [num / den] ([0 <= num], [0 < den]), a tie
    going to the even one: the rounding of IEEE arithmetic. *)
Definition round_nearest_even (num den : Z) : Z :=
  let q := num / den in
  let r := num mod den in
  if 2 * r <? den then q
  else if den <? 2 * r then q + 1
  else if Z.even q then q else q + 1.

(** The exponent of the leading bit of [num / den] ([0 < num], [0 < den]):
    the [k] with [2 ^ k <= num / den < 2 ^ (k + 1)]. *)
Definition floor_log2 (num den : Z) : Z :=
  if den <=? num then Z.log2 (num / den)
  else - Z.log2_up ((den + num - 1) / num).

(** The floating-point number of [p] bits of precision nearest to the
    rational [num / den], as a rational again (numerator, denominator).
    The exponent range is not modelled: the values rounded here, lengths
    of strings, their squares and the fiftieth of these, are far inside
    it. *)
Definition ld_round_positive (p num den : Z) : Z * Z :=
  let ulp := floor_log2 num den + 1 - p in
  if 0 <=? ulp then (round_nearest_even num (den * 2 ^ ulp) * 2 ^ ulp, 1)
  else (round_nearest_even (num * 2 ^ (- ulp)) den, 2 ^ (- ulp)).

Definition ld_round (p num den : Z) : Z * Z :=
  if num =? 0 then (0, 1)
  else if num <? 0 then
    let '(n, d) := ld_round_positive p (- num) den in (- n, d)
  else ld_round_positive p num den.

(** [(long long) x] for an integral [x].  Outside the range of [long long]
    C++ leaves the conversion undefined; x86 stores LLONG_MIN. *)
Definition cast_ll (z : Z) : Z :=
  if (LLONG_MIN <=? z) && (z <=? LLONG_MAX) then z else LLONG_MIN.

(** [MATH_PI = 3.141592653589793] *)
Definition MATH_PI_mantissa : Z := 3141592653589793.
Definition MATH_PI_exponent : Z := -15.

(** ** The base gap *)

(** [(long long)std::round(((long double)digits * digits) / 50.0L) + 2]
    where [long double] has the format [f]: the conversion of [digits],
    the product and the quotient are each rounded to that format. *)
Definition base_gap_of (f : long_double_format) (digits : Z) : Z :=
  let p := ld_precision f in
  let x := ld_round p digits 1 in
  let product := ld_round p (fst x * fst x) (snd x * snd x) in
  let quotient := ld_round p (fst product) (snd product * 50) in
  add_ll (cast_ll (round_half_away (fst quotient) (snd quotient))) 2.

(** The two statements that close both gap computations:
    [if (gap % 2 != 0) { gap += 1; }  if (gap < 2) { gap = 2; }] *)
Definition even_at_least_2 (gap : Z) : Z :=
  let gap := if negb (Z.rem gap 2 =? 0) then add_ll gap 1 else gap in
  if gap <? 2 then 2 else gap.

(** The first argument is the format of the platform's [long double]. *)
Definition LGO_CalculateNextPrime_BaseGap_Detailed (f : long_double_format)
           (pn_str : cstring) (success_flag : bool)
  : (Z * cstring * Z) * bool :=
  let digits := to_ll (Z.of_nat (length pn_str)) in
  let base_gap := base_gap_of f digits in
  let predicted_gap := add_ll base_gap (Z.quot 2 2) in
  let predicted_gap := even_at_least_2 predicted_gap in
  let p_n_plus_1 : cstring := [] in
  let success_flag := true in
  ((predicted_gap, p_n_plus_1, digits), success_flag).

(** [(long long)std::round((double)delta_7 * MATH_PI / 10.0)], the product
    and the quotient taken exactly. *)
Definition mod_7_term (delta_7 : Z) : Z :=
  cast_ll (round_half_away (delta_7 * MATH_PI_mantissa) (10 ^ (1 - MATH_PI_exponent))).

(** ** The predictor *)

Section Predictor.

Context {L : Libm}.

(** [std::stold] on the strings the program passes to it, which hold
    decimal digits only (sign, fraction, exponent and the spellings of
    infinity and NaN are not modelled): the digits are read as an integer,
    [std::invalid_argument] is thrown when there is none, and
    [std::out_of_range] when [strtold] overflows. *)
Fixpoint digit_prefix (s : cstring) : cstring :=
  match s with
  | [] => []
  | c :: r => if is_digit c then c :: digit_prefix r else []
  end.

Definition stold (s : cstring) : result fp :=
  match digit_prefix s with
  | [] => Err std_invalid_argument
  | ds =>
    if ld_overflow_threshold ld_format <=? value ds then Err std_out_of_range
    else Ok (fp_of_Z LongDouble (value ds))
  end.

(** [(long long) x] *)
Definition fp_to_ll (x : fp) : Z :=
  match fp_trunc x with
  | Some z => cast_ll z
  | None => LLONG_MIN
  end.

(** *** Startup constants *)

Definition MUON_MASS_LD : fp :=
  fp_mul LongDouble (fp_literal LongDouble 18835316 (-7)) (fp_literal LongDouble 1 (-28)).
Definition ELECTRON_MASS_LD : fp :=
  fp_mul LongDouble (fp_literal LongDouble 91093837 (-7)) (fp_literal LongDouble 1 (-31)).
Definition C_LGO_STATIC : fp :=
  fp_cast Double (fp_div LongDouble MUON_MASS_LD ELECTRON_MASS_LD).
Definition MATH_E : fp := fp_literal Double 2718281828459045 (-15).
Definition MATH_PI : fp := fp_literal Double MATH_PI_mantissa MATH_PI_exponent.
Definition PHI_DAMPENER : fp :=
  fp_div Double (fp_literal Double 16180339887 (-10)) (fp_literal Double 2 0).
Definition C_LGO_STAR : fp :=
  fp_mul Double (fp_mul Double C_LGO_STATIC PHI_DAMPENER)
         (fp_div Double (fp_log Double C_LGO_STATIC)
                 (fp_log Double (fp_mul Double MATH_E MATH_PI))).

(** *** Metrics and global variables *)

Record PredictionMetrics := {
  g_gravitational : fp;
  current_prime_digits : Z;
  base_gap_out : Z;
  density_correction_G : Z;
  delta_out : Z;
  fluctuation_delta : Z;
  final_gap : Z;
  correlative_adjustment : fp;
  current_prime_set : string;
  zeta_correlation_Z : Z;
  rh_condition_status : string;
  pnt_ratio : fp
}.

Definition set_g_gravitational (v : fp) (m : PredictionMetrics) : PredictionMetrics :=
  {| g_gravitational := v;
     current_prime_digits := current_prime_digits m;
     base_gap_out := base_gap_out m;
     density_correction_G := density_correction_G m;
     delta_out := delta_out m;
     fluctuation_delta := fluctuation_delta m;
     final_gap := final_gap m;
     correlative_adjustment := correlative_adjustment m;
     current_prime_set := current_prime_set m;
     zeta_correlation_Z := zeta_correlation_Z m;
     rh_condition_status := rh_condition_status m;
     pnt_ratio := pnt_ratio m |}.

Definition set_current_prime_digits (v : Z) (m : PredictionMetrics) : PredictionMetrics :=
  {| g_gravitational := g_gravitational m;
     current_prime_digits := v;
     base_gap_out := base_gap_out m;
     density_correction_G := density_correction_G m;
     delta_out := delta_out m;
     fluctuation_delta := fluctuation_delta m;
     final_gap := final_gap m;
     correlative_adjustment := correlative_adjustment m;
     current_prime_set := current_prime_set m;
     zeta_correlation_Z := zeta_correlation_Z m;
     rh_condition_status := rh_condition_status m;
     pnt_ratio := pnt_ratio m |}.

Definition set_base_gap_out (v : Z) (m : PredictionMetrics) : PredictionMetrics :=
  {| g_gravitational := g_gravitational m;
     current_prime_digits := current_prime_digits m;
     base_gap_out := v;
     density_correction_G := density_correction_G m;
     delta_out := delta_out m;
     fluctuation_delta := fluctuation_delta m;
     final_gap := final_gap m;
     correlative_adjustment := correlative_adjustment m;
     current_prime_set := current_prime_set m;
     zeta_correlation_Z := zeta_correlation_Z m;
     rh_condition_status := rh_condition_status m;
     pnt_ratio := pnt_ratio m |}.

Definition set_density_correction_G (v : Z) (m : PredictionMetrics) : PredictionMetrics :=
  {| g_gravitational := g_gravitational m;
     current_prime_digits := current_prime_digits m;
     base_gap_out := base_gap_out m;
     density_correction_G := v;
     delta_out := delta_out m;
     fluctuation_delta := fluctuation_delta m;
     final_gap := final_gap m;
     correlative_adjustment := correlative_adjustment m;
     current_prime_set := current_prime_set m;
     zeta_correlation_Z := zeta_correlation_Z m;
     rh_condition_status := rh_condition_status m;
     pnt_ratio := pnt_ratio m |}.

Definition set_delta_out (v : Z) (m : PredictionMetrics) : PredictionMetrics :=
  {| g_gravitational := g_gravitational m;
     current_prime_digits := current_prime_digits m;
     base_gap_out := base_gap_out m;
     density_correction_G := density_correction_G m;
     delta_out := v;
     fluctuation_delta := fluctuation_delta m;
     final_gap := final_gap m;
     correlative_adjustment := correlative_adjustment m;
     current_prime_set := current_prime_set m;
     zeta_correlation_Z := zeta_correlation_Z m;
     rh_condition_status := rh_condition_status m;
     pnt_ratio := pnt_ratio m |}.

Definition set_fluctuation_delta (v : Z) (m : PredictionMetrics) : PredictionMetrics :=
  {| g_gravitational := g_gravitational m;
     current_prime_digits := current_prime_digits m;
     base_gap_out := base_gap_out m;
     density_correction_G := density_correction_G m;
     delta_out := delta_out m;
     fluctuation_delta := v;
     final_gap := final_gap m;
     correlative_adjustment := correlative_adjustment m;
     current_prime_set := current_prime_set m;
     zeta_correlation_Z := zeta_correlation_Z m;
     rh_condition_status := rh_condition_status m;
     pnt_ratio := pnt_ratio m |}.

Definition set_final_gap (v : Z) (m : PredictionMetrics) : PredictionMetrics :=
  {| g_gravitational := g_gravitational m;
     current_prime_digits := current_prime_digits m;
     base_gap_out := base_gap_out m;
     density_correction_G := density_correction_G m;
     delta_out := delta_out m;
     fluctuation_delta := fluctuation_delta m;
     final_gap := v;
     correlative_adjustment := correlative_adjustment m;
     current_prime_set := current_prime_set m;
     zeta_correlation_Z := zeta_correlation_Z m;
     rh_condition_status := rh_condition_status m;
     pnt_ratio := pnt_ratio m |}.

Definition set_correlative_adjustment (v : fp) (m : PredictionMetrics) : PredictionMetrics :=
  {| g_gravitational := g_gravitational m;
     current_prime_digits := current_prime_digits m;
     base_gap_out := base_gap_out m;
     density_correction_G := density_correction_G m;
     delta_out := delta_out m;
     fluctuation_delta := fluctuation_delta m;
     final_gap := final_gap m;
     correlative_adjustment := v;
     current_prime_set := current_prime_set m;
     zeta_correlation_Z := zeta_correlation_Z m;
     rh_condition_status := rh_condition_status m;
     pnt_ratio := pnt_ratio m |}.

Definition set_current_prime_set (v : string) (m : PredictionMetrics) : PredictionMetrics :=
  {| g_gravitational := g_gravitational m;
     current_prime_digits := current_prime_digits m;
     base_gap_out := base_gap_out m;
     density_correction_G := density_correction_G m;
     delta_out := delta_out m;
     fluctuation_delta := fluctuation_delta m;
     final_gap := final_gap m;
     correlative_adjustment := correlative_adjustment m;
     current_prime_set := v;
     zeta_correlation_Z := zeta_correlation_Z m;
     rh_condition_status := rh_condition_status m;
     pnt_ratio := pnt_ratio m |}.

Definition set_zeta_correlation_Z (v : Z) (m : PredictionMetrics) : PredictionMetrics :=
  {| g_gravitational := g_gravitational m;
     current_prime_digits := current_prime_digits m;
     base_gap_out := base_gap_out m;
     density_correction_G := density_correction_G m;
     delta_out := delta_out m;
     fluctuation_delta := fluctuation_delta m;
     final_gap := final_gap m;
     correlative_adjustment := correlative_adjustment m;
     current_prime_set := current_prime_set m;
     zeta_correlation_Z := v;
     rh_condition_status := rh_condition_status m;
     pnt_ratio := pnt_ratio m |}.

Definition set_rh_condition_status (v : string) (m : PredictionMetrics) : PredictionMetrics :=
  {| g_gravitational := g_gravitational m;
     current_prime_digits := current_prime_digits m;
     base_gap_out := base_gap_out m;
     density_correction_G := density_correction_G m;
     delta_out := delta_out m;
     fluctuation_delta := fluctuation_delta m;
     final_gap := final_gap m;
     correlative_adjustment := correlative_adjustment m;
     current_prime_set := current_prime_set m;
     zeta_correlation_Z := zeta_correlation_Z m;
     rh_condition_status := v;
     pnt_ratio := pnt_ratio m |}.

Definition set_pnt_ratio (v : fp) (m : PredictionMetrics) : PredictionMetrics :=
  {| g_gravitational := g_gravitational m;
     current_prime_digits := current_prime_digits m;
     base_gap_out := base_gap_out m;
     density_correction_G := density_correction_G m;
     delta_out := delta_out m;
     fluctuation_delta := fluctuation_delta m;
     final_gap := final_gap m;
     correlative_adjustment := correlative_adjustment m;
     current_prime_set := current_prime_set m;
     zeta_correlation_Z := zeta_correlation_Z m;
     rh_condition_status := rh_condition_status m;
     pnt_ratio := v |}.

(** The global variables [LGO_Predict_Deterministic] assigns. *)
Record globals := {
  current_phi : fp;
  pnt_gap_ratio : fp;
  current_prime_set_enum : PrimeSet
}.

Definition set_current_phi (v : fp) (g : globals) : globals :=
  {| current_phi := v;
     pnt_gap_ratio := pnt_gap_ratio g;
     current_prime_set_enum := current_prime_set_enum g |}.

Definition set_pnt_gap_ratio (v : fp) (g : globals) : globals :=
  {| current_phi := current_phi g;
     pnt_gap_ratio := v;
     current_prime_set_enum := current_prime_set_enum g |}.

Definition set_current_prime_set_enum (v : PrimeSet) (g : globals) : globals :=
  {| current_phi := current_phi g;
     pnt_gap_ratio := pnt_gap_ratio g;
     current_prime_set_enum := v |}.

Definition PrimeSet_label (p : PrimeSet) : string :=
  match p with
  | SET_A => "SET_A"
  | SET_B => "SET_B"
  | SET_C => "SET_C"
  | SET_D => "SET_D"
  | SET_NONE => "SET_UNKNOWN"
  end.

(** [std::log(10.0) * (digits - 1) + std::log(std::stold(...))], stored in
    a [double]; [lead] is the value [std::stold] returned. *)
Definition ln_pn_of (digits : Z) (lead : fp) : fp :=
  fp_cast Double
    (fp_add LongDouble
       (fp_cast LongDouble
          (fp_mul Double (fp_log Double (fp_literal Double 10 0))
                  (fp_of_Z Double (sub_ll digits 1))))
       (fp_log LongDouble lead)).

(** [(ln_pn * std::log(g_rigid_constant)) / g_rigid_constant] *)
Definition phi_term_of (ln_pn g_rigid_constant : fp) : fp :=
  fp_div Double (fp_mul Double ln_pn (fp_log Double g_rigid_constant)) g_rigid_constant.

Definition LGO_Predict_Deterministic (pn_str : cstring)
           (metrics : PredictionMetrics) (g : globals)
  : result ((Z * cstring) * PredictionMetrics * globals) :=
  let success_flag := false in
  let digits := to_ll (Z.of_nat (length pn_str)) in
  let metrics := set_current_prime_digits digits metrics in
  let '((base_gap_heuristic, next_p_str_temp, digits_check), success_flag) :=
    LGO_CalculateNextPrime_BaseGap_Detailed ld_format pn_str success_flag in
  let metrics := set_base_gap_out base_gap_heuristic metrics in
  (* 0. rigid constant *)
  let g_rigid_constant := C_LGO_STAR in
  let metrics := set_g_gravitational g_rigid_constant metrics in
  (* 1. density correction *)
  leading <- substr pn_str 0 (Z.min 10 (Z.of_nat (length pn_str))) ;;
  lead <- stold leading ;;
  let ln_pn := ln_pn_of digits lead in
  let phi_term := phi_term_of ln_pn g_rigid_constant in
  let g := set_current_phi phi_term g in
  let G_density := fp_to_ll (fp_round Double (current_phi g)) in
  let metrics := set_density_correction_G G_density metrics in
  (* 2. Ulam / mod 7 delta *)
  let g := set_current_prime_set_enum (determine_prime_set pn_str) g in
  let metrics := set_current_prime_set (PrimeSet_label (current_prime_set_enum g)) metrics in
  delta_12 <- of_option array_out_of_bounds
                (array_read ulam_delta_correction_12
                            (PrimeSet_index (current_prime_set_enum g))) ;;
  let p_n_mod_7 := calculate_mod_7 pn_str in
  delta_7 <- of_option array_out_of_bounds
               (array_read ulam_delta_correction_7 p_n_mod_7) ;;
  let delta_final := add_ll delta_12 (mod_7_term delta_7) in
  let metrics := set_delta_out delta_final metrics in
  (* 3. fluctuation, removed *)
  let fluctuation := 0 in
  let metrics := set_fluctuation_delta 0 metrics in
  (* 4. final gap *)
  let final_gap := add_ll (add_ll base_gap_heuristic delta_final) G_density in
  let final_gap := even_at_least_2 final_gap in
  let metrics := set_final_gap final_gap metrics in
  let metrics := set_correlative_adjustment (current_phi g) metrics in
  (* 5. PNT ratio *)
  full <- stold pn_str ;;
  let ln_pn_precise := fp_cast Double (fp_log LongDouble full) in
  let '(metrics, g) :=
    if fp_gt ln_pn_precise (fp_literal Double 0 0) then
      let metrics :=
        set_pnt_ratio (fp_div Double (fp_of_Z Double final_gap) ln_pn_precise) metrics in
      (metrics, set_pnt_gap_ratio (pnt_ratio metrics) g)
    else
      (set_pnt_ratio (fp_literal Double 0 0) metrics, g) in
  let metrics := set_zeta_correlation_Z 0 metrics in
  let metrics := set_rh_condition_status "STABLE (C_LGO*)" metrics in
  (* 6. big-decimal addition *)
  next_prime_result <- of_option fuel_exhausted (add_strings pn_str final_gap) ;;
  Ok ((final_gap, next_prime_result), metrics, g).

(** The value a freshly declared [PredictionMetrics] holds. *)
Definition PredictionMetrics_init : PredictionMetrics :=
  {| g_gravitational := C_LGO_STAR;
     current_prime_digits := 0;
     base_gap_out := 0;
     density_correction_G := 0;
     delta_out := 0;
     fluctuation_delta := 0;
     final_gap := 0;
     correlative_adjustment := fp_literal Double 0 0;
     current_prime_set := "SET_D";
     zeta_correlation_Z := 0;
     rh_condition_status := "STABLE (C_LGO*)";
     pnt_ratio := fp_literal Double 0 0 |}.

(** The globals as the program initialises them. *)
Definition globals_init : globals :=
  {| current_phi := fp_literal Double 0 0;
     pnt_gap_ratio := fp_literal Double 0 0;
     current_prime_set_enum := SET_D |}.

(** The body of the loop of [prediction_loop], as far as the predictor is
    concerned: a fresh metrics record, one prediction, and the candidate
    becomes the next input. *)
Definition prediction_step (st : cstring * globals) : result (cstring * globals) :=
  let '(user_prime_input, g) := st in
  r <- LGO_Predict_Deterministic user_prime_input PredictionMetrics_init g ;;
  let '((final_gap, next_prime_str), metrics, g) := r in
  Ok (next_prime_str, g).

Fixpoint prediction_chain (n : nat) (st : cstring * globals) : result (cstring * globals) :=
  match n with
  | O => Ok st
  | S n' => st' <- prediction_step st ;; prediction_chain n' st'
  end.

(** *** One call in closed form

    What a call computes, as functions of the input and of the values its
    fallible steps produced: [lead] and [full] are the results of the two
    calls of [std::stold], [delta_12] and [delta_7] the two table entries. *)

Definition digits_of (pn_str : cstring) : Z := to_ll (Z.of_nat (length pn_str)).

Definition leading_digits (pn_str : cstring) : result cstring :=
  substr pn_str 0 (Z.min 10 (Z.of_nat (length pn_str))).

Definition base_gap_heuristic_of (pn_str : cstring) : Z :=
  fst (fst (fst (LGO_CalculateNextPrime_BaseGap_Detailed ld_format pn_str false))).

Definition phi_of (pn_str : cstring) (lead : fp) : fp :=
  phi_term_of (ln_pn_of (digits_of pn_str) lead) C_LGO_STAR.

Definition G_density_of (pn_str : cstring) (lead : fp) : Z :=
  fp_to_ll (fp_round Double (phi_of pn_str lead)).

Definition delta_final_of (delta_12 delta_7 : Z) : Z :=
  add_ll delta_12 (mod_7_term delta_7).

Definition final_gap_of (pn_str : cstring) (lead : fp) (delta_12 delta_7 : Z) : Z :=
  even_at_least_2
    (add_ll (add_ll (base_gap_heuristic_of pn_str) (delta_final_of delta_12 delta_7))
            (G_density_of pn_str lead)).

Definition ln_pn_precise_of (full : fp) : fp := fp_cast Double (fp_log LongDouble full).

Definition pnt_ratio_of (final_gap : Z) (full : fp) : fp :=
  if fp_gt (ln_pn_precise_of full) (fp_literal Double 0 0)
  then fp_div Double (fp_of_Z Double final_gap) (ln_pn_precise_of full)
  else fp_literal Double 0 0.

Definition metrics_of (pn_str : cstring) (lead : fp) (delta_12 delta_7 : Z) (full : fp)
  : PredictionMetrics :=
  {| g_gravitational := C_LGO_STAR;
     current_prime_digits := digits_of pn_str;
     base_gap_out := base_gap_heuristic_of pn_str;
     density_correction_G := G_density_of pn_str lead;
     delta_out := delta_final_of delta_12 delta_7;
     fluctuation_delta := 0;
     final_gap := final_gap_of pn_str lead delta_12 delta_7;
     correlative_adjustment := phi_of pn_str lead;
     current_prime_set := PrimeSet_label (determine_prime_set pn_str);
     zeta_correlation_Z := 0;
     rh_condition_status := "STABLE (C_LGO*)";
     pnt_ratio := pnt_ratio_of (final_gap_of pn_str lead delta_12 delta_7) full |}.

Definition globals_of (pn_str : cstring) (lead : fp) (delta_12 delta_7 : Z) (full : fp)
           (g : globals) : globals :=
  {| current_phi := phi_of pn_str lead;
     pnt_gap_ratio :=
       if fp_gt (ln_pn_precise_of full) (fp_literal Double 0 0)
       then pnt_ratio_of (final_gap_of pn_str lead delta_12 delta_7) full
       else pnt_gap_ratio g;
     current_prime_set_enum := determine_prime_set pn_str |}.

(** The values the fallible steps produce on a digit string. *)
Definition lead_of (pn_str : cstring) : fp :=
  fp_of_Z LongDouble
    (value (firstn (Z.to_nat (Z.min 10 (Z.of_nat (length pn_str)))) pn_str)).

Definition full_of (pn_str : cstring) : fp := fp_of_Z LongDouble (value pn_str).

Definition delta_12_of (pn_str : cstring) : Z :=
  nth (Z.to_nat (PrimeSet_index (determine_prime_set pn_str))) ulam_delta_correction_12 0.

Definition delta_7_of (pn_str : cstring) : Z :=
  nth (Z.to_nat (calculate_mod_7 pn_str)) ulam_delta_correction_7 0.

Definition gap_of (pn_str : cstring) : Z :=
  final_gap_of pn_str (lead_of pn_str) (delta_12_of pn_str) (delta_7_of pn_str).

Definition predict_closed_form (pn_str : cstring) (g : globals)
  : result ((Z * cstring) * PredictionMetrics * globals) :=
  leading <- leading_digits pn_str ;;
  lead <- stold leading ;;
  delta_12 <- of_option array_out_of_bounds
                (array_read ulam_delta_correction_12
                            (PrimeSet_index (determine_prime_set pn_str))) ;;
  delta_7 <- of_option array_out_of_bounds
               (array_read ulam_delta_correction_7 (calculate_mod_7 pn_str)) ;;
  full <- stold pn_str ;;
  next_prime_result <-
    of_option fuel_exhausted
      (add_strings pn_str (final_gap_of pn_str lead delta_12 delta_7)) ;;
  Ok ((final_gap_of pn_str lead delta_12 delta_7, next_prime_result),
      metrics_of pn_str lead delta_12 delta_7 full,
      globals_of pn_str lead delta_12 delta_7 full g).

(** What a caller can see of a call: the returned pair and the metrics
    record, or the exception. *)
Definition observable (r : result ((Z * cstring) * PredictionMetrics * globals))
  : result ((Z * cstring) * PredictionMetrics) :=
  match r with
  | Ok (p, m, g) => Ok (p, m)
  | Err e => Err e
  end.

End Predictor.

(** [PRIME_LIST] *)
Definition PRIME_LIST : list (string * cstring) :=
  [ ("(1) 10 Digits", lit "9999999967");
    ("(2) 15 Digits", lit "999999999999991");
    ("(3) 18 Digits", lit "9999999999999999983");
    ("(4) 19 Digits (BigInt Test)", lit "9999999999999999997") ]%string.

(** ** The sequence file *)

(** [lgo_sequence.txt] as the text streams of the program see it: the
    characters an input stream delivers, [None] when there is no file to
    open, and whether an output stream opens for appending. *)
Record file_system := {
  sequence_file : option cstring;
  append_opens : bool }.

Definition newline : ascii := "010"%char.

Definition is_empty (s : cstring) : bool :=
  match s with
  | [] => true
  | _ => false
  end.

(** What [std::getline] stores and what it leaves unread: it extracts the
    characters up to and including the first newline, and drops the
    newline. *)
Fixpoint extract_line (unread : cstring) : cstring * cstring :=
  match unread with
  | [] => ([], [])
  | c :: rest =>
    if Ascii.eqb c newline then ([], rest)
    else let '(line, rest') := extract_line rest in (c :: line, rest')
  end.

(** [std::getline(file, current_line)]; [None] when the stream fails,
    which it does when there is no character left to extract. *)
Definition getline (unread : cstring) : option (cstring * cstring) :=
  match unread with
  | [] => None
  | _ => Some (extract_line unread)
  end.

(** The [while (std::getline(file, current_line))] loop of
    [load_last_prime].  One unit of fuel is one call of [std::getline]. *)
Fixpoint load_loop (fuel : nat) (unread last_line : cstring) : option cstring :=
  match fuel with
  | O => None
  | S fuel' =>
    match getline unread with
    | Some (current_line, unread') =>
      load_loop fuel' unread'
                (if negb (is_empty current_line) then current_line else last_line)
    | None => Some last_line
    end
  end.

(** A stream that failed to open fails the first [std::getline]. *)
Definition load_last_prime (fs : file_system) : option cstring :=
  let last_line :=
    match sequence_file fs with
    | Some content => load_loop (S (length content)) content []
    | None => Some []
    end in
  match last_line with
  | Some last_line => Some (if negb (is_empty last_line) then last_line else [])
  | None => None
  end.

Definition save_new_prime (prime_candidate : cstring) (fs : file_system) : file_system :=
  if append_opens fs then
    let content :=
      match sequence_file fs with
      | Some content => content
      | None => []
      end in
    {| sequence_file := Some (content ++ prime_candidate ++ [newline]);
       append_opens := append_opens fs |}
  else fs.

(** ** The menu *)

(** [std::toupper] in the "C" locale. *)
Definition toupper (c : ascii) : ascii :=
  let n := Z.of_nat (nat_of_ascii c) in
  if (97 <=? n) && (n <=? 122) then ascii_of_nat (Z.to_nat (n - 32)) else c.

(** [std::string::npos] *)
Definition npos : Z := 2 ^ 64 - 1.

(** Conversion to [size_t]. *)
Definition to_size_t (z : Z) : Z := z mod 2 ^ 64.

Fixpoint find_first_not_of_from (s chars : cstring) (pos : Z) : Z :=
  match s with
  | [] => npos
  | c :: rest =>
    if existsb (Ascii.eqb c) chars then find_first_not_of_from rest chars (pos + 1)
    else pos
  end.

(** [s.find_first_not_of(chars)] *)
Definition find_first_not_of (s chars : cstring) : Z := find_first_not_of_from s chars 0.

(** [!user_prime_input.empty() &&
     user_prime_input.find_first_not_of("0123456789") == std::string::npos] *)
Definition valid_manual_entry (user_prime_input : cstring) : bool :=
  negb (is_empty user_prime_input)
  && (find_first_not_of user_prime_input (lit "0123456789") =? npos).

(** [choice >= '1' && choice <= '0' + PRIME_LIST.size()]: the second
    comparison is made in [size_t]. *)
Definition is_list_choice (choice : ascii) : bool :=
  (char_to_int "1" <=? char_to_int choice)
  && (to_size_t (char_to_int choice)
      <=? to_size_t (to_size_t (char_to_int "0") + Z.of_nat (length PRIME_LIST))).

(** [int index = choice - '1';] *)
Definition list_index (choice : ascii) : Z :=
  to_int (char_to_int choice - char_to_int "1").

(** [index >= 0 && index < PRIME_LIST.size()] *)
Definition index_in_range (index : Z) : bool :=
  (0 <=? index) && (to_size_t index <? Z.of_nat (length PRIME_LIST)).

Section Program.

Context {L : Libm}.

(** The global variables and the file. *)
Record program_state := {
  predictions_made : Z;
  is_running : bool;
  in_menu : bool;
  user_prime_input : cstring;
  predictor_globals : globals;
  files : file_system }.

Definition set_predictions_made (v : Z) (st : program_state) : program_state :=
  {| predictions_made := v;
     is_running := is_running st;
     in_menu := in_menu st;
     user_prime_input := user_prime_input st;
     predictor_globals := predictor_globals st;
     files := files st |}.

Definition set_is_running (v : bool) (st : program_state) : program_state :=
  {| predictions_made := predictions_made st;
     is_running := v;
     in_menu := in_menu st;
     user_prime_input := user_prime_input st;
     predictor_globals := predictor_globals st;
     files := files st |}.

Definition set_in_menu (v : bool) (st : program_state) : program_state :=
  {| predictions_made := predictions_made st;
     is_running := is_running st;
     in_menu := v;
     user_prime_input := user_prime_input st;
     predictor_globals := predictor_globals st;
     files := files st |}.

Definition set_user_prime_input (v : cstring) (st : program_state) : program_state :=
  {| predictions_made := predictions_made st;
     is_running := is_running st;
     in_menu := in_menu st;
     user_prime_input := v;
     predictor_globals := predictor_globals st;
     files := files st |}.

Definition set_predictor_globals (v : globals) (st : program_state) : program_state :=
  {| predictions_made := predictions_made st;
     is_running := is_running st;
     in_menu := in_menu st;
     user_prime_input := user_prime_input st;
     predictor_globals := v;
     files := files st |}.

Definition set_files (v : file_system) (st : program_state) : program_state :=
  {| predictions_made := predictions_made st;
     is_running := is_running st;
     in_menu := in_menu st;
     user_prime_input := user_prime_input st;
     predictor_globals := predictor_globals st;
     files := v |}.

(** The globals as the program initialises them, beside a given file. *)
Definition program_start (fs : file_system) : program_state :=
  {| predictions_made := 0;
     is_running := true;
     in_menu := true;
     user_prime_input := [];
     predictor_globals := globals_init;
     files := fs |}.

(** How a call of [display_menu] ends on the lines standard input holds:
    it returns, leaving the lines it did not read, or the input ends
    first, and then every further [std::getline] fails, no choice is ever
    accepted and the [while (in_menu)] loop does not end. *)
Inductive menu_result :=
| Returned (st : program_state) (cin : list cstring)
| Never_returns.

(** The statements that close the three accepting branches:
    [predictions_made = 0; in_menu = false; return;] *)
Definition accept (st : program_state) : program_state :=
  set_in_menu false (set_predictions_made 0 st).

(** The [while (in_menu)] loop of [display_menu], one line of standard
    input for each [std::getline]; every line, the last one too, is taken
    to end in a newline.  Console output is not modelled.  Every
    branch that clears [in_menu] returns at once, so the loop condition
    holds each time it is tested. *)
Fixpoint menu_loop (cin : list cstring) (st : program_state) : result menu_result :=
  match cin with
  | [] => Ok Never_returns
  | input_line :: cin =>
    match input_line with
    | [] => menu_loop cin st
    | c :: _ =>
      let choice := toupper c in
      if Ascii.eqb choice "Q" then
        Ok (Returned (set_in_menu false (set_is_running false st)) cin)
      else if Ascii.eqb choice "L" then
        match load_last_prime (files st) with
        | None => Err fuel_exhausted
        | Some loaded_prime =>
          if negb (is_empty loaded_prime) then
            Ok (Returned (accept (set_user_prime_input loaded_prime st)) cin)
          else menu_loop cin st
        end
      else if Ascii.eqb choice "M" then
        match cin with
        | [] => Ok Never_returns
        | entry :: cin =>
          let st := set_user_prime_input entry st in
          if valid_manual_entry (user_prime_input st) then
            Ok (Returned (accept st) cin)
          else menu_loop cin st
        end
      else if is_list_choice choice then
        let index := list_index choice in
        if index_in_range index then
          match nth_error PRIME_LIST (Z.to_nat index) with
          | Some item => Ok (Returned (accept (set_user_prime_input (snd item) st)) cin)
          | None => Err array_out_of_bounds
          end
        else menu_loop cin st
      else menu_loop cin st
    end
  end.

Definition display_menu (cin : list cstring) (st : program_state) : result menu_result :=
  menu_loop cin (set_in_menu true st).

(** ** The prediction loop *)

(** The body of the [while (is_running)] loop of [prediction_loop] after
    the key test; console output and the pause are not modelled.
    [predictions_made++] is written with its wrap-around. *)
Definition prediction_loop_body (st : program_state) : result program_state :=
  r <- LGO_Predict_Deterministic (user_prime_input st) PredictionMetrics_init
                                 (predictor_globals st) ;;
  let '((final_gap, next_prime_str), metrics, g) := r in
  let st := set_predictor_globals g st in
  let st := set_predictions_made (add_ll (predictions_made st) 1) st in
  let st := set_files (save_new_prime next_prime_str (files st)) st in
  Ok (set_user_prime_input next_prime_str st).

(** The loop over the answers of [GetAsyncKeyState('S') & 0x8000], one for
    each time the loop tests it: [true] when the key is down.  When the
    answers run out the state reached so far is returned. *)
Fixpoint prediction_loop_from (key_S : list bool) (st : program_state)
  : result program_state :=
  match key_S with
  | [] => Ok st
  | down :: key_S =>
    if is_running st then
      if down then Ok st
      else st' <- prediction_loop_body st ;; prediction_loop_from key_S st'
    else Ok st
  end.

Definition prediction_loop (key_S : list bool) (st : program_state)
  : result program_state :=
  if negb (is_running st) || is_empty (user_prime_input st) then Ok st
  else prediction_loop_from key_S st.

End Program.

(** ** An executable libm

    Rational arithmetic without rounding, and a logarithm interpolated
    linearly between the powers of two.  It stands in for the platform's
    libm when the model is run on an input; no theorem relies on how
    accurate it is. *)

Module Coarse.

Inductive xfp :=
| Finite (q : Q)
| Infinity (negative : bool)
| NaN.

Definition is_zero (q : Q) : bool := Qnum q =? 0.
Definition is_neg (q : Q) : bool := Qnum q <? 0.

Definition ten_pow (e : Z) : Q :=
  if 0 <=? e then inject_Z (10 ^ e) else Qinv (inject_Z (10 ^ (- e))).

Definition add (x y : xfp) : xfp :=
  match x, y with
  | Finite a, Finite b => Finite (Qred (a + b))
  | NaN, _ | _, NaN => NaN
  | Infinity s, Infinity t => if Bool.eqb s t then x else NaN
  | Infinity s, _ => x
  | _, Infinity t => y
  end.

Definition mul (x y : xfp) : xfp :=
  match x, y with
  | Finite a, Finite b => Finite (Qred (a * b))
  | NaN, _ | _, NaN => NaN
  | Infinity s, Infinity t => Infinity (xorb s t)
  | Infinity s, Finite b => if is_zero b then NaN else Infinity (xorb s (is_neg b))
  | Finite a, Infinity t => if is_zero a then NaN else Infinity (xorb (is_neg a) t)
  end.

Definition div (x y : xfp) : xfp :=
  match x, y with
  | Finite a, Finite b =>
    if is_zero b then (if is_zero a then NaN else Infinity (is_neg a))
    else Finite (Qred (a / b))
  | NaN, _ | _, NaN => NaN
  | Infinity s, Infinity t => NaN
  | Infinity s, Finite b => Infinity (xorb s (is_neg b))
  | Finite a, Infinity t => Finite 0
  end.

(** 0.693147180559945 *)
Definition ln2 : Q := 693147180559945 # 1000000000000000.

(** For [q >= 1]: [ln2 * (e + (q / 2^e - 1))] with [e = floor (log2 q)]. *)
Definition ln_ge1 (q : Q) : Q :=
  let e := Z.log2 (Qnum q / Zpos (Qden q)) in
  Qred (ln2 * (inject_Z e + (q / inject_Z (2 ^ e) - 1))).

Definition log (x : xfp) : xfp :=
  match x with
  | Finite q =>
    if is_zero q then Infinity true
    else if is_neg q then NaN
    else if Qnum q <? Zpos (Qden q) then Finite (Qopp (ln_ge1 (Qinv q)))
    else Finite (ln_ge1 q)
  | Infinity false => Infinity false
  | _ => NaN
  end.

Definition round (x : xfp) : xfp :=
  match x with
  | Finite q => Finite (inject_Z (round_half_away (Qnum q) (Zpos (Qden q))))
  | _ => x
  end.

Definition trunc (x : xfp) : option Z :=
  match x with
  | Finite q => Some (Z.quot (Qnum q) (Zpos (Qden q)))
  | _ => None
  end.

Definition gt (x y : xfp) : bool :=
  match x, y with
  | Finite a, Finite b => Qnum b * Zpos (Qden a) <? Qnum a * Zpos (Qden b)
  | Infinity false, Finite _ => true
  | Infinity false, Infinity true => true
  | Finite _, Infinity true => true
  | _, _ => false
  end.

End Coarse.

Definition CoarseLibm : Libm :=
  {| fp := Coarse.xfp;
     ld_format := LD_x87;
     fp_of_Z := fun _ z => Coarse.Finite (inject_Z z);
     fp_literal := fun _ m e => Coarse.Finite (Qred (inject_Z m * Coarse.ten_pow e));
     fp_cast := fun _ x => x;
     fp_add := fun _ => Coarse.add;
     fp_mul := fun _ => Coarse.mul;
     fp_div := fun _ => Coarse.div;
     fp_log := fun _ => Coarse.log;
     fp_round := fun _ => Coarse.round;
     fp_trunc := Coarse.trunc;
     fp_gt := Coarse.gt |}.

(** * The specification's wording

    Definitions that follow the words of the specification, in unbounded
    integer arithmetic; the theorems below compare them with the code. *)

(** Decidable form of [decimal_string]. *)
Definition decimal_stringb (s : cstring) : bool :=
  match s with
  | [] => false
  | _ => forallb is_digit s
  end.

(** The recurrence [remainder = (remainder*10 + digit) mod modulus]. *)
Definition horner_mod (m : Z) (s : cstring) : Z :=
  fold_left (fun r c => (r * 10 + digit_of c) mod m) s 0.

(** PrimeSetClass by residue modulo 12. *)
Definition class_of_residue (r : Z) : PrimeSet :=
  if r =? 1 then SET_A
  else if r =? 5 then SET_B
  else if r =? 7 then SET_C
  else if r =? 11 then SET_D
  else SET_NONE.

(** PrimeSetClass with the two literal overrides. *)
Definition spec_prime_set (s : cstring) : PrimeSet :=
  if cstring_eqb s (lit "2") then SET_A
  else if cstring_eqb s (lit "3") then SET_B
  else class_of_residue (value s mod 12).

(** A digit string of 2^31 + 1 characters that denotes the number 7:
    2^31 zeros followed by a 7. *)
Definition overlong_input : cstring :=
  repeat "0"%char (Z.to_nat 2147483648) ++ ["7"%char].

(** The base value of the gap heuristic, [round(d^2 / 50) + 2]: the
    integer nearest to the fiftieth of [d * d], a half going up, plus 2. *)
Definition spec_base (d : Z) : Z := (d * d + 25) / 50 + 2.

(** A digit string of 268435563 characters, all of them 9. *)
Definition long_nines : cstring := repeat "9"%char (Z.to_nat 268435563).

(** "Incremented by 1 if odd". *)
Definition even_up (x : Z) : Z := if Z.odd x then x + 1 else x.

(** "Force even, then clamp to minimum 2". *)
Definition spec_gap (x : Z) : Z := Z.max 2 (even_up x).

(** The predicted gap of a [d]-digit input. *)
Definition spec_predicted (d : Z) : Z := spec_gap (spec_base d + 1).

(** The law of the logarithm that the degenerate case of the PNT ratio
    rests on: the logarithm of an integer, computed in [long double] and
    stored in a [double], is positive exactly from 2 on ([log(0)] is minus
    infinity, [log(1)] is zero). *)
Definition log_sign_law (L : Libm) : Prop :=
  forall v : Z,
    0 <= v ->
    fp_gt (fp_cast Double (fp_log LongDouble (fp_of_Z LongDouble v)))
          (fp_literal Double 0 0)
    = (2 <=? v).

(** A digit string of 5000 characters: a 1 followed by 4999 zeros. *)
Definition five_thousand_digits : cstring := "1"%char :: repeat "0"%char 4999.

(** What every candidate of a prediction chain satisfies after [k] steps
    from a number below [10^20]: each step adds a gap that fits a
    [long long] and at most one digit. *)
Definition chain_invariant (k : Z) (s : cstring) : Prop :=
  decimal_string s /\
  value s < 10 ^ 20 + k * 2 ^ 63 /\
  Z.of_nat (length s) <= 20 + k.

(** A string of two or more characters that does not start with a zero. *)
Definition no_leading_zero (s : cstring) : Prop :=
  match s with
  | c :: _ :: _ => c <> "0"%char
  | _ => True
  end.


(** The entry of [ulam_delta_correction_12] each prime set selects. *)
Definition ulam_delta_of (p : PrimeSet) : Z :=
  match p with
  | SET_NONE => 0 | SET_A => -2 | SET_B => 2 | SET_C => -1 | SET_D => -6
  end.

(** The lines of a text: the pieces between its newlines. *)
Fixpoint lines_of (content : cstring) : list cstring :=
  match content with
  | [] => [[]]
  | c :: rest =>
    if Ascii.eqb c newline then [] :: lines_of rest
    else match lines_of rest with
         | line :: more => (c :: line) :: more
         | [] => [[c]]
         end
  end.

Definition nonempty_lines (content : cstring) : list cstring :=
  filter (fun line => negb (is_empty line)) (lines_of content).

(** The text of the file, empty when there is none. *)
Definition file_text (fs : file_system) : cstring :=
  match sequence_file fs with
  | Some content => content
  | None => []
  end.

(** What follows the last newline of the file. *)
Definition unterminated_tail (fs : file_system) : cstring :=
  last (lines_of (file_text fs)) [].

(** The number of times the loop finds the S key up before it finds it
    down. *)
Fixpoint polls_before_stop (key_S : list bool) : nat :=
  match key_S with
  | false :: later => S (polls_before_stop later)
  | _ => O
  end.

(** A file that holds digit strings only, each on a line of its own. *)
Definition file_well_formed (fs : file_system) : Prop :=
  unterminated_tail fs = [] /\
  Forall decimal_string (nonempty_lines (file_text fs)).

(** * Properties *)

(** ** Machine integers and characters *)

Lemma to_ll_id (z : Z) : in_ll z -> to_ll z = z.
Proof.
  unfold in_ll, to_ll, LLONG_MIN, LLONG_MAX. intros H.
  rewrite Z.mod_small; lia.
Qed.

Lemma to_ll_range (z : Z) : in_ll (to_ll z).
Proof.
  unfold in_ll, to_ll, LLONG_MIN, LLONG_MAX.
  pose proof (Z.mod_pos_bound (z + 2^63) (2^64) ltac:(lia)). lia.
Qed.

Lemma to_ll_congr (z : Z) : exists k, to_ll z = z + k * 2^64.
Proof.
  unfold to_ll. exists (- ((z + 2^63) / 2^64)).
  pose proof (Z.div_mod (z + 2^63) (2^64) ltac:(lia)). lia.
Qed.

Lemma to_int_id (z : Z) : - 2^31 <= z < 2^31 -> to_int z = z.
Proof.
  unfold to_int. intros H. rewrite Z.mod_small; lia.
Qed.

Lemma to_int_range (z : Z) : - 2^31 <= to_int z < 2^31.
Proof.
  unfold to_int.
  pose proof (Z.mod_pos_bound (z + 2^31) (2^32) ltac:(lia)). lia.
Qed.

Lemma to_int_le (z : Z) : -1 <= z -> to_int z <= z.
Proof.
  intros H. destruct (Z_lt_dec z (2^31)) as [Hlt | Hge].
  - rewrite to_int_id; lia.
  - pose proof (to_int_range z). lia.
Qed.

Lemma is_digit_range (c : ascii) :
  is_digit c = true -> 0 <= digit_of c <= 9.
Proof.
  unfold is_digit, digit_of, char_to_int, char_0. intros H.
  apply andb_true_iff in H. destruct H as [H1 H2].
  apply Z.leb_le in H1. apply Z.leb_le in H2.
  destruct (Z.ltb_spec (Z.of_nat (nat_of_ascii c)) 128); lia.
Qed.

Lemma int_to_char_digit (d : Z) :
  0 <= d <= 9 ->
  is_digit (int_to_char (d + char_0)) = true /\ digit_of (int_to_char (d + char_0)) = d.
Proof.
  intros H.
  assert (Hc : d = 0 \/ d = 1 \/ d = 2 \/ d = 3 \/ d = 4 \/ d = 5 \/ d = 6 \/ d = 7
               \/ d = 8 \/ d = 9) by lia.
  repeat (destruct Hc as [-> | Hc]; [split; reflexivity|]).
  subst d. split; reflexivity.
Qed.

(** ** The value of a digit string *)

Lemma value_app (a b : cstring) :
  value (a ++ b) = value a * 10 ^ Z.of_nat (length b) + value b.
Proof.
  induction a as [| c a IH]; simpl value.
  - lia.
  - rewrite IH, length_app, Nat2Z.inj_add, Z.pow_add_r by lia. ring.
Qed.

Lemma value_cons_eq (c : ascii) (r : cstring) :
  value (c :: r) = digit_of c * 10 ^ Z.of_nat (length r) + value r.
Proof. reflexivity. Qed.

Lemma value_snoc (a : cstring) (c : ascii) :
  value (a ++ [c]) = value a * 10 + digit_of c.
Proof.
  rewrite value_app. simpl. lia.
Qed.

Lemma value_bounds (s : cstring) :
  all_digits s -> 0 <= value s < 10 ^ Z.of_nat (length s).
Proof.
  induction 1 as [| c r Hc Hr IH].
  - simpl. lia.
  - apply is_digit_range in Hc.
    cbn [value length]. rewrite Nat2Z.inj_succ, Z.pow_succ_r by lia.
    pose proof (Z.pow_pos_nonneg 10 (Z.of_nat (length r)) ltac:(lia) ltac:(lia)).
    nia.
Qed.

Lemma all_digits_app (a b : cstring) :
  all_digits (a ++ b) <-> all_digits a /\ all_digits b.
Proof. apply Forall_app. Qed.

Lemma all_digits_firstn (n : nat) (s : cstring) :
  all_digits s -> all_digits (firstn n s).
Proof.
  intros H. rewrite <- (firstn_skipn n s) in H.
  apply all_digits_app in H. tauto.
Qed.

(** ** Remainders *)

Lemma mod_loop_horner (m : Z) (s : cstring) (r : Z) :
  0 < m <= 12 -> all_digits s -> 0 <= r < m ->
  mod_loop m s r = fold_left (fun r c => (r * 10 + digit_of c) mod m) s r
  /\ 0 <= mod_loop m s r < m.
Proof.
  intros Hm Hs. revert r.
  induction Hs as [| c s Hc Hs IH]; intros r Hr.
  - simpl. split; [reflexivity | lia].
  - apply is_digit_range in Hc. cbn [mod_loop fold_left].
    assert (Hstep : Z.rem (add_ll (to_ll (r * 10)) (digit_of c)) m
                    = (r * 10 + digit_of c) mod m).
    { unfold add_ll.
      rewrite (to_ll_id (r * 10)) by (unfold in_ll, LLONG_MIN, LLONG_MAX; lia).
      rewrite to_ll_id by (unfold in_ll, LLONG_MIN, LLONG_MAX; lia).
      apply Z.rem_mod_nonneg; lia. }
    rewrite Hstep.
    apply (IH ((r * 10 + digit_of c) mod m)).
    apply Z.mod_pos_bound. lia.
Qed.

Lemma fold_horner_value (m : Z) (s : cstring) (r : Z) :
  0 < m ->
  fold_left (fun r c => (r * 10 + digit_of c) mod m) s (r mod m)
  = (r * 10 ^ Z.of_nat (length s) + value s) mod m.
Proof.
  intros Hm. revert r.
  induction s as [| c s IH]; intros r.
  - simpl. f_equal. lia.
  - cbn [fold_left value length].
    rewrite IH, Nat2Z.inj_succ, Z.pow_succ_r by lia.
    rewrite (Z.mod_eq r m) by lia.
    set (p := 10 ^ Z.of_nat (length s)).
    replace ((((r - m * (r / m)) * 10 + digit_of c) * p) + value s)
      with ((r * (10 * p) + (digit_of c * p + value s)) + (- (r / m) * 10 * p) * m) by ring.
    apply Z_mod_plus_full.
Qed.

Lemma mod_loop_value (m : Z) (s : cstring) :
  0 < m <= 12 -> all_digits s -> mod_loop m s 0 = value s mod m.
Proof.
  intros Hm Hs.
  destruct (mod_loop_horner m s 0 Hm Hs ltac:(lia)) as [-> _].
  change 0 with (0 mod m) at 1. 
  rewrite fold_horner_value by lia. f_equal.
Qed.

Lemma decimal_stringb_ok (s : cstring) :
  decimal_stringb s = true -> decimal_string s.
Proof.
  unfold decimal_string, all_digits. destruct s as [| c r]; [discriminate |].
  intros H. split; [discriminate |].
  apply Forall_forall. apply forallb_forall. exact H.
Qed.

(** C6. For every non-empty digit string, [calculate_mod_12] and
    [calculate_mod_7] return the true remainder of the denoted number
    modulo 12 and modulo 7, and they are the Horner recurrence
    [remainder = (remainder * 10 + digit) mod modulus] run over the digits
    in order; the length of the string is not bounded. *)
Theorem calculate_mod_correct (s : cstring) :
  decimal_string s ->
  calculate_mod_12 s = value s mod 12 /\
  calculate_mod_7 s = value s mod 7 /\
  calculate_mod_12 s = horner_mod 12 s /\
  calculate_mod_7 s = horner_mod 7 s.
Proof.
  intros [_ Hs]. unfold calculate_mod_12, calculate_mod_7, horner_mod.
  repeat split.
  - apply mod_loop_value; [lia | exact Hs].
  - apply mod_loop_value; [lia | exact Hs].
  - apply mod_loop_horner; [lia | exact Hs | lia].
  - apply mod_loop_horner; [lia | exact Hs | lia].
Qed.

Lemma calculate_mod_correct_witness :
  let s := lit "31415926535897932384626433832795028841971693993751" in
  decimal_string s /\
  calculate_mod_12 s = value s mod 12 /\
  calculate_mod_7 s = value s mod 7 /\
  calculate_mod_12 s = horner_mod 12 s /\
  calculate_mod_7 s = horner_mod 7 s.
Proof.
  intros s.
  assert (H : decimal_string s) by (apply decimal_stringb_ok; reflexivity).
  split; [exact H | exact (calculate_mod_correct s H)].
Defined.

(** ** Prime sets *)

Lemma cstring_eqb_eq (a b : cstring) : cstring_eqb a b = true <-> a = b.
Proof.
  unfold cstring_eqb. destruct (list_eq_dec ascii_dec a b); split; congruence.
Qed.

Lemma cstring_eqb_neq (a b : cstring) : a <> b -> cstring_eqb a b = false.
Proof.
  unfold cstring_eqb. destruct (list_eq_dec ascii_dec a b); congruence.
Qed.

Lemma determine_prime_set_spec (s : cstring) :
  decimal_string s -> determine_prime_set s = spec_prime_set s.
Proof.
  intros Hs.
  assert (H12 : calculate_mod_12 s = value s mod 12)
    by (apply mod_loop_value; [lia | exact (proj2 Hs)]).
  destruct Hs as [Hne _].
  unfold spec_prime_set.
  destruct (cstring_eqb s (lit "2")) eqn:E2.
  { apply cstring_eqb_eq in E2. subst s. reflexivity. }
  destruct (cstring_eqb s (lit "3")) eqn:E3.
  { apply cstring_eqb_eq in E3. subst s. reflexivity. }
  unfold determine_prime_set, class_of_residue.
  destruct s as [| c r]; [congruence |].
  rewrite E2, E3, H12. reflexivity.
Qed.

(** C5. [determine_prime_set] classifies a non-empty digit string by its
    value modulo 12 (1: SET_A, 5: SET_B, 7: SET_C, 11: SET_D, anything
    else: SET_NONE) except for the literals "2" (SET_A) and "3" (SET_B);
    so two such strings with equal remainders, neither of them one of the
    two literals, are classified alike. *)
Theorem determine_prime_set_by_residue (s t : cstring) :
  decimal_string s -> decimal_string t ->
  determine_prime_set s = spec_prime_set s /\
  determine_prime_set (lit "2") = SET_A /\
  determine_prime_set (lit "3") = SET_B /\
  (s <> lit "2" -> s <> lit "3" ->
   determine_prime_set s = class_of_residue (value s mod 12)) /\
  (value s mod 12 = value t mod 12 ->
   s <> lit "2" -> s <> lit "3" -> t <> lit "2" -> t <> lit "3" ->
   determine_prime_set s = determine_prime_set t).
Proof.
  intros Hs Ht.
  assert (Hclass : forall u, decimal_string u -> u <> lit "2" -> u <> lit "3" ->
                             determine_prime_set u = class_of_residue (value u mod 12)).
  { intros u Hu H2 H3. rewrite (determine_prime_set_spec u Hu).
    unfold spec_prime_set.
    rewrite (cstring_eqb_neq _ _ H2), (cstring_eqb_neq _ _ H3). reflexivity. }
  split; [apply determine_prime_set_spec; exact Hs |].
  split; [reflexivity |].
  split; [reflexivity |].
  split; [apply Hclass; exact Hs |].
  intros Heq Hs2 Hs3 Ht2 Ht3.
  rewrite (Hclass s Hs Hs2 Hs3), (Hclass t Ht Ht2 Ht3), Heq. reflexivity.
Qed.

Lemma determine_prime_set_by_residue_witness :
  let s := lit "9999999967" in
  let t := lit "0000019" in
  decimal_string s /\ decimal_string t /\
  value s mod 12 = value t mod 12 /\
  determine_prime_set s = SET_C /\
  determine_prime_set s = determine_prime_set t.
Proof.
  intros s t.
  assert (Hs : decimal_string s) by (apply decimal_stringb_ok; reflexivity).
  assert (Ht : decimal_string t) by (apply decimal_stringb_ok; reflexivity).
  destruct (determine_prime_set_by_residue s t Hs Ht) as (_ & _ & _ & Hc & Heq).
  split; [exact Hs |]. split; [exact Ht |]. split; [reflexivity |].
  split.
  - rewrite Hc; [reflexivity | discriminate | discriminate].
  - apply Heq; [reflexivity | discriminate | discriminate | discriminate | discriminate].
Defined.

(** ** Big-decimal addition *)

Lemma decimal_digits_spec (fuel : nat) :
  forall (n : Z) (acc : cstring),
    0 <= n < 10 ^ Z.of_nat fuel -> all_digits acc ->
    all_digits (decimal_digits fuel n acc) /\
    value (decimal_digits fuel n acc) = n * 10 ^ Z.of_nat (length acc) + value acc /\
    (length acc <= length (decimal_digits fuel n acc) <= length acc + fuel)%nat /\
    (fuel <> O -> length acc < length (decimal_digits fuel n acc))%nat.
Proof.
  induction fuel as [| fuel IH]; intros n acc Hn Hacc.
  - simpl in *. assert (n = 0) by lia. subst n.
    repeat split; try assumption; try lia. 
  - cbn [decimal_digits].
    pose proof (Z.mod_pos_bound n 10 ltac:(lia)) as Hm.
    destruct (int_to_char_digit (n mod 10) ltac:(lia)) as [Hd Hv].
    rewrite (Z.add_comm char_0).
    set (c := int_to_char (n mod 10 + char_0)) in *.
    assert (Hacc' : all_digits (c :: acc)) by (constructor; assumption).
    destruct (Z.ltb_spec n 10) as [Hlt | Hge].
    + rewrite Z.mod_small in Hv by lia.
      repeat split; try assumption; cbn [value length]; try lia.
    + rewrite Nat2Z.inj_succ, Z.pow_succ_r in Hn by lia.
      assert (Hq : 0 <= n / 10 < 10 ^ Z.of_nat fuel).
      { split; [apply Z.div_pos; lia | apply Z.div_lt_upper_bound; lia]. }
      destruct (IH (n / 10) (c :: acc) Hq Hacc') as (H1 & H2 & H3 & H4).
      repeat split; try assumption; cbn [length] in *; try lia.
      rewrite H2. cbn [value length]. rewrite Hv.
      rewrite Nat2Z.inj_succ, Z.pow_succ_r by lia.
      pose proof (Z.div_mod n 10 ltac:(lia)). 
      set (p := 10 ^ Z.of_nat (length acc)) in *. nia.
Qed.

Lemma to_string_spec (k : Z) :
  0 <= k <= LLONG_MAX ->
  all_digits (to_string k) /\ value (to_string k) = k /\
  (1 <= length (to_string k) <= 20)%nat.
Proof.
  intros Hk. unfold to_string, LLONG_MAX in *.
  destruct (Z.ltb_spec k 0); [lia |].
  destruct (decimal_digits_spec 20 k [] ltac:(simpl; lia) ltac:(constructor))
    as (H1 & H2 & H3 & H4).
  split; [exact H1 |]. split.
  - rewrite H2. simpl. lia.
  - specialize (H4 ltac:(discriminate)). cbn [length] in H3, H4. lia.
Qed.

Lemma firstn_snoc_nth (l : cstring) (n : nat) :
  (n < length l)%nat -> firstn (S n) l = firstn n l ++ [nth n l zero].
Proof.
  revert n. induction l as [| c l IH]; intros n Hn; simpl in Hn; [lia |].
  destruct n as [| n]; [reflexivity |].
  cbn [firstn nth app]. f_equal.
  apply IH. lia.
Qed.

(** What one round of the loop takes from one of the two operands. *)
Lemma consume_digit (l : cstring) (i : Z) :
  all_digits l -> i < Z.of_nat (length l) ->
  let a := if 0 <=? i then digit_of (char_at l i) else 0 in
  let i' := if 0 <=? i then i - 1 else i in
  value (firstn (Z.to_nat (i + 1)) l) = value (firstn (Z.to_nat (i' + 1)) l) * 10 + a /\
  0 <= a <= 9 /\
  i' < Z.of_nat (length l) /\
  (0 <= i -> i' = i - 1) /\ (i < 0 -> i' = i /\ a = 0).
Proof.
  intros Hl Hi. cbv zeta.
  destruct (Z.leb_spec 0 i) as [Hpos | Hneg].
  - replace (Z.to_nat (i + 1)) with (S (Z.to_nat i)) by lia.
    replace (i - 1 + 1) with i by lia.
    rewrite firstn_snoc_nth by lia. rewrite value_snoc.
    unfold char_at.
    assert (Hd : is_digit (nth (Z.to_nat i) l zero) = true).
    { unfold all_digits in Hl. rewrite Forall_forall in Hl.
      apply Hl. apply nth_In. lia. }
    apply is_digit_range in Hd. repeat split; lia.
  - replace (Z.to_nat (i + 1)) with O by lia. simpl. repeat split; lia.
Qed.

Lemma add_loop_spec (large small : cstring) :
  all_digits large -> all_digits small ->
  forall (fuel : nat) (i j carry : Z) (result : cstring),
    i < Z.of_nat (length large) -> j < Z.of_nat (length small) ->
    0 <= carry <= 1 -> all_digits result ->
    (let n := Z.of_nat (Z.to_nat (i + 1)) + Z.of_nat (Z.to_nat (j + 1)) in
     (0 < n -> Z.max (i + 1) (j + 1) + 2 <= Z.of_nat fuel) /\
     (n = 0 -> carry + 1 <= Z.of_nat fuel)) ->
    exists r,
      add_loop fuel large small i j carry result = Some r /\
      all_digits r /\
      value r = (value (firstn (Z.to_nat (i + 1)) large)
                 + value (firstn (Z.to_nat (j + 1)) small) + carry)
                * 10 ^ Z.of_nat (length result) + value result /\
      Z.of_nat (length result) + Z.max 0 (Z.max (i + 1) (j + 1)) <= Z.of_nat (length r) /\
      Z.of_nat (length r) <= Z.of_nat (length result) + Z.max 0 (Z.max (i + 1) (j + 1))
                             + (if Z.max 0 (Z.max (i + 1) (j + 1)) =? 0 then carry else 1).
Proof.
  intros Hlarge Hsmall.
  induction fuel as [| fuel IH]; intros i j carry result Hi Hj Hc Hres Hfuel.
  { cbv zeta in Hfuel. exfalso. lia. }
  cbn [add_loop].
  destruct ((0 <=? i) || (0 <=? j) || negb (carry =? 0)) eqn:Hcond.
  - pose proof (consume_digit large i Hlarge Hi) as Hx.
    pose proof (consume_digit small j Hsmall Hj) as Hy.
    cbv zeta in Hx, Hy.
    set (a := if 0 <=? i then digit_of (char_at large i) else 0) in *.
    set (b := if 0 <=? j then digit_of (char_at small j) else 0) in *.
    set (i' := if 0 <=? i then i - 1 else i) in *.
    set (j' := if 0 <=? j then j - 1 else j) in *.
    destruct Hx as (Hx & Ha & Hi' & Hipos & Hineg).
    destruct Hy as (Hy & Hb & Hj' & Hjpos & Hjneg).
    replace (if 0 <=? i then carry + digit_of (char_at large i) else carry)
      with (carry + a) by (subst a; destruct (0 <=? i); lia).
    replace (if 0 <=? j then carry + a + digit_of (char_at small j) else carry + a)
      with (carry + a + b) by (subst b; destruct (0 <=? j); lia).
    set (sum := carry + a + b).
    assert (Hsum : 0 <= sum <= 19) by (subst sum; lia).
    rewrite Z.quot_div_nonneg, Z.rem_mod_nonneg by lia.
    pose proof (Z.div_mod sum 10 ltac:(lia)) as Hdm.
    pose proof (Z.mod_pos_bound sum 10 ltac:(lia)) as Hmb.
    assert (Hq : 0 <= sum / 10 <= 1) by lia.
    destruct (int_to_char_digit (sum mod 10) ltac:(lia)) as [Hd Hv].
    set (c := int_to_char (sum mod 10 + char_0)) in *.
    assert (Hnz : 0 <= i \/ 0 <= j \/ carry = 1).
    { apply orb_true_iff in Hcond. destruct Hcond as [Hcond | Hcond].
      - apply orb_true_iff in Hcond. destruct Hcond as [H | H]; apply Z.leb_le in H; lia.
      - apply negb_true_iff in Hcond. apply Z.eqb_neq in Hcond. lia. }
    destruct (IH i' j' (sum / 10) (c :: result) Hi' Hj' Hq
                 ltac:(constructor; assumption)) as (r & Hr & Hdig & Hval & Hlo & Hhi).
    { cbv zeta in Hfuel |- *. split; intros Hn.
      - destruct Hfuel as [Hf _]. lia.
      - destruct Hfuel as [Hf1 Hf2]. lia. }
    exists r. split; [exact Hr |]. split; [exact Hdig |].
    cbn [value length] in Hval, Hlo, Hhi. rewrite Hv in Hval.
    rewrite Nat2Z.inj_succ in Hlo, Hhi.
    split; [| split; [lia |]].
    2:{ destruct (Z.eqb_spec (Z.max 0 (Z.max (i' + 1) (j' + 1))) 0);
        destruct (Z.eqb_spec (Z.max 0 (Z.max (i + 1) (j + 1))) 0); lia. }
    rewrite Hval, Hx, Hy, Nat2Z.inj_succ, Z.pow_succ_r by lia.
    set (p := 10 ^ Z.of_nat (length result)).
    set (A := value (firstn (Z.to_nat (i' + 1)) large)).
    set (B := value (firstn (Z.to_nat (j' + 1)) small)).
    replace (A * 10 + a + (B * 10 + b) + carry) with ((A + B) * 10 + sum) by (subst sum; ring).
    set (q := sum / 10) in *. set (m := sum mod 10) in *.
    rewrite Hdm. ring.
  - apply orb_false_iff in Hcond. destruct Hcond as [Hcond Hcar].
    apply orb_false_iff in Hcond. destruct Hcond as [Hin Hjn].
    apply Z.leb_gt in Hin. apply Z.leb_gt in Hjn.
    apply negb_false_iff in Hcar. apply Z.eqb_eq in Hcar. subst carry.
    exists result. split; [reflexivity |]. split; [exact Hres |].
    replace (Z.to_nat (i + 1)) with O by lia.
    replace (Z.to_nat (j + 1)) with O by lia.
    simpl firstn. simpl value.
    replace (Z.max 0 (Z.max (i + 1) (j + 1))) with 0 by lia.
    simpl. repeat split; lia.
Qed.

Lemma last_index_lt (s : cstring) : last_index s < Z.of_nat (length s).
Proof.
  unfold last_index. pose proof (to_int_le (Z.of_nat (length s) - 1)). lia.
Qed.

Lemma last_index_short (s : cstring) :
  Z.of_nat (length s) <= INT_MAX + 1 -> last_index s = Z.of_nat (length s) - 1.
Proof.
  unfold last_index, INT_MAX. intros H. apply to_int_id. lia.
Qed.

(** What [add_strings] computes on every digit string: it always returns,
    and the sum it returns is that of [k] and of the part of [s] that the
    [int] index [i] reaches. *)
Lemma add_strings_spec (s : cstring) (k : Z) :
  all_digits s -> 0 <= k <= LLONG_MAX ->
  exists r,
    add_strings s k = Some r /\ all_digits r /\
    value r = value (firstn (Z.to_nat (last_index s + 1)) s) + k /\
    Z.max 0 (last_index s + 1) <= Z.of_nat (length r) /\
    Z.of_nat (length r) <= Z.max (Z.of_nat (length s)) 20 + 1.
Proof.
  intros Hs Hk.
  destruct (to_string_spec k Hk) as (Hdig & Hval & Hlen).
  unfold add_strings.
  pose proof (last_index_lt s) as Hi.
  assert (Hj : last_index (to_string k) = Z.of_nat (length (to_string k)) - 1).
  { apply last_index_short. unfold INT_MAX. lia. }
  destruct (add_loop_spec s (to_string k) Hs Hdig
              (add_strings_fuel s (to_string k))
              (last_index s) (last_index (to_string k)) 0 [])
    as (r & Hr & Hrd & Hrv & Hlo & Hhi).
  - exact Hi.
  - lia.
  - lia.
  - constructor.
  - unfold add_strings_fuel. cbv zeta. lia.
  - exists r. split; [exact Hr |]. split; [exact Hrd |].
    rewrite Hj in Hrv, Hlo, Hhi.
    replace (Z.to_nat (Z.of_nat (length (to_string k)) - 1 + 1))
      with (length (to_string k)) in Hrv by lia.
    rewrite firstn_all, Hval in Hrv.
    simpl length in Hrv, Hlo, Hhi. simpl value in Hrv.
    split; [lia |]. split; [lia |].
    destruct (Z.max 0 (Z.max (last_index s + 1) (Z.of_nat (length (to_string k)) - 1 + 1)) =? 0);
      lia.
Qed.

(** Exact big-decimal addition for every string whose last index fits
    an [int]. *)
Lemma add_strings_correct (s : cstring) (k : Z) :
  decimal_string s -> 0 <= k <= LLONG_MAX ->
  Z.of_nat (length s) <= INT_MAX + 1 ->
  exists r,
    add_strings s k = Some r /\ decimal_string r /\
    value r = value s + k /\
    (length s <= length r <= Nat.max (length s) 20 + 1)%nat.
Proof.
  intros [Hne Hs] Hk Hlen.
  destruct (add_strings_spec s k Hs Hk) as (r & Hr & Hrd & Hrv & Hlo & Hhi).
  rewrite (last_index_short s Hlen) in Hrv, Hlo.
  replace (Z.to_nat (Z.of_nat (length s) - 1 + 1)) with (length s) in Hrv by lia.
  rewrite firstn_all in Hrv.
  exists r. split; [exact Hr |].
  assert (Hpos : (0 < length s)%nat) by (destruct s; [congruence | simpl; lia]).
  repeat split; try assumption; try lia.
  intros ->. simpl in Hlo. lia.
Qed.

(** When the index [i] starts below zero the loop copies the digits of
    the small operand and never looks at the large one. *)
Lemma add_loop_five (large : cstring) (fuel : nat) (i : Z) :
  i < 0 ->
  add_loop (S (S fuel)) large (lit "5") i 0 0 [] = Some (lit "5").
Proof.
  intros Hi.
  assert (E : (0 <=? i) = false) by (apply Z.leb_gt; exact Hi).
  cbn [add_loop]. rewrite !E. reflexivity.
Qed.

Lemma all_digits_repeat_zero (n : nat) : all_digits (repeat "0"%char n).
Proof.
  apply Forall_forall. intros c Hc. apply repeat_spec in Hc. subst c. reflexivity.
Qed.

(** On any digit string of 2^31 + 1 characters the index [i] starts at
    -2^31 and the sum is the small operand alone. *)
Lemma add_strings_wrapped_index (s : cstring) :
  Z.of_nat (length s) = 2147483649 ->
  add_strings s 5 = Some (lit "5").
Proof.
  intros Hlen. unfold add_strings.
  change (to_string 5) with (lit "5").
  assert (Hi : last_index s = -2147483648).
  { unfold last_index. rewrite Hlen. reflexivity. }
  rewrite Hi. change (last_index (lit "5")) with 0.
  unfold add_strings_fuel.
  replace (length s + length (lit "5") + 4)%nat
    with (S (S (length s + length (lit "5") + 2)))%nat by lia.
  apply add_loop_five. lia.
Qed.

Lemma value_repeat_zero (n : nat) : value (repeat "0"%char n) = 0.
Proof.
  induction n as [| n IH]; [reflexivity |].
  cbn [repeat]. rewrite value_cons_eq, IH. change (digit_of "0") with 0. lia.
Qed.

Lemma overlong_input_facts :
  decimal_string overlong_input /\
  Z.of_nat (length overlong_input) = 2147483649 /\
  value overlong_input = 7.
Proof.
  unfold overlong_input. split; [split |]; [| | split].
  - intros H. apply app_eq_nil in H. destruct H as [_ H]. discriminate H.
  - apply all_digits_app. split; [apply all_digits_repeat_zero |].
    constructor; [reflexivity | constructor].
  - rewrite length_app, repeat_length, Nat2Z.inj_add, Z2Nat.id by discriminate.
    reflexivity.
  - rewrite value_snoc, value_repeat_zero. reflexivity.
Qed.

(** C1, where the code departs from it.  On a digit string of 2^31 + 1
    characters (here 2^31 zeros and a 7, the number 7) the index
    [int i = large_num_str.length() - 1] wraps to -2^31, the loop never
    reads the string, and [add_strings] returns the digits of the small
    operand alone: "5" for 7 + 5, shorter than the input and not the
    sum. *)
Theorem add_strings_overlong_input :
  decimal_string overlong_input /\
  Z.of_nat (length overlong_input) = INT_MAX + 2 /\
  value overlong_input = 7 /\
  add_strings overlong_input 5 = Some (lit "5") /\
  Z.of_nat (length (lit "5")) < Z.of_nat (length overlong_input) /\
  value (lit "5") <> value overlong_input + 5.
Proof.
  destruct overlong_input_facts as (Hs & Hlen & Hval).
  split; [exact Hs |]. split; [exact Hlen |]. split; [exact Hval |].
  split; [apply add_strings_wrapped_index; exact Hlen |].
  split.
  - rewrite Hlen. reflexivity.
  - rewrite Hval. discriminate.
Qed.

(** ** The base gap *)

Lemma to_ll_add_l (a b : Z) : to_ll (to_ll a + b) = to_ll (a + b).
Proof.
  destruct (to_ll_congr a) as [k Hk]. rewrite Hk. unfold to_ll.
  replace (a + k * 2 ^ 64 + b + 2 ^ 63) with (a + b + 2 ^ 63 + k * 2 ^ 64) by ring.
  rewrite Z_mod_plus_full. reflexivity.
Qed.

Lemma add_ll_assoc_sum (a b c : Z) : add_ll (add_ll a b) c = to_ll (a + b + c).
Proof. unfold add_ll. apply to_ll_add_l. Qed.

Lemma rem_2_odd (x : Z) : negb (Z.rem x 2 =? 0) = Z.odd x.
Proof.
  assert (Hpos : forall y, 0 <= y -> negb (Z.rem y 2 =? 0) = Z.odd y).
  { intros y Hy. rewrite Z.rem_mod_nonneg, Zmod_odd by lia.
    destruct (Z.odd y); reflexivity. }
  destruct (Z_le_dec 0 x) as [Hx | Hx]; [apply Hpos; exact Hx |].
  replace x with (- (- x)) by lia.
  rewrite Z.rem_opp_l', Z.odd_opp, <- (Hpos (- x)) by lia.
  destruct (Z.eqb_spec (Z.rem (- x) 2) 0) as [E | E];
    destruct (Z.eqb_spec (- Z.rem (- x) 2) 0) as [E' | E']; try reflexivity; lia.
Qed.

Lemma even_up_even (x : Z) : Z.even (even_up x) = true.
Proof.
  unfold even_up. destruct (Z.odd x) eqn:Hodd.
  - rewrite Z.even_add, <- Z.negb_odd, Hodd. reflexivity.
  - rewrite <- Z.negb_odd, Hodd. reflexivity.
Qed.

Lemma even_up_bounds (x : Z) : x <= even_up x <= x + 1.
Proof. unfold even_up. destruct (Z.odd x); lia. Qed.

Lemma spec_gap_even (x : Z) : Z.even (spec_gap x) = true /\ 2 <= spec_gap x.
Proof.
  unfold spec_gap. split; [| lia].
  destruct (Z.max_spec 2 (even_up x)) as [[_ ->] | [_ ->]];
    [apply even_up_even | reflexivity].
Qed.

(** The two closing statements in [long long] arithmetic: what they leave
    is even and at least 2 whatever the gap was, and it is the gap forced
    even and clamped unless the increment overflows. *)
Lemma even_at_least_2_spec (x : Z) :
  in_ll x ->
  Z.even (even_at_least_2 x) = true /\
  2 <= even_at_least_2 x <= LLONG_MAX /\
  (x < LLONG_MAX -> even_at_least_2 x = spec_gap x).
Proof.
  unfold in_ll, LLONG_MIN, LLONG_MAX. intros Hx.
  unfold even_at_least_2. rewrite rem_2_odd.
  destruct (Z_lt_dec x 9223372036854775807) as [Hlt | Hmax].
  - assert (Hy : (if Z.odd x then add_ll x 1 else x) = even_up x).
    { unfold even_up, add_ll. destruct (Z.odd x); [| reflexivity].
      apply to_ll_id. unfold in_ll, LLONG_MIN, LLONG_MAX. lia. }
    rewrite Hy. pose proof (even_up_bounds x) as Hb.
    pose proof (even_up_even x) as He.
    assert (Hg : (if even_up x <? 2 then 2 else even_up x) = spec_gap x).
    { unfold spec_gap. destruct (Z.ltb_spec (even_up x) 2); lia. }
    rewrite Hg. pose proof (spec_gap_even x) as [H1 H2].
    split; [exact H1 |]. split; [| intros _; reflexivity].
    unfold spec_gap in *. lia.
  - assert (x = 9223372036854775807) by lia. subst x.
    split; [reflexivity |]. split; [vm_compute; split; discriminate | lia].
Qed.

(** ** Rounding to the format of [long double] *)

Lemma round_nearest_even_nearest (a b : Z) :
  0 <= a -> 0 < b ->
  0 <= round_nearest_even a b /\
  - b <= 2 * (round_nearest_even a b * b - a) <= b.
Proof.
  intros Ha Hb. unfold round_nearest_even.
  pose proof (Z.div_mod a b ltac:(lia)) as Hdm.
  pose proof (Z.mod_pos_bound a b Hb) as Hr.
  assert (Hq : 0 <= a / b) by (apply Z.div_pos; lia).
  set (q := a / b) in *. set (r := a mod b) in *.
  destruct (Z.ltb_spec (2 * r) b); [split; nia |].
  destruct (Z.ltb_spec b (2 * r)); [split; nia |].
  destruct (Z.even q); split; nia.
Qed.

Lemma round_nearest_even_exact (n b : Z) :
  0 < b -> round_nearest_even (n * b) b = n.
Proof.
  intros Hb. unfold round_nearest_even.
  rewrite Z.div_mul, Z.mod_mul by lia.
  destruct (Z.ltb_spec (2 * 0) b); [reflexivity | lia].
Qed.

(** An integer below [2 ^ p] is a floating-point number of precision [p]. *)
Lemma ld_round_integer (p n c : Z) :
  0 < p -> 0 <= n < 2 ^ p -> 0 < c ->
  0 < snd (ld_round p (n * c) c) /\
  fst (ld_round p (n * c) c) = n * snd (ld_round p (n * c) c).
Proof.
  intros Hp Hn Hc. unfold ld_round.
  destruct (Z.eqb_spec (n * c) 0) as [H0 | H0].
  { cbn [fst snd]. split; [lia |]. nia. }
  assert (Hpos : 0 < n) by nia.
  destruct (Z.ltb_spec (n * c) 0); [nia |].
  unfold ld_round_positive, floor_log2.
  destruct (Z.leb_spec c (n * c)); [| nia].
  rewrite Z.div_mul by lia.
  assert (Hlog : Z.log2 n < p) by (apply Z.log2_lt_pow2; lia).
  pose proof (Z.log2_nonneg n) as Hlog0.
  destruct (Z.leb_spec 0 (Z.log2 n + 1 - p)) as [Hu | Hu].
  - assert (Hz : Z.log2 n + 1 - p = 0) by lia. rewrite Hz.
    change (2 ^ 0) with 1. rewrite !Z.mul_1_r, round_nearest_even_exact by lia.
    cbn [fst snd]. lia.
  - cbn [fst snd].
    assert (HT : 0 < 2 ^ (- (Z.log2 n + 1 - p))) by (apply Z.pow_pos_nonneg; lia).
    split; [exact HT |].
    replace (n * c * 2 ^ (- (Z.log2 n + 1 - p)))
      with (n * 2 ^ (- (Z.log2 n + 1 - p)) * c) by ring.
    apply round_nearest_even_exact; lia.
Qed.

(** Nearest to [n * t / 50] and then nearest to a [t]-th of that, for a
    [t] that is even and above 25, is nearest to [n / 50]. *)
Lemma round_twice (n t m : Z) :
  0 <= n -> 0 <= m -> 32 <= t -> Z.even t = true ->
  -25 <= 50 * m - n * t <= 25 ->
  round_half_away m t = (n + 25) / 50.
Proof.
  intros Hn Hm Ht Heven Hnear. unfold round_half_away.
  destruct (Z.leb_spec 0 m); [| lia].
  pose proof (Z.div_mod (n + 25) 50 ltac:(lia)) as Hdm.
  pose proof (Z.mod_pos_bound (n + 25) 50 ltac:(lia)) as Hr.
  set (X := (n + 25) / 50) in *.
  assert (HX : 0 <= X) by (apply Z.div_pos; lia).
  apply Zeven_bool_iff in Heven. apply Zeven_ex in Heven. destruct Heven as [h Hh].
  symmetry. apply (Z.div_unique_pos (2 * m + t) (2 * t) X (2 * m + t - 2 * t * X)); [| lia].
  assert (Hlo : (50 * X - 25) * t <= n * t) by nia.
  assert (Hhi : n * t <= (50 * X + 24) * t) by nia.
  subst t. split; nia.
Qed.

Lemma ld_round_fiftieth (p n c : Z) :
  6 <= p -> 0 <= n < 2 ^ p -> 0 < c ->
  round_half_away (fst (ld_round p (n * c) (c * 50))) (snd (ld_round p (n * c) (c * 50)))
  = (n + 25) / 50.
Proof.
  intros Hp Hn Hc. unfold ld_round.
  destruct (Z.eqb_spec (n * c) 0) as [H0 | H0].
  { assert (n = 0) by nia. subst n. reflexivity. }
  assert (Hpos : 0 < n) by nia.
  destruct (Z.ltb_spec (n * c) 0); [nia |].
  unfold ld_round_positive.
  assert (Hulp : floor_log2 (n * c) (c * 50) + 1 - p <= -5).
  { unfold floor_log2. destruct (Z.leb_spec (c * 50) (n * c)) as [Hge | Hlt].
    - assert (Hq : (n * c) / (c * 50) = n / 50).
      { rewrite (Z.mul_comm c 50). apply Z.div_mul_cancel_r; lia. }
      rewrite Hq.
      assert (H1 : 0 < n / 50) by (apply Z.div_str_pos; nia).
      assert (H2 : n / 50 < 2 ^ (p - 5)).
      { apply Z.div_lt_upper_bound; [lia |].
        replace p with (5 + (p - 5)) in Hn by lia.
        rewrite Z.pow_add_r in Hn by lia. change (2 ^ 5) with 32 in Hn.
        assert (0 < 2 ^ (p - 5)) by (apply Z.pow_pos_nonneg; lia). lia. }
      apply Z.log2_lt_pow2 in H2; lia.
    - pose proof (Z.log2_up_nonneg ((c * 50 + n * c - 1) / (n * c))). lia. }
  set (ulp := floor_log2 (n * c) (c * 50) + 1 - p) in *.
  destruct (Z.leb_spec 0 ulp); [lia |].
  cbn [fst snd].
  set (t := 2 ^ (- ulp)).
  assert (Ht : t = 32 * 2 ^ (- ulp - 5)).
  { subst t. replace (- ulp) with (5 + (- ulp - 5)) at 1 by lia.
    rewrite Z.pow_add_r by lia. reflexivity. }
  assert (Hpow : 0 < 2 ^ (- ulp - 5)) by (apply Z.pow_pos_nonneg; lia).
  destruct (round_nearest_even_nearest (n * c * t) (c * 50) ltac:(nia) ltac:(lia))
    as [Hm0 Hnear].
  set (m := round_nearest_even (n * c * t) (c * 50)) in *.
  apply round_twice; [lia | exact Hm0 | lia | |].
  - rewrite Ht. replace (32 * 2 ^ (- ulp - 5)) with (2 * (16 * 2 ^ (- ulp - 5))) by ring.
    rewrite Z.even_mul. reflexivity.
  - assert (Heq : m * (c * 50) - n * c * t = c * (50 * m - n * t)) by ring.
    rewrite Heq in Hnear. split; nia.
Qed.

Lemma base_gap_exact (f : long_double_format) (d : Z) :
  0 <= d -> d * d < 2 ^ ld_precision f ->
  base_gap_of f d = spec_base d /\ 2 <= spec_base d <= LLONG_MAX - 2.
Proof.
  intros Hd Hsq.
  assert (Hp : 6 <= ld_precision f <= 64) by (destruct f; cbn; lia).
  set (p := ld_precision f) in *.
  assert (Hp64 : 2 ^ p <= 2 ^ 64) by (apply Z.pow_le_mono_r; lia).
  assert (Hd' : 0 <= d < 2 ^ p) by nia.
  unfold base_gap_of. fold p. cbv zeta.
  destruct (ld_round_integer p d 1 ltac:(lia) Hd' ltac:(lia)) as [Hb1 Ha1].
  rewrite Z.mul_1_r in Hb1, Ha1.
  set (a1 := fst (ld_round p d 1)) in *. set (b1 := snd (ld_round p d 1)) in *.
  replace (a1 * a1) with (d * d * (b1 * b1)) by (rewrite Ha1; ring).
  destruct (ld_round_integer p (d * d) (b1 * b1) ltac:(lia) ltac:(nia) ltac:(nia))
    as [Hb2 Ha2].
  set (a2 := fst (ld_round p (d * d * (b1 * b1)) (b1 * b1))) in *.
  set (b2 := snd (ld_round p (d * d * (b1 * b1)) (b1 * b1))) in *.
  rewrite Ha2, (ld_round_fiftieth p (d * d) b2 ltac:(lia) ltac:(nia) Hb2).
  pose proof (Z.div_mod (d * d + 25) 50 ltac:(lia)) as Hdm.
  pose proof (Z.mod_pos_bound (d * d + 25) 50 ltac:(lia)) as Hr.
  assert (HX : 0 <= (d * d + 25) / 50) by (apply Z.div_pos; nia).
  unfold spec_base. set (X := (d * d + 25) / 50) in *.
  assert (HXm : X <= 2 ^ 64) by lia.
  change (2 ^ 64) with 18446744073709551616 in *.
  assert (HXs : 50 * X <= 18446744073709551616 + 25) by lia.
  unfold cast_ll, LLONG_MIN, LLONG_MAX.
  destruct (Z.leb_spec (-9223372036854775808) X); [| lia].
  destruct (Z.leb_spec X 9223372036854775807); [| lia].
  cbn [andb]. split; [| lia].
  unfold add_ll. apply to_ll_id. unfold in_ll, LLONG_MIN, LLONG_MAX. lia.
Qed.

Lemma base_gap_by_length (f : long_double_format) (s : cstring) (flag : bool) :
  LGO_CalculateNextPrime_BaseGap_Detailed f s flag
  = ((even_at_least_2
        (add_ll (base_gap_of f (to_ll (Z.of_nat (length s)))) (Z.quot 2 2)),
      [], to_ll (Z.of_nat (length s))), true).
Proof. reflexivity. Qed.

Lemma spec_predicted_even (b : Z) :
  2 <= b ->
  spec_gap (b + 1) = 2 * ((b + 2) / 2) /\ b + 1 <= spec_gap (b + 1) <= b + 2.
Proof.
  intros Hb. unfold spec_gap, even_up.
  destruct (Z.odd (b + 1)) eqn:Hodd.
  - pose proof (Zodd_bool_iff (b + 1)) as Hi.
    apply Hi in Hodd. apply Zodd_ex in Hodd. destruct Hodd as [k Hk].
    replace (b + 2) with ((k + 1) * 2) by lia.
    rewrite Z.div_mul by lia. lia.
  - rewrite <- Z.negb_even in Hodd. apply negb_false_iff in Hodd.
    pose proof (Zeven_bool_iff (b + 1)) as Hi.
    apply Hi in Hodd. apply Zeven_ex in Hodd. destruct Hodd as [k Hk].
    replace (b + 2) with (1 + k * 2) by lia.
    rewrite Z.div_add by lia. change (1 / 2) with 0. lia.
Qed.

(** The value returned for a digit count whose square is a [long double]. *)
Lemma base_gap_heuristic_closed (f : long_double_format) (s : cstring) (flag : bool) :
  let d := Z.of_nat (length s) in
  d * d < 2 ^ ld_precision f ->
  LGO_CalculateNextPrime_BaseGap_Detailed f s flag = ((spec_predicted d, [], d), true).
Proof.
  intros d Hsq.
  destruct (base_gap_exact f d ltac:(lia) Hsq) as [Hbase Hrange].
  assert (Hp : ld_precision f <= 64) by (destruct f; cbn; lia).
  assert (Hp64 : 2 ^ ld_precision f <= 2 ^ 64) by (apply Z.pow_le_mono_r; lia).
  change (2 ^ 64) with 18446744073709551616 in Hp64.
  assert (Hdig : to_ll d = d).
  { apply to_ll_id. unfold in_ll, LLONG_MIN, LLONG_MAX. nia. }
  assert (Hadd : add_ll (spec_base d) 1 = spec_base d + 1).
  { apply to_ll_id. unfold in_ll, LLONG_MIN, LLONG_MAX in *. lia. }
  destruct (even_at_least_2_spec (spec_base d + 1)) as (_ & _ & Hgap).
  { unfold in_ll, LLONG_MIN, LLONG_MAX in *. lia. }
  specialize (Hgap ltac:(unfold LLONG_MAX in *; lia)).
  rewrite base_gap_by_length. fold d.
  rewrite Hdig, Hbase. change (Z.quot 2 2) with 1. rewrite Hadd, Hgap. reflexivity.
Qed.

(** C7, as the code has it.  The base gap heuristic is a function of the
    digit count [d] alone (and of the format of [long double]), the
    integer division [2 / 2] adds exactly 1, and the value returned is
    even and at least 2.  As long as [d * d] is below [2 ^ 53] where
    [long double] has 53 bits of precision, and below [2 ^ 64] where it
    has 64, the base is [round(d^2/50) + 2], the integer nearest to
    [d^2/50] (a half going up) plus 2, and the value returned is
    [base + 1] made even by adding 1 when odd: [base + 1] rounded up to
    the next even integer. *)
Theorem base_gap_heuristic_formula (f : long_double_format) (s t : cstring)
        (flag flag' : bool) :
  let d := Z.of_nat (length s) in
  let predicted := fst (fst (fst (LGO_CalculateNextPrime_BaseGap_Detailed f s flag))) in
  (length t = length s ->
   LGO_CalculateNextPrime_BaseGap_Detailed f t flag'
   = LGO_CalculateNextPrime_BaseGap_Detailed f s flag) /\
  Z.quot 2 2 = 1 /\
  Z.even predicted = true /\
  2 <= predicted /\
  (d * d < 2 ^ ld_precision f ->
   let base := base_gap_of f d in
   50 * (base - 2) - 25 <= d * d < 50 * (base - 2) + 25 /\
   base = spec_base d /\
   LGO_CalculateNextPrime_BaseGap_Detailed f s flag = ((spec_predicted d, [], d), true) /\
   predicted = Z.max 2 (even_up (base + 1)) /\
   base + 1 <= predicted <= base + 2 /\
   predicted = 2 * ((base + 2) / 2)).
Proof.
  intros d predicted.
  split.
  { intros Hlen. rewrite !base_gap_by_length, Hlen. reflexivity. }
  split; [reflexivity |].
  assert (Hpred : predicted = even_at_least_2 (add_ll (base_gap_of f (to_ll d)) (Z.quot 2 2)))
    by (unfold predicted; rewrite base_gap_by_length; reflexivity).
  destruct (even_at_least_2_spec (add_ll (base_gap_of f (to_ll d)) (Z.quot 2 2))
                                 (to_ll_range _)) as (Heven & Hrange & _).
  split; [rewrite Hpred; exact Heven |].
  split; [rewrite Hpred; lia |].
  intros Hsq base.
  destruct (base_gap_exact f d ltac:(lia) Hsq) as [Hbase Hfit].
  pose proof (base_gap_heuristic_closed f s flag Hsq) as Hclosed. fold d in Hclosed.
  assert (Hval : predicted = spec_predicted d)
    by (unfold predicted; rewrite Hclosed; reflexivity).
  destruct (spec_predicted_even (spec_base d) ltac:(lia)) as [Hhalf Hnear].
  fold (spec_predicted d) in Hhalf, Hnear.
  subst base. rewrite Hbase.
  split.
  { unfold spec_base.
    pose proof (Z.div_mod (d * d + 25) 50 ltac:(lia)) as Hdm.
    pose proof (Z.mod_pos_bound (d * d + 25) 50 ltac:(lia)) as Hr. lia. }
  split; [reflexivity |]. split; [exact Hclosed |].
  split; [rewrite Hval; reflexivity |].
  split; [rewrite Hval; exact Hnear |].
  rewrite Hval. exact Hhalf.
Qed.

Lemma base_gap_heuristic_formula_witness :
  let s := lit "9999999967" in
  let t := lit "0123456789" in
  length t = length s /\
  Z.of_nat (length s) * Z.of_nat (length s) < 2 ^ ld_precision LD_binary64 /\
  base_gap_of LD_binary64 10 = 4 /\
  LGO_CalculateNextPrime_BaseGap_Detailed LD_binary64 s false = ((6, [], 10), true) /\
  LGO_CalculateNextPrime_BaseGap_Detailed LD_binary64 t true = ((6, [], 10), true).
Proof.
  intros s t.
  assert (Hlen : length t = length s) by reflexivity.
  assert (Hsq : Z.of_nat (length s) * Z.of_nat (length s) < 2 ^ ld_precision LD_binary64)
    by (vm_compute; reflexivity).
  destruct (base_gap_heuristic_formula LD_binary64 s t false true)
    as (Hsame & _ & _ & _ & Hformula).
  destruct (Hformula Hsq) as (_ & Hbase & H & _).
  split; [exact Hlen |]. split; [exact Hsq |]. split; [exact Hbase |].
  split; [exact H |]. rewrite (Hsame Hlen). exact H.
Defined.

Lemma repeat_not_nil {A : Type} (c : A) (n : nat) : (0 < n)%nat -> repeat c n <> [].
Proof. destruct n; [lia | discriminate]. Qed.

Lemma all_digits_repeat (c : ascii) (n : nat) :
  is_digit c = true -> all_digits (repeat c n).
Proof.
  intros Hc. apply Forall_forall. intros x Hx. apply repeat_spec in Hx. subst x. exact Hc.
Qed.

Lemma long_nines_facts :
  decimal_string long_nines /\ Z.of_nat (length long_nines) = 268435563.
Proof.
  unfold long_nines. split; [split |].
  - apply repeat_not_nil. change 0%nat with (Z.to_nat 0).
    apply Z2Nat.inj_lt; [discriminate | discriminate | reflexivity].
  - apply all_digits_repeat. reflexivity.
  - rewrite repeat_length, Z2Nat.id by discriminate. reflexivity.
Qed.

(** C7, where the claim fails.  On a string of 268435563 characters,
    where [long double] is the 64-bit format, the product [d * d] is not
    a [long double]: it is rounded, and so is its fiftieth.  The base
    comes out as 1441153029662542 where [round(d^2/50) + 2] is
    1441153029662541, and the value returned is 1441153029662544, not
    1441153029662542.  The 80-bit format does the same at 17179869192. *)
Lemma base_gap_heuristic_rounding :
  let d := Z.of_nat (length long_nines) in
  let predicted :=
    fst (fst (fst (LGO_CalculateNextPrime_BaseGap_Detailed LD_binary64 long_nines false))) in
  decimal_string long_nines /\
  d = 268435563 /\
  base_gap_of LD_binary64 d = 1441153029662542 /\
  spec_base d = 1441153029662541 /\
  predicted = 1441153029662544 /\
  spec_predicted d = 1441153029662542 /\
  predicted <> spec_predicted d /\
  base_gap_of LD_x87 17179869192 <> spec_base 17179869192.
Proof.
  intros d predicted. destruct long_nines_facts as [Hs Hlen].
  assert (Hp : predicted = 1441153029662544).
  { unfold predicted. rewrite base_gap_by_length, Hlen. vm_compute. reflexivity. }
  subst d. rewrite Hlen, Hp.
  split; [exact Hs |]. split; [reflexivity |].
  split; [vm_compute; reflexivity |]. split; [vm_compute; reflexivity |].
  split; [reflexivity |].
  split; [vm_compute; reflexivity |].
  split; vm_compute; discriminate.
Qed.

(** ** The predictor in closed form *)

(** Evaluates the assignments to the fields of the metrics record and to
    the globals. *)
Ltac eval_assignments :=
  cbv beta iota delta
    [g_gravitational current_prime_digits base_gap_out density_correction_G
     delta_out fluctuation_delta final_gap correlative_adjustment
     current_prime_set zeta_correlation_Z rh_condition_status pnt_ratio
     current_phi pnt_gap_ratio current_prime_set_enum set_g_gravitational
     set_current_prime_digits set_base_gap_out set_density_correction_G
     set_delta_out set_fluctuation_delta set_final_gap
     set_correlative_adjustment set_current_prime_set set_zeta_correlation_Z
     set_rh_condition_status set_pnt_ratio set_current_phi set_pnt_gap_ratio
     set_current_prime_set_enum].

Section PredictorFacts.

Context {L : Libm}.

Lemma predict_closed (s : cstring) (m : PredictionMetrics) (g : globals) :
  LGO_Predict_Deterministic s m g = predict_closed_form s g.
Proof.
  unfold LGO_Predict_Deterministic, predict_closed_form, leading_digits.
  unfold metrics_of, globals_of, pnt_ratio_of, ln_pn_precise_of, final_gap_of,
    G_density_of, phi_of, delta_final_of, base_gap_heuristic_of, digits_of.
  unfold LGO_CalculateNextPrime_BaseGap_Detailed.
  cbv beta zeta iota. cbn [fst snd].
  destruct (substr s 0 (Z.min 10 (Z.of_nat (length s)))) as [leading | e]; [| reflexivity].
  cbn [bind].
  destruct (stold leading) as [lead | e]; [| reflexivity].
  cbn [bind].
  change (current_prime_set_enum
            (set_current_prime_set_enum (determine_prime_set s)
               (set_current_phi
                  (phi_term_of (ln_pn_of (to_ll (Z.of_nat (length s))) lead) C_LGO_STAR) g)))
    with (determine_prime_set s).
  destruct (array_read ulam_delta_correction_12 (PrimeSet_index (determine_prime_set s)))
    as [delta_12 |]; [| reflexivity].
  cbn [of_option bind].
  destruct (array_read ulam_delta_correction_7 (calculate_mod_7 s))
    as [delta_7 |]; [| reflexivity].
  cbn [of_option bind].
  destruct (stold s) as [full | e]; [| reflexivity].
  cbn [bind].
  destruct (fp_gt (fp_cast Double (fp_log LongDouble full)) (fp_literal Double 0 0));
    eval_assignments; reflexivity.
Qed.

Lemma digit_prefix_all (s : cstring) : all_digits s -> digit_prefix s = s.
Proof.
  induction 1 as [| c r Hc Hr IH]; [reflexivity |].
  cbn [digit_prefix]. rewrite Hc, IH. reflexivity.
Qed.

Lemma stold_digits (s : cstring) :
  decimal_string s ->
  stold s = if ld_overflow_threshold ld_format <=? value s
            then Err std_out_of_range
            else Ok (full_of s).
Proof.
  intros [Hne Hs]. unfold stold. rewrite (digit_prefix_all s Hs).
  destruct s as [| c r]; [congruence | reflexivity].
Qed.

Lemma ld_overflow_threshold_large (f : long_double_format) :
  10 ^ 40 < ld_overflow_threshold f.
Proof. destruct f; vm_compute; reflexivity. Qed.

Lemma leading_digits_eq (s : cstring) :
  leading_digits s = Ok (firstn (Z.to_nat (Z.min 10 (Z.of_nat (length s)))) s).
Proof.
  unfold leading_digits, substr.
  destruct (Z.ltb_spec (Z.of_nat (length s)) 0) as [H | _]; [lia | reflexivity].
Qed.

Lemma stold_leading (s : cstring) :
  decimal_string s ->
  stold (firstn (Z.to_nat (Z.min 10 (Z.of_nat (length s)))) s) = Ok (lead_of s).
Proof.
  intros [Hne Hs].
  set (n := Z.to_nat (Z.min 10 (Z.of_nat (length s)))).
  assert (Hp : decimal_string (firstn n s)).
  { split; [| apply all_digits_firstn; exact Hs].
    destruct s as [| c r]; [congruence |].
    subst n. cbn [length]. 
    replace (Z.to_nat (Z.min 10 (Z.of_nat (S (length r)))))
      with (S (Z.to_nat (Z.min 9 (Z.of_nat (length r))))) by lia.
    discriminate. }
  rewrite (stold_digits _ Hp).
  pose proof (value_bounds _ (proj2 Hp)) as Hv.
  assert (Hlen : Z.of_nat (length (firstn n s)) <= 10).
  { rewrite length_firstn. subst n. lia. }
  assert (Hpow : 10 ^ Z.of_nat (length (firstn n s)) <= 10 ^ 10).
  { apply Z.pow_le_mono_r; lia. }
  pose proof (ld_overflow_threshold_large ld_format) as Hbig.
  assert (H1040 : 10 ^ 10 < 10 ^ 40) by (vm_compute; reflexivity).
  destruct (Z.leb_spec (ld_overflow_threshold ld_format) (value (firstn n s))); [lia |].
  reflexivity.
Qed.

Lemma calculate_mod_7_range (s : cstring) :
  all_digits s -> 0 <= calculate_mod_7 s < 7.
Proof.
  intros Hs. unfold calculate_mod_7.
  apply (mod_loop_horner 7 s 0); [lia | exact Hs | lia].
Qed.

Lemma PrimeSet_index_range (p : PrimeSet) : 0 <= PrimeSet_index p < 5.
Proof. destruct p; simpl; lia. Qed.

Lemma array_read_in_bounds (table : list Z) (i : Z) :
  0 <= i < Z.of_nat (length table) ->
  array_read table i = Some (nth (Z.to_nat i) table 0).
Proof.
  intros Hi. unfold array_read.
  destruct (Z.ltb_spec i 0); [lia |].
  apply nth_error_nth'. lia.
Qed.

Lemma read_delta_12 (s : cstring) :
  array_read ulam_delta_correction_12 (PrimeSet_index (determine_prime_set s))
  = Some (delta_12_of s).
Proof.
  apply array_read_in_bounds.
  pose proof (PrimeSet_index_range (determine_prime_set s)). simpl. lia.
Qed.

Lemma read_delta_7 (s : cstring) :
  all_digits s ->
  array_read ulam_delta_correction_7 (calculate_mod_7 s) = Some (delta_7_of s).
Proof.
  intros Hs. apply array_read_in_bounds.
  pose proof (calculate_mod_7_range s Hs). simpl. lia.
Qed.

Lemma final_gap_of_range (s : cstring) (lead : fp) (d12 d7 : Z) :
  Z.even (final_gap_of s lead d12 d7) = true /\
  2 <= final_gap_of s lead d12 d7 <= LLONG_MAX.
Proof.
  unfold final_gap_of.
  destruct (even_at_least_2_spec
              (add_ll (add_ll (base_gap_heuristic_of s) (delta_final_of d12 d7))
                      (G_density_of s lead)))
    as (He & Hr & _).
  - apply to_ll_range.
  - split; assumption.
Qed.

Lemma bind_Ok {A B : Type} (a : A) (k : A -> result B) : bind (Ok a) k = k a.
Proof. reflexivity. Qed.

Lemma gap_of_eq (s : cstring) :
  gap_of s = final_gap_of s (lead_of s) (delta_12_of s) (delta_7_of s).
Proof. reflexivity. Qed.

(** One call on a digit string: it throws [std::out_of_range] when the
    whole string overflows [long double], and returns otherwise. *)
Lemma predict_run (s : cstring) (m : PredictionMetrics) (g : globals) :
  decimal_string s ->
  exists next,
    add_strings s (gap_of s) = Some next /\
    LGO_Predict_Deterministic s m g =
    if ld_overflow_threshold ld_format <=? value s then Err std_out_of_range
    else Ok ((gap_of s, next),
             metrics_of s (lead_of s) (delta_12_of s) (delta_7_of s) (full_of s),
             globals_of s (lead_of s) (delta_12_of s) (delta_7_of s) (full_of s) g).
Proof.
  intros Hs.
  destruct (final_gap_of_range s (lead_of s) (delta_12_of s) (delta_7_of s)) as [_ Hr].
  assert (Hgap : 0 <= gap_of s <= LLONG_MAX) by (rewrite gap_of_eq; lia).
  destruct (add_strings_spec s (gap_of s) (proj2 Hs) Hgap) as (next & Hadd & _).
  exists next. split; [exact Hadd |].
  rewrite predict_closed. unfold predict_closed_form.
  rewrite leading_digits_eq, bind_Ok.
  rewrite (stold_leading s Hs), bind_Ok.
  rewrite read_delta_12. unfold of_option at 1. rewrite bind_Ok.
  rewrite (read_delta_7 s (proj2 Hs)). unfold of_option at 1. rewrite bind_Ok.
  rewrite (stold_digits s Hs).
  destruct (ld_overflow_threshold ld_format <=? value s); [reflexivity |].
  rewrite bind_Ok, <- gap_of_eq, Hadd.
  unfold of_option. rewrite bind_Ok. reflexivity.
Qed.

Lemma bind_Err {A B : Type} (e : error) (k : A -> result B) : bind (Err e) k = Err e.
Proof. reflexivity. Qed.

(** A call that returns, returns what the closed form says. *)
Lemma predict_returns_inv (s : cstring) (m : PredictionMetrics) (g : globals)
      (gap : Z) (next : cstring) (metrics : PredictionMetrics) (g' : globals) :
  decimal_string s ->
  LGO_Predict_Deterministic s m g = Ok ((gap, next), metrics, g') ->
  value s < ld_overflow_threshold ld_format /\
  gap = gap_of s /\
  add_strings s (gap_of s) = Some next /\
  metrics = metrics_of s (lead_of s) (delta_12_of s) (delta_7_of s) (full_of s) /\
  g' = globals_of s (lead_of s) (delta_12_of s) (delta_7_of s) (full_of s) g.
Proof.
  intros Hs Hrun.
  destruct (predict_run s m g Hs) as (next' & Hadd & Heq).
  rewrite Heq in Hrun.
  destruct (Z.leb_spec (ld_overflow_threshold ld_format) (value s)) as [Hge | Hlt];
    [discriminate |].
  injection Hrun as Hgap Hnext Hm Hg.
  subst next'. repeat split; try assumption; symmetry; assumption.
Qed.

(** C2. When a call on a non-empty digit string returns, the final gap is
    the base gap heuristic plus [delta_final] plus [G_density] (the three
    values stored in the metrics), incremented by 1 if odd and then raised
    to 2 if below 2: as [long long] arithmetic computes it in general, and
    as the integers have it when the sum stays inside [long long].  In
    every case the gap returned, stored in the metrics and added to the
    input is even and at least 2. *)
Theorem final_gap_formula (s : cstring) (m : PredictionMetrics) (g : globals)
        (gap : Z) (next : cstring) (metrics : PredictionMetrics) (g' : globals) :
  decimal_string s ->
  LGO_Predict_Deterministic s m g = Ok ((gap, next), metrics, g') ->
  let sum := base_gap_out metrics + delta_out metrics + density_correction_G metrics in
  base_gap_out metrics = base_gap_heuristic_of s /\
  delta_out metrics = delta_final_of (delta_12_of s) (delta_7_of s) /\
  density_correction_G metrics = G_density_of s (lead_of s) /\
  gap = even_at_least_2 (to_ll sum) /\
  (LLONG_MIN <= sum < LLONG_MAX -> gap = spec_gap sum) /\
  Z.even gap = true /\
  2 <= gap /\
  final_gap metrics = gap /\
  add_strings s gap = Some next.
Proof.
  intros Hs Hrun sum.
  destruct (predict_returns_inv s m g gap next metrics g' Hs Hrun)
    as (_ & Hgap & Hadd & Hm & _).
  assert (Hb : base_gap_out metrics = base_gap_heuristic_of s) by (rewrite Hm; reflexivity).
  assert (Hd : delta_out metrics = delta_final_of (delta_12_of s) (delta_7_of s))
    by (rewrite Hm; reflexivity).
  assert (HG : density_correction_G metrics = G_density_of s (lead_of s))
    by (rewrite Hm; reflexivity).
  assert (Hf : final_gap metrics = gap) by (rewrite Hm, Hgap, gap_of_eq; reflexivity).
  assert (Hsum : gap = even_at_least_2 (to_ll sum)).
  { rewrite Hgap, gap_of_eq. unfold final_gap_of. rewrite add_ll_assoc_sum.
    subst sum. rewrite Hb, Hd, HG. reflexivity. }
  destruct (even_at_least_2_spec (to_ll sum) (to_ll_range sum)) as (He & Hr & Hspec).
  split; [exact Hb |]. split; [exact Hd |]. split; [exact HG |].
  split; [exact Hsum |].
  split.
  { intros Hin. rewrite Hsum.
    rewrite (to_ll_id sum) in * by (unfold in_ll; lia).
    apply Hspec. lia. }
  rewrite <- Hsum in He, Hr.
  split; [exact He |]. split; [lia |]. split; [exact Hf |].
  rewrite Hgap. exact Hadd.
Qed.

(** C4. What a call returns (the pair of final gap and next candidate, the
    metrics record, or the exception) is a function of the input string
    alone: the metrics record passed in and the values that earlier calls
    left in the global variables have no influence on it. *)
Theorem predict_is_pure (s : cstring) (m1 m2 : PredictionMetrics) (g1 g2 : globals) :
  observable (LGO_Predict_Deterministic s m1 g1)
  = observable (LGO_Predict_Deterministic s m2 g2).
Proof.
  rewrite !predict_closed. unfold predict_closed_form.
  destruct (leading_digits s) as [leading | e]; [| reflexivity].
  rewrite !bind_Ok.
  destruct (stold leading) as [lead | e]; [| reflexivity].
  rewrite !bind_Ok.
  destruct (of_option array_out_of_bounds
              (array_read ulam_delta_correction_12
                          (PrimeSet_index (determine_prime_set s))))
    as [delta_12 | e]; [| reflexivity].
  rewrite !bind_Ok.
  destruct (of_option array_out_of_bounds
              (array_read ulam_delta_correction_7 (calculate_mod_7 s)))
    as [delta_7 | e]; [| reflexivity].
  rewrite !bind_Ok.
  destruct (stold s) as [full | e]; [| reflexivity].
  rewrite !bind_Ok.
  destruct (of_option fuel_exhausted
              (add_strings s (final_gap_of s lead delta_12 delta_7)))
    as [next | e]; [| reflexivity].
  rewrite !bind_Ok. reflexivity.
Qed.

(** C8. On every non-empty digit string the call either throws
    [std::out_of_range] at the PNT step, which it does exactly from the
    overflow threshold of [long double] on, or returns, and then the
    density correction stored in the metrics is the integer
    [round((ln_pn * ln(C_LGO_STAR)) / C_LGO_STAR)], whenever that integer
    is a [long long], where [ln_pn = ln(10) * (d - 1) + ln(v)] and [v] is
    what [std::stold] makes of the leading [min(10, d)] characters only;
    the PNT step, by contrast, parses the whole string.  [C_LGO_STAR] is
    the constant of the program,
    [C_LGO_STATIC * PHI_DAMPENER * (ln(C_LGO_STATIC) / ln(e * pi))]. *)
Theorem density_correction_formula (s : cstring) (m : PredictionMetrics) (g : globals) :
  decimal_string s ->
  let d := to_ll (Z.of_nat (length s)) in
  let leading := firstn (Z.to_nat (Z.min 10 (Z.of_nat (length s)))) s in
  let v := fp_of_Z LongDouble (value leading) in
  let ln_pn :=
    fp_cast Double
      (fp_add LongDouble
         (fp_cast LongDouble
            (fp_mul Double (fp_log Double (fp_literal Double 10 0))
                    (fp_of_Z Double (sub_ll d 1))))
         (fp_log LongDouble v)) in
  let phi := fp_div Double (fp_mul Double ln_pn (fp_log Double C_LGO_STAR)) C_LGO_STAR in
  length leading = Nat.min 10 (length s) /\
  substr s 0 (Z.min 10 (Z.of_nat (length s))) = Ok leading /\
  stold leading = Ok v /\
  (Z.of_nat (length s) <= LLONG_MAX ->
   d = Z.of_nat (length s) /\ sub_ll d 1 = Z.of_nat (length s) - 1) /\
  C_LGO_STAR
  = fp_mul Double (fp_mul Double C_LGO_STATIC PHI_DAMPENER)
           (fp_div Double (fp_log Double C_LGO_STATIC)
                   (fp_log Double (fp_mul Double MATH_E MATH_PI))) /\
  (LGO_Predict_Deterministic s m g = Err std_out_of_range /\
   ld_overflow_threshold ld_format <= value s
   \/
   exists gap next metrics g',
     LGO_Predict_Deterministic s m g = Ok ((gap, next), metrics, g') /\
     value s < ld_overflow_threshold ld_format /\
     current_prime_digits metrics = d /\
     g_gravitational metrics = C_LGO_STAR /\
     correlative_adjustment metrics = phi /\
     density_correction_G metrics = fp_to_ll (fp_round Double phi) /\
     (forall z : Z,
         fp_trunc (fp_round Double phi) = Some z -> LLONG_MIN <= z <= LLONG_MAX ->
         density_correction_G metrics = z) /\
     stold s = Ok (fp_of_Z LongDouble (value s)) /\
     pnt_ratio metrics = pnt_ratio_of gap (fp_of_Z LongDouble (value s))).
Proof.
  intros Hs d leading v ln_pn phi.
  split; [subst leading; rewrite length_firstn; lia |].
  split; [apply leading_digits_eq |].
  split; [apply (stold_leading s Hs) |].
  split.
  { intros Hlen. subst d.
    assert (Hd : to_ll (Z.of_nat (length s)) = Z.of_nat (length s)).
    { apply to_ll_id. unfold in_ll, LLONG_MIN, LLONG_MAX in *. lia. }
    rewrite Hd. split; [reflexivity |].
    apply to_ll_id. unfold in_ll, LLONG_MIN, LLONG_MAX in *. lia. }
  split; [reflexivity |].
  destruct (predict_run s m g Hs) as (next & _ & Hrun).
  pose proof (stold_digits s Hs) as Hfull.
  destruct (Z.leb_spec (ld_overflow_threshold ld_format) (value s)) as [Hge | Hlt].
  { left. split; [exact Hrun | exact Hge]. }
  right.
  exists (gap_of s), next,
    (metrics_of s (lead_of s) (delta_12_of s) (delta_7_of s) (full_of s)),
    (globals_of s (lead_of s) (delta_12_of s) (delta_7_of s) (full_of s) g).
  split; [exact Hrun |]. split; [exact Hlt |].
  split; [reflexivity |]. split; [reflexivity |]. split; [reflexivity |].
  split; [reflexivity |].
  split.
  { intros z Hz Hrange.
    change (density_correction_G
              (metrics_of s (lead_of s) (delta_12_of s) (delta_7_of s) (full_of s)))
      with (fp_to_ll (fp_round Double phi)).
    unfold fp_to_ll. rewrite Hz. unfold cast_ll.
    destruct (Z.leb_spec LLONG_MIN z); [| lia].
    destruct (Z.leb_spec z LLONG_MAX); [| lia]. reflexivity. }
  split; [exact Hfull |].
  rewrite gap_of_eq. reflexivity.
Qed.

(** C9. Whenever [std::stold] accepts the whole input, the call returns
    and the PNT ratio in the metrics is the final gap divided by the
    logarithm of the parsed value when that logarithm is greater than
    zero, and exactly 0 otherwise; with a logarithm that has the sign of
    the real one, "otherwise" means the inputs of value 0 and 1. *)
Theorem pnt_ratio_cases (s : cstring) (m : PredictionMetrics) (g : globals) (full : fp) :
  decimal_string s -> stold s = Ok full ->
  exists gap next metrics g',
    LGO_Predict_Deterministic s m g = Ok ((gap, next), metrics, g') /\
    final_gap metrics = gap /\
    let ln_pn_precise := fp_cast Double (fp_log LongDouble full) in
    let zero := fp_literal Double 0 0 in
    (fp_gt ln_pn_precise zero = true ->
     pnt_ratio metrics = fp_div Double (fp_of_Z Double gap) ln_pn_precise) /\
    (fp_gt ln_pn_precise zero = false -> pnt_ratio metrics = zero) /\
    (log_sign_law L ->
     (fp_gt ln_pn_precise zero = false <-> value s <= 1) /\
     (value s <= 1 -> pnt_ratio metrics = zero)).
Proof.
  intros Hs Hfull.
  rewrite (stold_digits s Hs) in Hfull.
  destruct (predict_run s m g Hs) as (next & Hadd & Hrun).
  destruct (Z.leb_spec (ld_overflow_threshold ld_format) (value s)) as [Hge | Hlt];
    [discriminate |].
  injection Hfull as Hfull. subst full.
  exists (gap_of s), next,
    (metrics_of s (lead_of s) (delta_12_of s) (delta_7_of s) (full_of s)),
    (globals_of s (lead_of s) (delta_12_of s) (delta_7_of s) (full_of s) g).
  split; [exact Hrun |]. split; [rewrite gap_of_eq; reflexivity |].
  cbv zeta.
  assert (Hratio :
            pnt_ratio (metrics_of s (lead_of s) (delta_12_of s) (delta_7_of s) (full_of s))
            = pnt_ratio_of (gap_of s) (full_of s)) by (rewrite gap_of_eq; reflexivity).
  rewrite Hratio. unfold pnt_ratio_of, ln_pn_precise_of.
  split; [intros ->; reflexivity |].
  split; [intros ->; reflexivity |].
  intros Hlaw.
  pose proof (value_bounds s (proj2 Hs)) as [Hv _].
  pose proof (Hlaw (value s) Hv) as Hsign. unfold full_of. 
  assert (Hiff : fp_gt (fp_cast Double (fp_log LongDouble (fp_of_Z LongDouble (value s))))
                       (fp_literal Double 0 0) = false <-> value s <= 1).
  { rewrite Hsign. destruct (Z.leb_spec 2 (value s)); split; intros; try lia; try discriminate;
      reflexivity. }
  split; [exact Hiff |].
  intros Hle. apply Hiff in Hle. rewrite Hle. reflexivity.
Qed.

(** C10. On a non-empty digit string [calculate_mod_7] returns a value in
    [0, 7) and [determine_prime_set] an enumerator whose value is in
    [0, 5), so both table reads of the predictor stay inside the 7-entry
    and the 5-entry array, and no call reads outside them. *)
Theorem table_reads_in_bounds (s : cstring) (m : PredictionMetrics) (g : globals) :
  decimal_string s ->
  0 <= calculate_mod_7 s < MOD_7_CORRECTION_SIZE /\
  0 <= PrimeSet_index (determine_prime_set s) < ULAM_CORRECTION_SIZE /\
  Z.of_nat (length ulam_delta_correction_7) = MOD_7_CORRECTION_SIZE /\
  Z.of_nat (length ulam_delta_correction_12) = ULAM_CORRECTION_SIZE /\
  (exists delta_7, array_read ulam_delta_correction_7 (calculate_mod_7 s) = Some delta_7) /\
  (exists delta_12,
      array_read ulam_delta_correction_12 (PrimeSet_index (determine_prime_set s))
      = Some delta_12) /\
  LGO_Predict_Deterministic s m g <> Err array_out_of_bounds.
Proof.
  intros Hs.
  split; [apply calculate_mod_7_range; exact (proj2 Hs) |].
  split; [apply PrimeSet_index_range |].
  split; [reflexivity |]. split; [reflexivity |].
  split; [exists (delta_7_of s); apply read_delta_7; exact (proj2 Hs) |].
  split; [exists (delta_12_of s); apply read_delta_12 |].
  destruct (predict_run s m g Hs) as (next & _ & Hrun). rewrite Hrun.
  destruct (ld_overflow_threshold ld_format <=? value s); discriminate.
Qed.

(** ** Totality *)

Lemma predict_overflow (s : cstring) (m : PredictionMetrics) (g : globals) :
  decimal_string s -> ld_overflow_threshold ld_format <= value s ->
  LGO_Predict_Deterministic s m g = Err std_out_of_range.
Proof.
  intros Hs Hge. destruct (predict_run s m g Hs) as (next & _ & Hrun). rewrite Hrun.
  destruct (Z.leb_spec (ld_overflow_threshold ld_format) (value s)); [reflexivity | lia].
Qed.

(** Below the overflow threshold of [long double] every call returns. *)
Lemma predict_total (s : cstring) (m : PredictionMetrics) (g : globals) :
  decimal_string s -> value s < ld_overflow_threshold ld_format ->
  exists next metrics g',
    LGO_Predict_Deterministic s m g = Ok ((gap_of s, next), metrics, g') /\
    add_strings s (gap_of s) = Some next /\
    2 <= gap_of s <= LLONG_MAX.
Proof.
  intros Hs Hlt. destruct (predict_run s m g Hs) as (next & Hadd & Hrun).
  destruct (Z.leb_spec (ld_overflow_threshold ld_format) (value s)); [lia |].
  exists next. eexists. eexists. split; [exact Hrun |]. split; [exact Hadd |].
  rewrite gap_of_eq. apply final_gap_of_range.
Qed.

Lemma ld_overflow_threshold_below (f : long_double_format) :
  ld_overflow_threshold f <= 10 ^ 4999.
Proof. destruct f; apply Z.leb_le; vm_compute; reflexivity. Qed.

Lemma five_thousand_digits_value : 10 ^ 4999 <= value five_thousand_digits.
Proof.
  unfold five_thousand_digits. rewrite value_cons_eq, repeat_length.
  pose proof (value_bounds _ (all_digits_repeat_zero 4999)) as [Hv _].
  change (digit_of "1") with 1. change (Z.of_nat 4999) with 4999.
  generalize dependent (value (repeat "0"%char 4999)).
  generalize (10 ^ 4999). intros; lia.
Qed.

(** C3, where the code departs from it.  On the digit string made of a 1
    and 4999 zeros the call [std::stold(pn_str)] of the PNT step overflows
    [long double] (64-bit or x87) and [std::out_of_range] leaves
    [LGO_Predict_Deterministic]. *)
Theorem predict_throws_on_long_input (m : PredictionMetrics) (g : globals) :
  decimal_string five_thousand_digits /\
  length five_thousand_digits = 5000%nat /\
  LGO_Predict_Deterministic five_thousand_digits m g = Err std_out_of_range.
Proof.
  assert (Hs : decimal_string five_thousand_digits).
  { split; [discriminate |]. unfold five_thousand_digits.
    constructor; [reflexivity | apply all_digits_repeat_zero]. }
  split; [exact Hs |].
  split; [unfold five_thousand_digits; cbn [length]; rewrite repeat_length; reflexivity |].
  apply (predict_overflow _ m g Hs).
  apply Z.le_trans with (10 ^ 4999);
    [apply ld_overflow_threshold_below | apply five_thousand_digits_value].
Qed.

(** The defect of [add_strings] reached through the predictor: on the
    string of 2^31 zeros and a 7 the call returns, and the "next
    candidate" is the gap alone instead of 7 plus the gap. *)
Lemma predict_overlong_input (m : PredictionMetrics) (g : globals) :
  exists next metrics g',
    LGO_Predict_Deterministic overlong_input m g
    = Ok ((gap_of overlong_input, next), metrics, g') /\
    value next = gap_of overlong_input /\
    value next <> value overlong_input + gap_of overlong_input.
Proof.
  destruct overlong_input_facts as (Hs & Hlen & Hval).
  pose proof (ld_overflow_threshold_large ld_format) as Hbig.
  assert (H740 : 7 < 10 ^ 40) by reflexivity.
  assert (Hlt : value overlong_input < ld_overflow_threshold ld_format)
    by (rewrite Hval; apply Z.lt_trans with (10 ^ 40); assumption).
  destruct (predict_total overlong_input m g Hs Hlt)
    as (next & metrics & g' & Hrun & Hadd & Hgap).
  assert (Hgap0 : 0 <= gap_of overlong_input <= LLONG_MAX) by lia.
  destruct (add_strings_spec overlong_input (gap_of overlong_input) (proj2 Hs) Hgap0)
    as (r & Hr & _ & Hrv & _).
  rewrite Hadd in Hr. injection Hr as <-.
  assert (Hi : last_index overlong_input = -2147483648).
  { unfold last_index. rewrite Hlen. reflexivity. }
  rewrite Hi in Hrv. change (Z.to_nat (-2147483648 + 1)) with O in Hrv.
  change (value (firstn 0 overlong_input)) with 0 in Hrv.
  exists next, metrics, g'. split; [exact Hrun |].
  split; [lia |]. rewrite Hval. lia.
Qed.

(** *** Chains of predictions *)

Lemma prediction_step_invariant (k : Z) (s : cstring) (g : globals) :
  0 <= k <= 2 ^ 30 -> chain_invariant k s ->
  exists s' g', prediction_step (s, g) = Ok (s', g') /\ chain_invariant (k + 1) s'.
Proof.
  intros Hk (Hs & Hval & Hlen).
  pose proof (ld_overflow_threshold_large ld_format) as Hbig.
  assert (H1040 : 10 ^ 20 + 2 ^ 30 * 2 ^ 63 < 10 ^ 40) by (vm_compute; reflexivity).
  assert (Hlt : value s < ld_overflow_threshold ld_format) by nia.
  destruct (predict_total s PredictionMetrics_init g Hs Hlt)
    as (next & metrics & g' & Hrun & Hadd & Hgap).
  assert (Hgap0 : 0 <= gap_of s <= LLONG_MAX) by lia.
  assert (Hshort : Z.of_nat (length s) <= INT_MAX + 1) by (unfold INT_MAX; lia).
  destruct (add_strings_correct s (gap_of s) Hs Hgap0 Hshort)
    as (r & Hr & Hrd & Hrv & Hrl).
  rewrite Hadd in Hr. injection Hr as <-.
  exists next, g'. split.
  - unfold prediction_step. rewrite Hrun, bind_Ok. reflexivity.
  - split; [exact Hrd |]. unfold LLONG_MAX in Hgap. split; lia.
Qed.

Lemma prediction_chain_invariant (n : nat) :
  forall (k : Z) (s : cstring) (g : globals),
    0 <= k -> k + Z.of_nat n <= 2 ^ 30 -> chain_invariant k s ->
    exists st, prediction_chain n (s, g) = Ok st /\
               chain_invariant (k + Z.of_nat n) (fst st).
Proof.
  induction n as [| n IH]; intros k s g Hk Hn Hinv.
  - exists (s, g). split; [reflexivity |].
    replace (k + Z.of_nat 0) with k by lia. exact Hinv.
  - destruct (prediction_step_invariant k s g ltac:(lia) Hinv) as (s' & g' & Hstep & Hinv').
    destruct (IH (k + 1) s' g' ltac:(lia) ltac:(lia) Hinv') as (st & Hchain & Hst).
    exists st. split.
    + cbn [prediction_chain]. rewrite Hstep, bind_Ok. exact Hchain.
    + replace (k + Z.of_nat (S n)) with (k + 1 + Z.of_nat n) by lia. exact Hst.
Qed.

(** The part of C3 that holds: from each of the four primes of
    [PRIME_LIST], feeding every candidate back as the next input, the
    first million calls all return. *)
Lemma prediction_chain_total (p : cstring) (n : nat) (g : globals) :
  In p (map snd PRIME_LIST) -> Z.of_nat n <= 1000000 ->
  exists st, prediction_chain n (p, g) = Ok st /\ decimal_string (fst st).
Proof.
  intros Hp Hn.
  assert (Hinv : chain_invariant 0 p).
  { cbn [PRIME_LIST map snd In] in Hp.
    destruct Hp as [<- | [<- | [<- | [<- | []]]]];
      (split; [apply decimal_stringb_ok; reflexivity | split; vm_compute; [reflexivity | discriminate]]). }
  assert (Hn' : 0 + Z.of_nat n <= 2 ^ 30) by lia.
  destruct (prediction_chain_invariant n 0 p g (Z.le_refl 0) Hn' Hinv)
    as (st & Hchain & Hst & _).
  exists st. split; assumption.
Qed.

End PredictorFacts.

(** ** The executable libm satisfies the law of the logarithm *)

Lemma Qred_sign (q : Q) : (0 < Qnum (Qred q) <-> 0 < Qnum q)%Z.
Proof.
  pose proof (Qred_correct q) as H. unfold Qeq in H.
  pose proof (Pos2Z.is_pos (Qden q)). pose proof (Pos2Z.is_pos (Qden (Qred q))).
  split; intros Hpos; nia.
Qed.

Lemma coarse_ln_ge1_pos (v : Z) :
  (2 <= v)%Z -> (0 < Qnum (Coarse.ln_ge1 (inject_Z v)))%Z.
Proof.
  intros Hv. unfold Coarse.ln_ge1. apply Qred_sign.
  cbn [Qnum Qden inject_Z]. rewrite Z.div_1_r.
  set (e := Z.log2 v).
  assert (He : (1 <= e)%Z).
  { subst e. change 1%Z with (Z.log2 2). apply Z.log2_le_mono. exact Hv. }
  assert (Hpow : (2 ^ e <= v)%Z).
  { subst e. apply Z.log2_spec. lia. }
  assert (Hp : (0 < 2 ^ e)%Z) by (apply Z.pow_pos_nonneg; lia).
  assert (HeQ : (1 <= inject_Z e)%Q) by (unfold Qle; cbn [Qnum Qden inject_Z]; lia).
  assert (HpQ : (0 < inject_Z (2 ^ e))%Q) by (unfold Qlt; cbn [Qnum Qden inject_Z]; lia).
  assert (Hdiv : (1 <= inject_Z v / inject_Z (2 ^ e))%Q).
  { apply Qle_shift_div_l; [exact HpQ |]. rewrite Qmult_1_l.
    unfold Qle. cbn [Qnum Qden inject_Z]. lia. }
  assert (Hpos : (0 < Coarse.ln2 * (inject_Z e + (inject_Z v / inject_Z (2 ^ e) - 1)))%Q).
  { unfold Coarse.ln2.
    generalize dependent (inject_Z v / inject_Z (2 ^ e))%Q.
    generalize dependent (inject_Z e). intros a Ha b Hb. lra. }
  unfold Qlt in Hpos. cbn [Qnum Qden] in Hpos. lia.
Qed.

Lemma coarse_log_sign : log_sign_law CoarseLibm.
Proof.
  intros v Hv.
  destruct (Z.leb_spec 2 v) as [H2 | H2].
  - cbn [CoarseLibm fp_gt fp_cast fp_log fp_of_Z fp_literal].
    unfold Coarse.log, Coarse.is_zero, Coarse.is_neg. cbn [Qnum Qden inject_Z].
    destruct (Z.eqb_spec v 0); [lia |].
    destruct (Z.ltb_spec v 0); [lia |].
    destruct (Z.ltb_spec v 1); [lia |].
    pose proof (coarse_ln_ge1_pos v H2) as Hpos.
    unfold Coarse.gt.
    change (Qred (inject_Z 0 * Coarse.ten_pow 0)) with (0 # 1).
    cbn [Qnum Qden]. apply Z.ltb_lt. lia.
  - assert (Hc : v = 0%Z \/ v = 1%Z) by lia.
    destruct Hc as [-> | ->]; reflexivity.
Qed.

(** ** The theorems at concrete inputs *)

Lemma final_gap_formula_witness :
  let s := lit "9999999967" in
  exists gap next metrics g',
    decimal_string s /\
    LGO_Predict_Deterministic (L := CoarseLibm) s PredictionMetrics_init globals_init
      = Ok ((gap, next), metrics, g') /\
    Z.even gap = true /\ (2 <= gap)%Z /\
    final_gap metrics = gap /\
    add_strings s gap = Some next.
Proof.
  intros s.
  assert (Hs : decimal_string s) by (apply decimal_stringb_ok; reflexivity).
  assert (Hlt : (value s < ld_overflow_threshold (ld_format (Libm := CoarseLibm)))%Z)
    by (vm_compute; reflexivity).
  destruct (predict_total (L := CoarseLibm) s PredictionMetrics_init globals_init Hs Hlt)
    as (next & metrics & g' & Hrun & _ & _).
  exists (gap_of (L := CoarseLibm) s), next, metrics, g'.
  destruct (final_gap_formula (L := CoarseLibm) s _ _ _ next metrics g' Hs Hrun)
    as (_ & _ & _ & _ & _ & He & H2 & Hf & Hadd).
  split; [exact Hs |]. split; [exact Hrun |].
  split; [exact He |]. split; [exact H2 |]. split; [exact Hf | exact Hadd].
Defined.

Lemma density_correction_formula_witness :
  let s := lit "9999999999999999997" in
  exists gap next metrics g',
    decimal_string s /\
    LGO_Predict_Deterministic (L := CoarseLibm) s PredictionMetrics_init globals_init
      = Ok ((gap, next), metrics, g') /\
    substr s 0 10 = Ok (lit "9999999999") /\
    stold (L := CoarseLibm) (lit "9999999999")
      = Ok (fp_of_Z (Libm := CoarseLibm) LongDouble 9999999999) /\
    stold (L := CoarseLibm) s
      = Ok (fp_of_Z (Libm := CoarseLibm) LongDouble 9999999999999999997) /\
    density_correction_G metrics = 1.
Proof.
  intros s.
  assert (Hs : decimal_string s) by (apply decimal_stringb_ok; reflexivity).
  destruct (density_correction_formula (L := CoarseLibm) s PredictionMetrics_init
                                       globals_init Hs)
    as (_ & Hlead & Hv & _ & _ & [[_ Hbig] | Hreturns]).
  { exfalso. apply Hbig. vm_compute. reflexivity. }
  destruct Hreturns
    as (gap & next & metrics & g' & Hrun & _ & _ & _ & _ & _ & HG & Hfull & _).
  exists gap, next, metrics, g'.
  split; [exact Hs |]. split; [exact Hrun |].
  split; [exact Hlead |]. split; [exact Hv |]. split; [exact Hfull |].
  apply HG; [vm_compute; reflexivity | vm_compute; split; discriminate].
Defined.

Lemma pnt_ratio_cases_witness :
  let s := lit "1" in
  decimal_string s /\
  stold (L := CoarseLibm) s = Ok (Coarse.Finite 1) /\
  exists gap next metrics g',
    LGO_Predict_Deterministic (L := CoarseLibm) s PredictionMetrics_init globals_init
      = Ok ((gap, next), metrics, g') /\
    pnt_ratio metrics = fp_literal (Libm := CoarseLibm) Double 0 0.
Proof.
  intros s.
  assert (Hs : decimal_string s) by (apply decimal_stringb_ok; reflexivity).
  assert (Hfull : stold (L := CoarseLibm) s = Ok (Coarse.Finite 1)) by reflexivity.
  split; [exact Hs |]. split; [exact Hfull |].
  destruct (pnt_ratio_cases (L := CoarseLibm) s PredictionMetrics_init globals_init
                            (Coarse.Finite 1) Hs Hfull)
    as (gap & next & metrics & g' & Hrun & _ & _ & _ & Hlaw).
  exists gap, next, metrics, g'. split; [exact Hrun |].
  destruct (Hlaw coarse_log_sign) as [_ Hzero].
  apply Hzero. vm_compute. discriminate.
Defined.

Lemma table_reads_in_bounds_witness :
  let s := lit "9999999967" in
  decimal_string s /\
  calculate_mod_7 s = 6%Z /\
  determine_prime_set s = SET_C /\
  array_read ulam_delta_correction_7 (calculate_mod_7 s) = Some 0%Z /\
  array_read ulam_delta_correction_12 (PrimeSet_index (determine_prime_set s)) = Some (-1)%Z /\
  LGO_Predict_Deterministic (L := CoarseLibm) s PredictionMetrics_init globals_init
    <> Err array_out_of_bounds.
Proof.
  intros s.
  assert (Hs : decimal_string s) by (apply decimal_stringb_ok; reflexivity).
  destruct (table_reads_in_bounds (L := CoarseLibm) s PredictionMetrics_init globals_init Hs)
    as (_ & _ & _ & _ & _ & _ & Hnot).
  split; [exact Hs |].
  split; [reflexivity |]. split; [reflexivity |].
  split; [reflexivity |]. split; [reflexivity |]. exact Hnot.
Defined.


(** * Further properties of the big-decimal arithmetic *)

(** ** The length of a sum *)

Lemma decimal_digits_grows (fuel : nat) :
  forall (n : Z) (acc : cstring),
    fuel <> O -> (length acc < length (decimal_digits fuel n acc))%nat.
Proof.
  induction fuel as [| fuel IH]; intros n acc Hf; [congruence |].
  cbn [decimal_digits]. destruct (n <? 10).
  - cbn [length]. lia.
  - destruct fuel as [| fuel'].
    + cbn [decimal_digits length]. lia.
    + specialize (IH (n / 10) (int_to_char (char_0 + n mod 10) :: acc) ltac:(discriminate)).
      cbn [length] in IH. lia.
Qed.

(** [std::to_string] writes no leading zero. *)
Lemma decimal_digits_leading (fuel : nat) :
  forall (n : Z) (acc : cstring),
    1 <= n < 10 ^ Z.of_nat fuel ->
    10 ^ (Z.of_nat (length (decimal_digits fuel n acc)) - Z.of_nat (length acc) - 1) <= n.
Proof.
  induction fuel as [| fuel IH]; intros n acc Hn.
  - simpl in Hn. lia.
  - cbn [decimal_digits].
    destruct (Z.ltb_spec n 10) as [Hlt | Hge].
    + cbn [length]. rewrite Nat2Z.inj_succ.
      replace (Z.succ (Z.of_nat (length acc)) - Z.of_nat (length acc) - 1) with 0 by lia.
      simpl. lia.
    + rewrite Nat2Z.inj_succ, Z.pow_succ_r in Hn by lia.
      assert (Hq : 1 <= n / 10 < 10 ^ Z.of_nat fuel).
      { split; [apply Z.div_le_lower_bound; lia | apply Z.div_lt_upper_bound; lia]. }
      assert (Hfuel : fuel <> O).
      { intros ->. simpl in Hq. lia. }
      pose proof (decimal_digits_grows fuel (n / 10)
                    (int_to_char (char_0 + n mod 10) :: acc) Hfuel) as Hlen.
      specialize (IH (n / 10) (int_to_char (char_0 + n mod 10) :: acc) Hq).
      cbn [length] in IH, Hlen. rewrite Nat2Z.inj_succ in IH.
      set (m := Z.of_nat (length (decimal_digits fuel (n / 10)
                                 (int_to_char (char_0 + n mod 10) :: acc)))) in *.
      assert (Hm : Z.succ (Z.of_nat (length acc)) < m) by (subst m; lia).
      replace (m - Z.of_nat (length acc) - 1)
        with (Z.succ (m - Z.succ (Z.of_nat (length acc)) - 1)) by lia.
      rewrite Z.pow_succ_r by lia.
      pose proof (Z.mul_div_le n 10 ltac:(lia)). lia.
Qed.

Lemma to_string_leading (k : Z) :
  1 <= k <= LLONG_MAX -> 10 ^ (Z.of_nat (length (to_string k)) - 1) <= k.
Proof.
  intros Hk. unfold to_string, LLONG_MAX in *.
  destruct (Z.ltb_spec k 0); [lia |].
  pose proof (decimal_digits_leading 20 k []) as H'.
  cbn [length] in H'. rewrite Z.sub_0_r in H'. apply H'.
  change (10 ^ Z.of_nat 20) with 100000000000000000000. lia.
Qed.

(** The loop writes one digit for each position of the longer operand,
    and one more exactly when the sum still to be written has one digit
    more than that. *)
Lemma add_loop_length (large small : cstring) :
  all_digits large -> all_digits small ->
  forall (fuel : nat) (i j carry : Z) (result r : cstring),
    i < Z.of_nat (length large) -> j < Z.of_nat (length small) ->
    0 <= carry <= 1 ->
    add_loop fuel large small i j carry result = Some r ->
    let M := Z.max 0 (Z.max (i + 1) (j + 1)) in
    let T := value (firstn (Z.to_nat (i + 1)) large)
             + value (firstn (Z.to_nat (j + 1)) small) + carry in
    Z.of_nat (length r)
    = Z.of_nat (length result) + M + (if 10 ^ M <=? T then 1 else 0).
Proof.
  intros Hlarge Hsmall.
  induction fuel as [| fuel IH]; intros i j carry result r Hi Hj Hc Hrun;
    [discriminate |].
  cbn [add_loop] in Hrun.
  destruct ((0 <=? i) || (0 <=? j) || negb (carry =? 0)) eqn:Hcond.
  - pose proof (consume_digit large i Hlarge Hi) as Hx.
    pose proof (consume_digit small j Hsmall Hj) as Hy.
    cbv zeta in Hx, Hy.
    set (a := if 0 <=? i then digit_of (char_at large i) else 0) in *.
    set (b := if 0 <=? j then digit_of (char_at small j) else 0) in *.
    set (i' := if 0 <=? i then i - 1 else i) in *.
    set (j' := if 0 <=? j then j - 1 else j) in *.
    destruct Hx as (Hx & Ha & Hi' & Hipos & Hineg).
    destruct Hy as (Hy & Hb & Hj' & Hjpos & Hjneg).
    replace (if 0 <=? i then carry + digit_of (char_at large i) else carry)
      with (carry + a) in Hrun by (subst a; destruct (0 <=? i); lia).
    replace (if 0 <=? j then carry + a + digit_of (char_at small j) else carry + a)
      with (carry + a + b) in Hrun by (subst b; destruct (0 <=? j); lia).
    set (sum := carry + a + b) in *.
    assert (Hsum : 0 <= sum <= 19) by (subst sum; lia).
    rewrite Z.quot_div_nonneg, Z.rem_mod_nonneg in Hrun by lia.
    pose proof (Z.div_mod sum 10 ltac:(lia)) as Hdm.
    pose proof (Z.mod_pos_bound sum 10 ltac:(lia)) as Hmb.
    assert (Hq : 0 <= sum / 10 <= 1) by lia.
    assert (Hnz : 0 <= i \/ 0 <= j \/ carry = 1).
    { apply orb_true_iff in Hcond. destruct Hcond as [Hcond | Hcond].
      - apply orb_true_iff in Hcond. destruct Hcond as [H | H]; apply Z.leb_le in H; lia.
      - apply negb_true_iff in Hcond. apply Z.eqb_neq in Hcond. lia. }
    specialize (IH i' j' (sum / 10) _ r Hi' Hj' Hq Hrun). cbv zeta in IH |- *.
    cbn [length] in IH. rewrite Nat2Z.inj_succ in IH. rewrite IH, Hx, Hy.
    set (A := value (firstn (Z.to_nat (i' + 1)) large)) in *.
    set (B := value (firstn (Z.to_nat (j' + 1)) small)) in *.
    assert (HA : 0 <= A).
    { apply (value_bounds _ (all_digits_firstn _ _ Hlarge)). }
    assert (HB : 0 <= B).
    { apply (value_bounds _ (all_digits_firstn _ _ Hsmall)). }
    destruct (Z_lt_dec 0 (Z.max 0 (Z.max (i + 1) (j + 1)))) as [HM | HM].
    + assert (HM' : Z.max 0 (Z.max (i + 1) (j + 1))
                    = Z.succ (Z.max 0 (Z.max (i' + 1) (j' + 1)))) by lia.
      rewrite HM', Z.pow_succ_r by lia.
      set (P := 10 ^ Z.max 0 (Z.max (i' + 1) (j' + 1))).
      destruct (Z.leb_spec P (A + B + sum / 10));
        destruct (Z.leb_spec (10 * P) (A * 10 + a + (B * 10 + b) + carry)); lia.
    + assert (Hi0 : i < 0) by lia. assert (Hj0 : j < 0) by lia.
      assert (HA0 : A = 0).
      { subst A. replace (Z.to_nat (i' + 1)) with O by lia. reflexivity. }
      assert (HB0 : B = 0).
      { subst B. replace (Z.to_nat (j' + 1)) with O by lia. reflexivity. }
      replace (Z.max 0 (Z.max (i + 1) (j + 1))) with 0 by lia.
      replace (Z.max 0 (Z.max (i' + 1) (j' + 1))) with 0 by lia.
      change (10 ^ 0) with 1.
      destruct (Z.leb_spec 1 (A + B + sum / 10));
        destruct (Z.leb_spec 1 (A * 10 + a + (B * 10 + b) + carry)); lia.
  - injection Hrun as <-.
    apply orb_false_iff in Hcond. destruct Hcond as [Hcond Hcar].
    apply orb_false_iff in Hcond. destruct Hcond as [Hin Hjn].
    apply Z.leb_gt in Hin. apply Z.leb_gt in Hjn.
    apply negb_false_iff in Hcar. apply Z.eqb_eq in Hcar. subst carry.
    cbv zeta.
    replace (Z.to_nat (i + 1)) with O by lia.
    replace (Z.to_nat (j + 1)) with O by lia.
    replace (Z.max 0 (Z.max (i + 1) (j + 1))) with 0 by lia.
    simpl. lia.
Qed.

Lemma digit_of_inj (c1 c2 : ascii) :
  is_digit c1 = true -> is_digit c2 = true -> digit_of c1 = digit_of c2 -> c1 = c2.
Proof.
  unfold is_digit, digit_of, char_to_int, char_0. intros H1 H2 Heq.
  apply andb_true_iff in H1. destruct H1 as [H1 H1'].
  apply andb_true_iff in H2. destruct H2 as [H2 H2'].
  apply Z.leb_le in H1, H1', H2, H2'.
  destruct (Z.ltb_spec (Z.of_nat (nat_of_ascii c1)) 128); [| lia].
  destruct (Z.ltb_spec (Z.of_nat (nat_of_ascii c2)) 128); [| lia].
  rewrite <- (ascii_nat_embedding c1), <- (ascii_nat_embedding c2).
  f_equal. lia.
Qed.

(** Two digit strings of the same length that denote the same number are
    the same string. *)
Lemma digit_strings_equal (a : cstring) :
  forall b : cstring,
    all_digits a -> all_digits b -> length a = length b -> value a = value b -> a = b.
Proof.
  induction a as [| c a IH]; intros [| d b] Ha Hb Hlen Hval; try discriminate.
  - reflexivity.
  - inversion Ha as [| ? ? Hc Ha']. inversion Hb as [| ? ? Hd Hb']. subst.
    injection Hlen as Hlen. rewrite !value_cons_eq, Hlen in Hval.
    pose proof (value_bounds a Ha') as Hva. pose proof (value_bounds b Hb') as Hvb.
    rewrite Hlen in Hva.
    pose proof (is_digit_range c Hc). pose proof (is_digit_range d Hd).
    set (P := 10 ^ Z.of_nat (length b)) in *.
    assert (Hcd : digit_of c = digit_of d) by nia.
    rewrite (digit_of_inj c d Hc Hd Hcd). f_equal.
    apply IH; try assumption. rewrite Hcd in Hval. lia.
Qed.

Lemma leading_digit_weight (c : ascii) (r : cstring) :
  all_digits (c :: r) ->
  (c <> "0"%char <-> 10 ^ Z.of_nat (length r) <= value (c :: r)).
Proof.
  intros H. inversion H as [| ? ? Hc Hr]. subst.
  rewrite value_cons_eq. pose proof (value_bounds r Hr) as Hv.
  pose proof (is_digit_range c Hc) as Hd.
  set (P := 10 ^ Z.of_nat (length r)) in *.
  split.
  - intros Hne. assert (digit_of c <> 0).
    { intros H0. apply Hne. apply (digit_of_inj c "0" Hc eq_refl). exact H0. }
    nia.
  - intros Hle ->. change (digit_of "0") with 0 in Hle. lia.
Qed.

Lemma pow10_lt_inv (a b : Z) : 0 <= a -> 0 <= b -> 10 ^ a < 10 ^ b -> a < b.
Proof.
  intros Ha Hb H. apply (Z.pow_lt_mono_r_iff 10); lia.
Qed.

(** [add_strings] on a digit string whose last index fits an [int]: the
    sum, written in as many digits as the longer operand has, and in one
    more exactly when the sum needs it. *)
Lemma add_strings_exact (s : cstring) (k : Z) :
  decimal_string s -> 0 <= k <= LLONG_MAX ->
  Z.of_nat (length s) <= INT_MAX + 1 ->
  exists r,
    add_strings s k = Some r /\ decimal_string r /\
    value r = value s + k /\
    let M := Z.max (Z.of_nat (length s)) (Z.of_nat (length (to_string k))) in
    Z.of_nat (length r) = M + (if 10 ^ M <=? value s + k then 1 else 0).
Proof.
  intros Hs Hk Hlen.
  destruct (add_strings_correct s k Hs Hk Hlen) as (r & Hr & Hrd & Hrv & _).
  exists r. split; [exact Hr |]. split; [exact Hrd |]. split; [exact Hrv |].
  destruct (to_string_spec k Hk) as (Hdig & Hval & Hl).
  unfold add_strings in Hr.
  assert (Hj : last_index (to_string k) = Z.of_nat (length (to_string k)) - 1).
  { apply last_index_short. unfold INT_MAX. lia. }
  assert (Hjlt : last_index (to_string k) < Z.of_nat (length (to_string k))) by lia.
  assert (Hc0 : 0 <= 0 <= 1) by lia.
  pose proof (add_loop_length s (to_string k) (proj2 Hs) Hdig
                (add_strings_fuel s (to_string k))
                (last_index s) (last_index (to_string k)) 0 [] r
                (last_index_lt s) Hjlt Hc0 Hr) as Hlength.
  cbv zeta in Hlength |- *.
  rewrite (last_index_short s Hlen), Hj in Hlength.
  replace (Z.to_nat (Z.of_nat (length s) - 1 + 1)) with (length s) in Hlength by lia.
  replace (Z.to_nat (Z.of_nat (length (to_string k)) - 1 + 1))
    with (length (to_string k)) in Hlength by lia.
  rewrite !firstn_all, Hval, Z.add_0_r in Hlength.
  cbn [length] in Hlength.
  replace (Z.max 0 (Z.max (Z.of_nat (length s) - 1 + 1)
                          (Z.of_nat (length (to_string k)) - 1 + 1)))
    with (Z.max (Z.of_nat (length s)) (Z.of_nat (length (to_string k)))) in Hlength by lia.
  lia.
Qed.

Lemma to_string_length_le (s : cstring) (k : Z) :
  decimal_string s -> 0 <= k <= LLONG_MAX -> value s + k < 10 ^ Z.of_nat (length s) ->
  Z.of_nat (length (to_string k)) <= Z.of_nat (length s).
Proof.
  intros [Hne Hs] Hk Hsum.
  pose proof (value_bounds s Hs) as [Hv _].
  assert (Hpos : (0 < length s)%nat) by (destruct s; [congruence | simpl; lia]).
  destruct (Z.eq_dec k 0) as [-> | Hk0].
  - change (length (to_string 0)) with 1%nat. lia.
  - pose proof (to_string_leading k ltac:(lia)) as Hlead.
    destruct (to_string_spec k Hk) as (_ & _ & Hl).
    assert (Hlt : 10 ^ (Z.of_nat (length (to_string k)) - 1) < 10 ^ Z.of_nat (length s)) by lia.
    apply pow10_lt_inv in Hlt; lia.
Qed.

(** The value and the length of a sum. *)
Lemma add_strings_sum_length (s : cstring) (k : Z) :
  decimal_string s -> 0 <= k <= LLONG_MAX ->
  Z.of_nat (length s) <= INT_MAX + 1 ->
  exists r,
    add_strings s k = Some r /\
    value r = value s + k /\
    (value s + k < 10 ^ Z.of_nat (length s) -> length r = length s) /\
    (10 ^ Z.of_nat (length s) <= value s + k ->
     10 ^ (Z.of_nat (length r) - 1) <= value s + k < 10 ^ Z.of_nat (length r)).
Proof.
  intros Hs Hk Hlen.
  destruct (add_strings_exact s k Hs Hk Hlen) as (r & Hr & Hrd & Hrv & Hl).
  cbv zeta in Hl.
  exists r. split; [exact Hr |]. split; [exact Hrv |].
  pose proof (value_bounds r (proj2 Hrd)) as Hvr. rewrite Hrv in Hvr.
  pose proof (value_bounds s (proj2 Hs)) as [Hv _].
  destruct (to_string_spec k Hk) as (_ & _ & Hlk).
  split.
  - intros Hfit.
    pose proof (to_string_length_le s k Hs Hk Hfit) as Hle.
    rewrite Z.max_l in Hl by exact Hle.
    destruct (Z.leb_spec (10 ^ Z.of_nat (length s)) (value s + k)); lia.
  - intros Hbig. split; [| lia].
    set (M := Z.max (Z.of_nat (length s)) (Z.of_nat (length (to_string k)))) in *.
    destruct (Z.leb_spec (10 ^ M) (value s + k)) as [Hge | Hlt].
    + replace (Z.of_nat (length r) - 1) with M by lia. exact Hge.
    + rewrite Z.add_0_r in Hl. rewrite Hl.
      assert (HsM : Z.of_nat (length s) < M).
      { apply pow10_lt_inv; lia. }
      assert (HM : M = Z.of_nat (length (to_string k))) by lia.
      destruct (Z.eq_dec k 0) as [-> | Hk0].
      * change (length (to_string 0)) with 1%nat in HM.
        destruct s; [destruct Hs; congruence | cbn [length] in HsM; lia].
      * pose proof (to_string_leading k ltac:(lia)) as Hlead. rewrite HM. lia.
Qed.

(** X1. The length of a sum: [add_strings] keeps the length of its string
    operand (leading zeros included) whenever the sum fits that many
    digits, and otherwise returns the sum without a leading zero. *)
Theorem add_strings_length (s : cstring) (k : Z) :
  decimal_string s -> 0 <= k <= LLONG_MAX ->
  Z.of_nat (length s) <= INT_MAX + 1 ->
  exists r,
    add_strings s k = Some r /\
    value r = value s + k /\
    (value s + k < 10 ^ Z.of_nat (length s) -> length r = length s) /\
    (10 ^ Z.of_nat (length s) <= value s + k ->
     10 ^ (Z.of_nat (length r) - 1) <= value s + k < 10 ^ Z.of_nat (length r)).
Proof. exact (add_strings_sum_length s k). Qed.

Lemma add_strings_length_witness :
  add_strings (lit "0099") 1 = Some (lit "0100") /\
  add_strings (lit "99") 1 = Some (lit "100") /\
  exists r,
    add_strings (lit "0099") 1 = Some r /\ value r = 100 /\ length r = 4%nat.
Proof.
  split; [reflexivity |]. split; [reflexivity |].
  assert (Hs : decimal_string (lit "0099")) by (apply decimal_stringb_ok; reflexivity).
  destruct (add_strings_length (lit "0099") 1 Hs ltac:(vm_compute; split; discriminate)
                               ltac:(vm_compute; discriminate))
    as (r & Hr & Hv & Hsame & _).
  exists r. split; [exact Hr |]. split; [exact Hv |].
  apply Hsame. vm_compute. reflexivity.
Defined.

(** X2. Adding zero returns the string itself, leading zeros included. *)
Theorem add_strings_zero (s : cstring) :
  decimal_string s -> Z.of_nat (length s) <= INT_MAX + 1 ->
  add_strings s 0 = Some s.
Proof.
  intros Hs Hlen.
  assert (Hk : 0 <= 0 <= LLONG_MAX) by (unfold LLONG_MAX; lia).
  destruct (add_strings_correct s 0 Hs Hk Hlen) as (r & Hr & Hrd & Hrv & _).
  destruct (add_strings_sum_length s 0 Hs Hk Hlen) as (r' & Hr' & _ & Hsame & _).
  rewrite Hr in Hr'. injection Hr' as <-.
  pose proof (value_bounds s (proj2 Hs)) as Hv.
  rewrite Hr. f_equal.
  apply digit_strings_equal; [exact (proj2 Hrd) | exact (proj2 Hs) | | lia].
  apply Hsame. lia.
Qed.

Lemma add_strings_zero_witness :
  decimal_string (lit "007") /\ add_strings (lit "007") 0 = Some (lit "007").
Proof.
  assert (Hs : decimal_string (lit "007")) by (apply decimal_stringb_ok; reflexivity).
  split; [exact Hs |].
  apply (add_strings_zero (lit "007") Hs). vm_compute. discriminate.
Defined.

(** X3. A string without a leading zero stays without one: the digit count
    of every candidate is the number of digits of its value. *)
Theorem add_strings_no_leading_zero (s : cstring) (k : Z) :
  decimal_string s -> no_leading_zero s -> 0 <= k <= LLONG_MAX ->
  Z.of_nat (length s) <= INT_MAX + 1 ->
  exists r, add_strings s k = Some r /\ decimal_string r /\ no_leading_zero r.
Proof.
  intros Hs Hnz Hk Hlen.
  destruct (add_strings_correct s k Hs Hk Hlen) as (r & Hr & Hrd & Hrv & _).
  destruct (add_strings_sum_length s k Hs Hk Hlen) as (r' & Hr' & _ & Hsame & Hlonger).
  rewrite Hr in Hr'. injection Hr' as <-.
  exists r. split; [exact Hr |]. split; [exact Hrd |].
  destruct r as [| c [| c' r]]; [exact I | exact I |].
  cbn [no_leading_zero].
  apply (leading_digit_weight c (c' :: r) (proj2 Hrd)). rewrite Hrv.
  destruct (Z_lt_dec (value s + k) (10 ^ Z.of_nat (length s))) as [Hfit | Hbig].
  - specialize (Hsame Hfit).
    destruct s as [| d [| d' s]]; try discriminate.
    cbn [no_leading_zero] in Hnz.
    apply (leading_digit_weight d (d' :: s) (proj2 Hs)) in Hnz.
    injection Hsame as Hsame. cbn [length] in *. rewrite Hsame. lia.
  - destruct (Hlonger ltac:(lia)) as [Hlo _].
    cbn [length] in Hlo |- *. rewrite !Nat2Z.inj_succ in Hlo. rewrite Nat2Z.inj_succ.
    replace (Z.succ (Z.succ (Z.of_nat (length r))) - 1)
      with (Z.succ (Z.of_nat (length r))) in Hlo by lia.
    exact Hlo.
Qed.

Lemma add_strings_no_leading_zero_witness :
  exists r,
    add_strings (lit "9999999999999999997") 26 = Some r /\
    decimal_string r /\ no_leading_zero r.
Proof.
  assert (Hs : decimal_string (lit "9999999999999999997"))
    by (apply decimal_stringb_ok; reflexivity).
  apply (add_strings_no_leading_zero (lit "9999999999999999997") 26 Hs).
  - cbn. discriminate.
  - vm_compute. split; discriminate.
  - vm_compute. discriminate.
Defined.

Lemma pow10_digits_unique (x y S : Z) :
  1 <= x -> 1 <= y ->
  10 ^ (x - 1) <= S < 10 ^ x -> 10 ^ (y - 1) <= S < 10 ^ y -> x = y.
Proof.
  intros Hx Hy H1 H2.
  assert (A : x - 1 < y) by (apply pow10_lt_inv; lia).
  assert (B : y - 1 < x) by (apply pow10_lt_inv; lia).
  lia.
Qed.

(** X4. Two additions in a row are the addition of the sum: the chain
    of candidates is what one addition of all the gaps would give. *)
Theorem add_strings_compose (s r1 r2 : cstring) (a b : Z) :
  decimal_string s -> Z.of_nat (length s) <= INT_MAX ->
  0 <= a -> 0 <= b -> a + b <= LLONG_MAX ->
  add_strings s a = Some r1 -> add_strings r1 b = Some r2 ->
  add_strings s (a + b) = Some r2.
Proof.
  intros Hs Hlen Ha Hb Hab H1 H2.
  assert (Hlen' : Z.of_nat (length s) <= INT_MAX + 1) by lia.
  assert (Hka : 0 <= a <= LLONG_MAX) by lia.
  assert (Hkb : 0 <= b <= LLONG_MAX) by lia.
  assert (Hkab : 0 <= a + b <= LLONG_MAX) by lia.
  destruct (add_strings_correct s a Hs Hka Hlen') as (x1 & Hx1 & Hd1 & Hv1 & Hl1).
  rewrite H1 in Hx1. injection Hx1 as <-.
  assert (Hlen1 : Z.of_nat (length r1) <= INT_MAX + 1) by (unfold INT_MAX in *; lia).
  destruct (add_strings_correct r1 b Hd1 Hkb Hlen1) as (x2 & Hx2 & Hd2 & Hv2 & _).
  rewrite H2 in Hx2. injection Hx2 as <-.
  destruct (add_strings_correct s (a + b) Hs Hkab Hlen') as (r & Hr & Hd & Hv & _).
  destruct (add_strings_sum_length s a Hs Hka Hlen') as (y1 & Hy1 & _ & Hs1 & Hg1).
  rewrite H1 in Hy1. injection Hy1 as <-.
  destruct (add_strings_sum_length r1 b Hd1 Hkb Hlen1) as (y2 & Hy2 & _ & Hs2 & Hg2).
  rewrite H2 in Hy2. injection Hy2 as <-.
  destruct (add_strings_sum_length s (a + b) Hs Hkab Hlen') as (y & Hy & _ & Hs3 & Hg3).
  rewrite Hr in Hy. injection Hy as <-.
  rewrite Hr. f_equal.
  apply digit_strings_equal; [exact (proj2 Hd) | exact (proj2 Hd2) | | lia].
  rewrite Hv1 in Hs2, Hg2.
  replace (value s + a + b) with (value s + (a + b)) in Hs2, Hg2 by lia.
  assert (Hp : forall u : cstring, decimal_string u -> 1 <= Z.of_nat (length u)).
  { intros [| c u] [Hne _]; [congruence | cbn [length]; lia]. }
  pose proof (Hp s Hs). pose proof (Hp r1 Hd1). pose proof (Hp r2 Hd2). pose proof (Hp r Hd).
  apply Nat2Z.inj.
  set (L := Z.of_nat (length s)) in *. set (n1 := Z.of_nat (length r1)) in *.
  set (n2 := Z.of_nat (length r2)) in *. set (n := Z.of_nat (length r)) in *.
  set (S1 := value s + a) in *. set (S2 := value s + (a + b)) in *.
  assert (HS : S1 <= S2) by (subst S1 S2; lia).
  assert (Hmono : forall u v, 0 <= u <= v -> 10 ^ u <= 10 ^ v).
  { intros u v Huv. apply Z.pow_le_mono_r; lia. }
  destruct (Z_lt_dec S2 (10 ^ L)) as [Hfit | Hbig].
  - assert (E1 : n1 = L) by (subst n1 L; f_equal; apply Hs1; lia).
    assert (E : n = L) by (subst n L; f_equal; apply Hs3; lia).
    assert (E2 : n2 = n1) by (subst n2 n1; f_equal; apply Hs2; rewrite <- E1 in Hfit; lia).
    lia.
  - specialize (Hg3 ltac:(lia)).
    destruct (Z_lt_dec S1 (10 ^ L)) as [Hfit1 | Hbig1].
    + assert (E1 : n1 = L) by (subst n1 L; f_equal; apply Hs1; lia).
      rewrite E1 in Hg2. specialize (Hg2 ltac:(lia)).
      apply (pow10_digits_unique n n2 S2); lia.
    + specialize (Hg1 ltac:(lia)).
      destruct (Z_lt_dec S2 (10 ^ n1)) as [Hfit2 | Hbig2].
      * assert (E2 : n2 = n1) by (subst n2 n1; f_equal; apply Hs2; lia).
        rewrite E2. apply (pow10_digits_unique n n1 S2); lia.
      * specialize (Hg2 ltac:(lia)).
        apply (pow10_digits_unique n n2 S2); lia.
Qed.

Lemma add_strings_compose_witness :
  add_strings (lit "9999999967") 6 = Some (lit "9999999973") /\
  add_strings (lit "9999999973") 30 = Some (lit "10000000003") /\
  add_strings (lit "9999999967") (6 + 30) = Some (lit "10000000003").
Proof.
  assert (Hs : decimal_string (lit "9999999967")) by (apply decimal_stringb_ok; reflexivity).
  assert (H1 : add_strings (lit "9999999967") 6 = Some (lit "9999999973")) by reflexivity.
  assert (H2 : add_strings (lit "9999999973") 30 = Some (lit "10000000003")) by reflexivity.
  split; [exact H1 |]. split; [exact H2 |].
  apply (add_strings_compose (lit "9999999967") (lit "9999999973") (lit "10000000003") 6 30 Hs);
    try exact H1; try exact H2; vm_compute; discriminate.
Defined.

(** ** A negative addend *)

Lemma int_to_char_value (d : Z) :
  -3 <= d <= 9 -> digit_of (int_to_char (d + char_0)) = d.
Proof.
  intros H.
  assert (Hc : d = -3 \/ d = -2 \/ d = -1 \/ 0 <= d <= 9) by lia.
  destruct Hc as [-> | [-> | [-> | Hd]]]; try reflexivity.
  apply int_to_char_digit. exact Hd.
Qed.

Lemma quot_rem_small (x : Z) :
  -3 <= x <= 19 ->
  0 <= Z.quot x 10 <= 1 /\ -3 <= Z.rem x 10 <= 9 /\ x = 10 * Z.quot x 10 + Z.rem x 10.
Proof.
  intros H. pose proof (Z.quot_rem' x 10) as Hqr.
  destruct (Z_le_dec 0 x) as [Hpos | Hneg].
  - rewrite Z.quot_div_nonneg, Z.rem_mod_nonneg in * by lia.
    pose proof (Z.mod_pos_bound x 10 ltac:(lia)). lia.
  - assert (Hc : x = -3 \/ x = -2 \/ x = -1) by lia.
    destruct Hc as [-> | [-> | ->]]; vm_compute; repeat split; discriminate.
Qed.

(** One round of the loop on an operand whose characters are digits or
    the three characters just below ['0'], the minus sign among them. *)
Lemma consume_char (l : cstring) (i : Z) :
  Forall (fun c => -3 <= digit_of c <= 9) l -> i < Z.of_nat (length l) ->
  let a := if 0 <=? i then digit_of (char_at l i) else 0 in
  let i' := if 0 <=? i then i - 1 else i in
  value (firstn (Z.to_nat (i + 1)) l) = value (firstn (Z.to_nat (i' + 1)) l) * 10 + a /\
  -3 <= a <= 9 /\
  i' < Z.of_nat (length l) /\
  (0 <= i -> i' = i - 1) /\ (i < 0 -> i' = i /\ a = 0).
Proof.
  intros Hl Hi. cbv zeta.
  destruct (Z.leb_spec 0 i) as [Hpos | Hneg].
  - replace (Z.to_nat (i + 1)) with (S (Z.to_nat i)) by lia.
    replace (i - 1 + 1) with i by lia.
    rewrite firstn_snoc_nth by lia. rewrite value_snoc.
    unfold char_at.
    assert (Hd : -3 <= digit_of (nth (Z.to_nat i) l zero) <= 9).
    { rewrite Forall_forall in Hl. apply Hl. apply nth_In. lia. }
    repeat split; lia.
  - replace (Z.to_nat (i + 1)) with O by lia. simpl. repeat split; lia.
Qed.

Lemma add_loop_value (large small : cstring) :
  all_digits large -> Forall (fun c => -3 <= digit_of c <= 9) small ->
  forall (fuel : nat) (i j carry : Z) (result : cstring),
    i < Z.of_nat (length large) -> j < Z.of_nat (length small) ->
    0 <= carry <= 1 ->
    (let n := Z.of_nat (Z.to_nat (i + 1)) + Z.of_nat (Z.to_nat (j + 1)) in
     (0 < n -> Z.max (i + 1) (j + 1) + 2 <= Z.of_nat fuel) /\
     (n = 0 -> carry + 1 <= Z.of_nat fuel)) ->
    exists r,
      add_loop fuel large small i j carry result = Some r /\
      value r = (value (firstn (Z.to_nat (i + 1)) large)
                 + value (firstn (Z.to_nat (j + 1)) small) + carry)
                * 10 ^ Z.of_nat (length result) + value result.
Proof.
  intros Hlarge Hsmall.
  induction fuel as [| fuel IH]; intros i j carry result Hi Hj Hc Hfuel.
  { cbv zeta in Hfuel. exfalso. lia. }
  cbn [add_loop].
  destruct ((0 <=? i) || (0 <=? j) || negb (carry =? 0)) eqn:Hcond.
  - pose proof (consume_digit large i Hlarge Hi) as Hx.
    pose proof (consume_char small j Hsmall Hj) as Hy.
    cbv zeta in Hx, Hy.
    set (a := if 0 <=? i then digit_of (char_at large i) else 0) in *.
    set (b := if 0 <=? j then digit_of (char_at small j) else 0) in *.
    set (i' := if 0 <=? i then i - 1 else i) in *.
    set (j' := if 0 <=? j then j - 1 else j) in *.
    destruct Hx as (Hx & Ha & Hi' & Hipos & Hineg).
    destruct Hy as (Hy & Hb & Hj' & Hjpos & Hjneg).
    replace (if 0 <=? i then carry + digit_of (char_at large i) else carry)
      with (carry + a) by (subst a; destruct (0 <=? i); lia).
    replace (if 0 <=? j then carry + a + digit_of (char_at small j) else carry + a)
      with (carry + a + b) by (subst b; destruct (0 <=? j); lia).
    set (sum := carry + a + b).
    assert (Hsum : -3 <= sum <= 19) by (subst sum; lia).
    destruct (quot_rem_small sum Hsum) as (Hq & Hr & Hqr).
    pose proof (int_to_char_value (Z.rem sum 10) Hr) as Hv.
    assert (Hlast : i < 0 -> j < 0 -> carry = 1 -> Z.quot sum 10 = 0).
    { intros Hi0 Hj0 Hc1. replace sum with 1 by (subst sum; lia). reflexivity. }
    assert (Hnz : 0 <= i \/ 0 <= j \/ carry = 1).
    { apply orb_true_iff in Hcond. destruct Hcond as [Hcond | Hcond].
      - apply orb_true_iff in Hcond. destruct Hcond as [H | H]; apply Z.leb_le in H; lia.
      - apply negb_true_iff in Hcond. apply Z.eqb_neq in Hcond. lia. }
    destruct (IH i' j' (Z.quot sum 10) (int_to_char (Z.rem sum 10 + char_0) :: result)
                 Hi' Hj' Hq) as (r & Hrun & Hval).
    { cbv zeta in Hfuel |- *. split; intros Hn.
      - destruct Hfuel as [Hf _]. lia.
      - destruct Hfuel as [Hf1 Hf2].
        destruct (Z_lt_dec i 0); destruct (Z_lt_dec j 0); lia. }
    exists r. split; [exact Hrun |].
    rewrite Hval, value_cons_eq, Hv, Hx, Hy.
    cbn [length]. rewrite Nat2Z.inj_succ, Z.pow_succ_r by lia.
    set (p := 10 ^ Z.of_nat (length result)).
    set (A := value (firstn (Z.to_nat (i' + 1)) large)).
    set (B := value (firstn (Z.to_nat (j' + 1)) small)).
    replace (A * 10 + a + (B * 10 + b) + carry) with ((A + B) * 10 + sum) by (subst sum; ring).
    set (q := Z.quot sum 10) in *. set (m := Z.rem sum 10) in *.
    rewrite Hqr. ring.
  - apply orb_false_iff in Hcond. destruct Hcond as [Hcond Hcar].
    apply orb_false_iff in Hcond. destruct Hcond as [Hin Hjn].
    apply Z.leb_gt in Hin. apply Z.leb_gt in Hjn.
    apply negb_false_iff in Hcar. apply Z.eqb_eq in Hcar. subst carry.
    exists result. split; [reflexivity |].
    replace (Z.to_nat (i + 1)) with O by lia.
    replace (Z.to_nat (j + 1)) with O by lia.
    simpl firstn. simpl value. lia.
Qed.

(** X5. [add_strings] does not subtract.  For a negative addend
    [std::to_string] starts with a minus sign, which the loop takes for
    the digit ['-' - '0' = -3]: on a non-empty digit string [s] of at most
    2^31 characters the characters of the result carry the value
    [value s + |k| - 3 * 10^m] where [m] is the number of digits of [|k|],
    and that is never [value s + k]. *)
Theorem add_strings_negative (s : cstring) (k : Z) :
  decimal_string s -> LLONG_MIN <= k < 0 ->
  Z.of_nat (length s) <= INT_MAX + 1 ->
  exists r,
    add_strings s k = Some r /\
    value r = value s + (- k) - 3 * 10 ^ (Z.of_nat (length (to_string k)) - 1) /\
    value r <> value s + k.
Proof.
  intros Hs Hk Hlen. unfold LLONG_MIN in Hk.
  assert (Hstr : to_string k = "-"%char :: decimal_digits 20 (- k) []).
  { unfold to_string. destruct (Z.ltb_spec k 0); [reflexivity | lia]. }
  assert (Hrange : 0 <= - k < 10 ^ Z.of_nat 20).
  { change (10 ^ Z.of_nat 20) with 100000000000000000000. lia. }
  destruct (decimal_digits_spec 20 (- k) [] Hrange ltac:(constructor))
    as (Hdig & Hval & Hl & _).
  pose proof (decimal_digits_leading 20 (- k) [] ltac:(lia)) as Hlead.
  pose proof (value_bounds _ Hdig) as Hvb.
  cbn [length] in Hl, Hlead, Hval. rewrite Z.sub_0_r in Hlead.
  set (ds := decimal_digits 20 (- k) []) in *.
  assert (Hsmall : Forall (fun c => -3 <= digit_of c <= 9) (to_string k)).
  { rewrite Hstr. constructor; [vm_compute; split; discriminate |].
    apply Forall_forall. intros c Hc.
    unfold all_digits in Hdig. rewrite Forall_forall in Hdig.
    pose proof (is_digit_range c (Hdig c Hc)). lia. }
  assert (Hj : last_index (to_string k) = Z.of_nat (length (to_string k)) - 1).
  { apply last_index_short. rewrite Hstr. cbn [length]. unfold INT_MAX. lia. }
  assert (Hjlt : last_index (to_string k) < Z.of_nat (length (to_string k))) by lia.
  assert (Hc0 : 0 <= 0 <= 1) by lia.
  destruct (add_loop_value s (to_string k) (proj2 Hs) Hsmall
              (add_strings_fuel s (to_string k))
              (last_index s) (last_index (to_string k)) 0 []
              (last_index_lt s) Hjlt Hc0)
    as (r & Hr & Hrv).
  { pose proof (last_index_lt s). unfold add_strings_fuel. cbv zeta. lia. }
  exists r. split; [exact Hr |].
  rewrite (last_index_short s Hlen), Hj in Hrv.
  replace (Z.to_nat (Z.of_nat (length s) - 1 + 1)) with (length s) in Hrv by lia.
  replace (Z.to_nat (Z.of_nat (length (to_string k)) - 1 + 1))
    with (length (to_string k)) in Hrv by lia.
  rewrite !firstn_all in Hrv. cbn [length value] in Hrv.
  rewrite Hstr in Hrv |- *. rewrite value_cons_eq in Hrv.
  change (digit_of "-") with (-3) in Hrv.
  cbn [length]. rewrite Nat2Z.inj_succ.
  replace (Z.succ (Z.of_nat (length ds)) - 1) with (Z.of_nat (length ds)) by lia.
  replace (Z.of_nat (length ds) - 1 + 1) with (Z.of_nat (length ds)) in * by lia.
  pose proof (decimal_digits_grows 20 (- k) [] ltac:(discriminate)) as Hgrow.
  fold ds in Hgrow. cbn [length] in Hgrow.
  assert (Hm : 1 <= Z.of_nat (length ds)) by lia.
  change (10 ^ Z.of_nat 0) with 1 in Hval, Hrv. change (value []) with 0 in Hval.
  assert (Hpow : 10 ^ Z.of_nat (length ds) = 10 * 10 ^ (Z.of_nat (length ds) - 1)).
  { rewrite <- Z.pow_succ_r by lia. f_equal. lia. }
  set (P := 10 ^ Z.of_nat (length ds)) in *.
  split; lia.
Qed.

Lemma add_strings_negative_witness :
  add_strings (lit "50") (-1) = Some (lit "21") /\
  add_strings (lit "10") (-1) = Some (lit ".1") /\
  exists r, add_strings (lit "50") (-1) = Some r /\ value r <> 50 + (-1).
Proof.
  split; [reflexivity |]. split; [reflexivity |].
  assert (Hs : decimal_string (lit "50")) by (apply decimal_stringb_ok; reflexivity).
  destruct (add_strings_negative (lit "50") (-1) Hs ltac:(vm_compute; split; [discriminate | reflexivity])
                                 ltac:(vm_compute; discriminate))
    as (r & Hr & _ & Hne).
  exists r. split; [exact Hr | exact Hne].
Defined.

(** * Further properties of the predictor *)

(** X6. Away from the two literals, [determine_prime_set] answers
    [SET_NONE] exactly for the numbers divisible by 2 or by 3: every
    number coprime to 6 falls into one of the four sets. *)
Theorem prime_set_none_iff (s : cstring) :
  decimal_string s -> s <> lit "2" -> s <> lit "3" ->
  (determine_prime_set s = SET_NONE <-> value s mod 2 = 0 \/ value s mod 3 = 0).
Proof.
  intros Hs H2 H3.
  rewrite (determine_prime_set_spec s Hs). unfold spec_prime_set.
  rewrite (cstring_eqb_neq _ _ H2), (cstring_eqb_neq _ _ H3).
  pose proof (Z.mod_pos_bound (value s) 12 ltac:(lia)) as Hr.
  pose proof (Z.div_mod (value s) 12 ltac:(lia)) as Hdm.
  assert (Hm2 : value s mod 2 = (value s mod 12) mod 2).
  { rewrite Hdm at 1. rewrite Z.add_comm.
    replace (12 * (value s / 12)) with (6 * (value s / 12) * 2) by ring.
    apply Z_mod_plus_full. }
  assert (Hm3 : value s mod 3 = (value s mod 12) mod 3).
  { rewrite Hdm at 1. rewrite Z.add_comm.
    replace (12 * (value s / 12)) with (4 * (value s / 12) * 3) by ring.
    apply Z_mod_plus_full. }
  rewrite Hm2, Hm3. clear Hm2 Hm3 Hdm.
  set (r := value s mod 12) in *.
  assert (Hc : r = 0 \/ r = 1 \/ r = 2 \/ r = 3 \/ r = 4 \/ r = 5 \/ r = 6 \/ r = 7
               \/ r = 8 \/ r = 9 \/ r = 10 \/ r = 11) by lia.
  clearbody r.
  repeat (destruct Hc as [-> | Hc];
          [vm_compute; split; [intros; auto; try discriminate | intros [H | H]; try reflexivity; discriminate] |]).
  subst r. vm_compute. split; [discriminate | intros [H | H]; discriminate].
Qed.

Lemma prime_set_none_iff_witness :
  determine_prime_set (lit "9999999973") = SET_A /\
  (determine_prime_set (lit "9999999969") = SET_NONE <->
   value (lit "9999999969") mod 2 = 0 \/ value (lit "9999999969") mod 3 = 0).
Proof.
  split; [reflexivity |].
  apply prime_set_none_iff; [apply decimal_stringb_ok; reflexivity | discriminate | discriminate].
Defined.

(** ** The two table corrections *)

Lemma mod_7_term_table (r : Z) :
  0 <= r < 7 ->
  mod_7_term (nth (Z.to_nat r) ulam_delta_correction_7 0) = if r =? 1 then 1 else 0.
Proof.
  intros Hr.
  assert (Hc : r = 0 \/ r = 1 \/ r = 2 \/ r = 3 \/ r = 4 \/ r = 5 \/ r = 6) by lia.
  repeat (destruct Hc as [-> | Hc]; [vm_compute; reflexivity |]).
  subst r. vm_compute. reflexivity.
Qed.

Section PredictorSteps.

Context {L : Libm}.

(** X7. Of the seven entries of [ulam_delta_correction_7] only the one for
    residue 1 reaches the gap: [round(delta_7 * pi / 10)] is 1 for the
    entry 3 and 0 for the entries 1, -1 and 0.  So the [delta_final] a
    call stores is the entry of [ulam_delta_correction_12] for the prime
    set of the input, plus 1 exactly when the input is 1 modulo 7, and it
    lies between -6 and 3. *)
Theorem delta_final_by_residue (s : cstring) (m : PredictionMetrics) (g : globals)
        (gap : Z) (next : cstring) (metrics : PredictionMetrics) (g' : globals) :
  decimal_string s ->
  LGO_Predict_Deterministic s m g = Ok ((gap, next), metrics, g') ->
  delta_out metrics
  = ulam_delta_of (determine_prime_set s) + (if value s mod 7 =? 1 then 1 else 0) /\
  -6 <= delta_out metrics <= 3.
Proof.
  intros Hs Hrun.
  destruct (predict_returns_inv s m g gap next metrics g' Hs Hrun) as (_ & _ & _ & Hm & _).
  assert (Hd : delta_out metrics = delta_final_of (delta_12_of s) (delta_7_of s))
    by (rewrite Hm; reflexivity).
  rewrite Hd. unfold delta_final_of, delta_7_of.
  rewrite (mod_7_term_table _ (calculate_mod_7_range s (proj2 Hs))).
  assert (H7 : calculate_mod_7 s = value s mod 7)
    by (apply mod_loop_value; [lia | exact (proj2 Hs)]).
  rewrite H7.
  assert (H12 : delta_12_of s = ulam_delta_of (determine_prime_set s)).
  { unfold delta_12_of. destruct (determine_prime_set s); reflexivity. }
  rewrite H12.
  destruct (determine_prime_set s); destruct (value s mod 7 =? 1);
    vm_compute; repeat split; discriminate.
Qed.

(** ** The candidate grows and keeps its parity *)

Lemma odd_add_even (a b : Z) : Z.even b = true -> Z.odd (a + b) = Z.odd a.
Proof.
  intros Hb. rewrite Z.odd_add. rewrite <- (Z.negb_even b), Hb. destruct (Z.odd a); reflexivity.
Qed.

(** What a call returns denotes the input plus the gap. *)
Lemma predict_returns_sum (s : cstring) (m : PredictionMetrics) (g : globals)
        (gap : Z) (next : cstring) (metrics : PredictionMetrics) (g' : globals) :
  decimal_string s -> Z.of_nat (length s) <= INT_MAX + 1 ->
  LGO_Predict_Deterministic s m g = Ok ((gap, next), metrics, g') ->
  decimal_string next /\
  value next = value s + gap /\
  value s + 2 <= value next /\
  Z.odd (value next) = Z.odd (value s) /\
  (length s <= length next <= Nat.max (length s) 20 + 1)%nat.
Proof.
  intros Hs Hlen Hrun.
  destruct (predict_returns_inv s m g gap next metrics g' Hs Hrun)
    as (_ & Hgap & Hadd & _ & _).
  destruct (final_gap_of_range s (lead_of s) (delta_12_of s) (delta_7_of s)) as [He Hr].
  rewrite <- gap_of_eq, <- Hgap in He, Hr. rewrite <- Hgap in Hadd.
  destruct (add_strings_correct s gap Hs ltac:(lia) Hlen) as (r & Hr' & Hrd & Hrv & Hrl).
  rewrite Hadd in Hr'. injection Hr' as <-.
  split; [exact Hrd |]. split; [exact Hrv |]. split; [lia |].
  split; [rewrite Hrv; apply odd_add_even; exact He | exact Hrl].
Qed.

(** X8. A call that returns on a digit string of at most 2^31 characters
    returns a digit string that denotes the input plus the gap: a number
    larger than the input by at least 2 and of the same parity, written
    with at least as many characters as the input and at most one more
    than the longer of the input and a [long long]. *)
Theorem prediction_increases (s : cstring) (m : PredictionMetrics) (g : globals)
        (gap : Z) (next : cstring) (metrics : PredictionMetrics) (g' : globals) :
  decimal_string s -> Z.of_nat (length s) <= INT_MAX + 1 ->
  LGO_Predict_Deterministic s m g = Ok ((gap, next), metrics, g') ->
  decimal_string next /\
  value next = value s + gap /\
  value s + 2 <= value next /\
  Z.odd (value next) = Z.odd (value s) /\
  (length s <= length next <= Nat.max (length s) 20 + 1)%nat.
Proof. exact (predict_returns_sum s m g gap next metrics g'). Qed.

Lemma prediction_step_inv (s s' : cstring) (g g' : globals) :
  prediction_step (s, g) = Ok (s', g') ->
  exists gap metrics,
    LGO_Predict_Deterministic s PredictionMetrics_init g = Ok ((gap, s'), metrics, g').
Proof.
  unfold prediction_step.
  destruct (LGO_Predict_Deterministic s PredictionMetrics_init g)
    as [[[[gap next] metrics] g1] | e].
  - rewrite bind_Ok. intros H. injection H as -> ->. exists gap, metrics. reflexivity.
  - rewrite bind_Err. discriminate.
Qed.

(** X9. Along a chain of [n] predictions, each fed with the candidate of
    the one before, from a non-empty digit string [s] with
    [max(length s, 20) + n <= 2^31]: if the [n] calls return, the
    candidate after the [n]-th call is a digit string that denotes a
    number at least [2 * n] above the start and of the parity of the
    start (from an even start no candidate is odd), of a length between
    that of the start and [max(length s, 20) + n]. *)
Theorem prediction_chain_increases (n : nat) (s : cstring) (g : globals)
        (st : cstring * globals) :
  decimal_string s ->
  Z.max (Z.of_nat (length s)) 20 + Z.of_nat n <= INT_MAX + 1 ->
  prediction_chain n (s, g) = Ok st ->
  decimal_string (fst st) /\
  value s + 2 * Z.of_nat n <= value (fst st) /\
  Z.odd (value (fst st)) = Z.odd (value s) /\
  Z.of_nat (length s) <= Z.of_nat (length (fst st))
    <= Z.max (Z.of_nat (length s)) 20 + Z.of_nat n.
Proof.
  revert s g. induction n as [| n IH]; intros s g Hs Hlen Hchain.
  - cbn [prediction_chain] in Hchain. injection Hchain as <-. cbn [fst].
    split; [exact Hs |]. split; [lia |]. split; [reflexivity | lia].
  - cbn [prediction_chain] in Hchain.
    destruct (prediction_step (s, g)) as [[s' g'] | e] eqn:Hstep.
    + rewrite bind_Ok in Hchain.
      destruct (prediction_step_inv s s' g g' Hstep) as (gap & metrics & Hrun).
      destruct (predict_returns_sum s _ g gap s' metrics g' Hs ltac:(lia) Hrun)
        as (Hs' & _ & Hv & Hodd & Hl).
      assert (Hlen' : Z.max (Z.of_nat (length s')) 20 + Z.of_nat n <= INT_MAX + 1) by lia.
      destruct (IH s' g' Hs' Hlen' Hchain) as (Hd & Hv' & Hodd' & Hl').
      split; [exact Hd |]. split; [lia |].
      split; [rewrite Hodd'; exact Hodd | lia].
    + rewrite bind_Err in Hchain. discriminate.
Qed.

End PredictorSteps.

Lemma delta_final_by_residue_witness :
  let s := lit "9999999967" in
  exists gap next metrics g',
    LGO_Predict_Deterministic (L := CoarseLibm) s PredictionMetrics_init globals_init
      = Ok ((gap, next), metrics, g') /\
    determine_prime_set s = SET_C /\ value s mod 7 = 6 /\
    delta_out metrics = -1.
Proof.
  intros s.
  assert (Hs : decimal_string s) by (apply decimal_stringb_ok; reflexivity).
  assert (Hlt : (value s < ld_overflow_threshold (ld_format (Libm := CoarseLibm)))%Z)
    by (vm_compute; reflexivity).
  destruct (predict_total (L := CoarseLibm) s PredictionMetrics_init globals_init Hs Hlt)
    as (next & metrics & g' & Hrun & _ & _).
  exists (gap_of (L := CoarseLibm) s), next, metrics, g'.
  destruct (delta_final_by_residue (L := CoarseLibm) s _ _ _ next metrics g' Hs Hrun)
    as (Hd & _).
  split; [exact Hrun |]. split; [reflexivity |]. split; [reflexivity |].
  rewrite Hd. reflexivity.
Defined.

Lemma prediction_increases_witness :
  let s := lit "9999999967" in
  exists gap next metrics g',
    LGO_Predict_Deterministic (L := CoarseLibm) s PredictionMetrics_init globals_init
      = Ok ((gap, next), metrics, g') /\
    decimal_string next /\
    value next = value s + gap /\
    Z.odd (value next) = true.
Proof.
  intros s.
  assert (Hs : decimal_string s) by (apply decimal_stringb_ok; reflexivity).
  assert (Hlt : (value s < ld_overflow_threshold (ld_format (Libm := CoarseLibm)))%Z)
    by (vm_compute; reflexivity).
  assert (Hlen : Z.of_nat (length s) <= INT_MAX + 1) by (vm_compute; discriminate).
  destruct (predict_total (L := CoarseLibm) s PredictionMetrics_init globals_init Hs Hlt)
    as (next & metrics & g' & Hrun & _ & _).
  exists (gap_of (L := CoarseLibm) s), next, metrics, g'.
  destruct (prediction_increases (L := CoarseLibm) s _ _ _ next metrics g' Hs Hlen Hrun)
    as (Hd & Hv & _ & Hodd & _).
  split; [exact Hrun |]. split; [exact Hd |]. split; [exact Hv |].
  rewrite Hodd. reflexivity.
Defined.

Lemma prediction_chain_increases_witness :
  let s := lit "9999999967" in
  exists st,
    prediction_chain (L := CoarseLibm) 3 (s, globals_init) = Ok st /\
    decimal_string (fst st) /\
    value s + 6 <= value (fst st) /\
    Z.odd (value (fst st)) = true.
Proof.
  intros s.
  assert (Hs : decimal_string s) by (apply decimal_stringb_ok; reflexivity).
  assert (Hlen : Z.max (Z.of_nat (length s)) 20 + Z.of_nat 3 <= INT_MAX + 1)
    by (vm_compute; discriminate).
  destruct (prediction_chain_total (L := CoarseLibm) s 3 globals_init
              ltac:(left; reflexivity) ltac:(vm_compute; discriminate))
    as (st & Hchain & _).
  exists st.
  destruct (prediction_chain_increases (L := CoarseLibm) 3 s globals_init st Hs Hlen Hchain)
    as (Hd & Hv & Hodd & _).
  split; [exact Hchain |]. split; [exact Hd |]. split; [exact Hv |].
  rewrite Hodd. reflexivity.
Defined.

(** * The sequence file *)

(** ** Lines *)

Lemma lines_of_not_nil (u : cstring) : lines_of u <> [].
Proof.
  destruct u as [| c r]; cbn [lines_of]; [discriminate |].
  destruct (Ascii.eqb c newline); [discriminate |].
  destruct (lines_of r); discriminate.
Qed.

Lemma last_default_irrelevant {A : Type} (l : list A) (d d' : A) :
  l <> [] -> last l d = last l d'.
Proof.
  induction l as [| x l IH]; intros Hne; [congruence |].
  destruct l as [| y l']; [reflexivity |].
  change (last (y :: l') d = last (y :: l') d'). apply IH. discriminate.
Qed.

Lemma last_app_default {A : Type} (a b : list A) (d : A) :
  last (a ++ b) d = last b (last a d).
Proof.
  induction a as [| x a IH]; [reflexivity |].
  destruct a as [| y a'].
  - destruct b as [| z b']; [reflexivity |].
    change (last (z :: b') d = last (z :: b') x).
    apply last_default_irrelevant. discriminate.
  - exact IH.
Qed.

Lemma extract_line_shorter (c : ascii) (r : cstring) :
  (length (snd (extract_line (c :: r))) <= length r)%nat.
Proof.
  revert c. induction r as [| d r IH]; intros c.
  - cbn [extract_line]. destruct (Ascii.eqb c newline); cbn; lia.
  - cbn [extract_line] in *. destruct (Ascii.eqb c newline); [cbn; lia |].
    specialize (IH d).
    destruct (Ascii.eqb d newline); [cbn in *; lia |].
    destruct (extract_line r) as [line rest']. cbn [snd length] in *. lia.
Qed.

(** The first line [std::getline] delivers is the first of [lines_of], and
    the non-empty lines that follow are those of what it leaves unread. *)
Lemma lines_of_extract (u : cstring) :
  exists more,
    lines_of u = fst (extract_line u) :: more /\
    filter (fun line => negb (is_empty line)) more = nonempty_lines (snd (extract_line u)).
Proof.
  induction u as [| c r IH].
  - exists []. split; reflexivity.
  - cbn [lines_of extract_line]. destruct (Ascii.eqb c newline).
    + exists (lines_of r). split; reflexivity.
    + destruct IH as (more & Hl & Hf). rewrite Hl.
      destruct (extract_line r) as [line rest']. cbn [fst snd] in *.
      exists more. split; [reflexivity | exact Hf].
Qed.

Lemma load_loop_spec (fuel : nat) :
  forall unread last_line : cstring,
    (length unread < fuel)%nat ->
    load_loop fuel unread last_line = Some (last (nonempty_lines unread) last_line).
Proof.
  induction fuel as [| fuel IH]; intros unread last_line Hfuel; [lia |].
  destruct unread as [| c r]; [reflexivity |].
  cbn [load_loop getline].
  pose proof (extract_line_shorter c r) as Hshort.
  destruct (lines_of_extract (c :: r)) as (more & Hl & Hf).
  destruct (extract_line (c :: r)) as [current_line unread'].
  cbn [fst snd] in *. cbn [length] in Hfuel.
  rewrite IH by lia.
  unfold nonempty_lines at 2. rewrite Hl. cbn [filter]. rewrite Hf.
  destruct (negb (is_empty current_line)); [| reflexivity].
  change (current_line :: nonempty_lines unread')
    with ([current_line] ++ nonempty_lines unread').
  rewrite last_app_default. reflexivity.
Qed.

Lemma load_last_prime_spec (fs : file_system) :
  load_last_prime fs = Some (last (nonempty_lines (file_text fs)) []).
Proof.
  unfold load_last_prime, file_text.
  destruct (sequence_file fs) as [content |].
  - rewrite load_loop_spec by lia.
    destruct (last (nonempty_lines content) []); reflexivity.
  - reflexivity.
Qed.

Lemma eqb_newline (c : ascii) : Ascii.eqb c newline = true <-> c = newline.
Proof. apply Ascii.eqb_eq. Qed.

Lemma lines_of_newline_free (u line : cstring) :
  In line (lines_of u) -> ~ In newline line.
Proof.
  revert line. induction u as [| c r IH]; intros line Hin.
  - cbn in Hin. destruct Hin as [<- | []]. intros [].
  - cbn [lines_of] in Hin. destruct (Ascii.eqb c newline) eqn:Ec.
    + destruct Hin as [<- | Hin]; [intros [] | apply IH; exact Hin].
    + pose proof (lines_of_not_nil r) as Hne.
      destruct (lines_of r) as [| first more]; [congruence |].
      destruct Hin as [<- | Hin].
      * intros [Hc | Hc].
        -- subst c. rewrite Ascii.eqb_refl in Ec. discriminate.
        -- apply (IH first); [left; reflexivity | exact Hc].
      * apply IH. right. exact Hin.
Qed.

Lemma nonempty_lines_nil (u : cstring) :
  nonempty_lines u = [] <-> (forall c, In c u -> c = newline).
Proof.
  induction u as [| c r IH].
  - split; [intros _ c [] | reflexivity].
  - unfold nonempty_lines in *. cbn [lines_of]. destruct (Ascii.eqb c newline) eqn:Ec.
    + cbn [filter is_empty negb]. rewrite IH. apply eqb_newline in Ec. subst c.
      split.
      * intros H c [<- | Hc]; [reflexivity | apply H; exact Hc].
      * intros H c Hc. apply H. right. exact Hc.
    + pose proof (lines_of_not_nil r) as Hne.
      destruct (lines_of r) as [| first more]; [congruence |].
      cbn [filter is_empty negb]. split; [discriminate |].
      intros H. specialize (H c (or_introl eq_refl)). subst c.
      rewrite Ascii.eqb_refl in Ec. discriminate.
Qed.

Lemma last_in_or_default {A : Type} (l : list A) (d : A) :
  l = [] /\ last l d = d \/ In (last l d) l.
Proof.
  induction l as [| x l IH]; [left; split; reflexivity |].
  right. destruct l as [| y l']; [left; reflexivity |].
  destruct IH as [[H _] | IH]; [discriminate |].
  right. exact IH.
Qed.

(** ** Appending a line *)

Lemma lines_of_app_newline (a b : cstring) :
  lines_of (a ++ newline :: b) = lines_of a ++ lines_of b.
Proof.
  induction a as [| c a IH]; [reflexivity |].
  cbn [app lines_of]. rewrite IH.
  destruct (Ascii.eqb c newline); [reflexivity |].
  pose proof (lines_of_not_nil a) as Hne.
  destruct (lines_of a) as [| first more]; [congruence | reflexivity].
Qed.

Lemma lines_of_plain (p : cstring) : ~ In newline p -> lines_of p = [p].
Proof.
  induction p as [| c p IH]; intros Hp; [reflexivity |].
  cbn [lines_of]. destruct (Ascii.eqb c newline) eqn:Ec.
  - apply eqb_newline in Ec. subst c. exfalso. apply Hp. left. reflexivity.
  - rewrite IH; [reflexivity |]. intros H. apply Hp. right. exact H.
Qed.

Lemma lines_of_app_plain (a p : cstring) :
  ~ In newline p ->
  lines_of (a ++ p) = removelast (lines_of a) ++ [last (lines_of a) [] ++ p].
Proof.
  intros Hp. induction a as [| c a IH]; [apply lines_of_plain; exact Hp |].
  cbn [app lines_of]. rewrite IH.
  pose proof (lines_of_not_nil a) as Hne.
  destruct (lines_of a) as [| first more]; [congruence |].
  destruct (Ascii.eqb c newline).
  - reflexivity.
  - destruct more as [| second more']; reflexivity.
Qed.

Lemma filter_removelast_last (l : list cstring) :
  last l [] = [] ->
  filter (fun line => negb (is_empty line)) (removelast l)
  = filter (fun line => negb (is_empty line)) l.
Proof.
  induction l as [| x l IH]; intros Hlast; [reflexivity |].
  destruct l as [| y l'].
  - cbn in Hlast. subst x. reflexivity.
  - change (removelast (x :: y :: l')) with (x :: removelast (y :: l')).
    cbn [filter]. rewrite IH; [reflexivity | exact Hlast].
Qed.

Lemma file_text_save (p : cstring) (fs : file_system) :
  append_opens fs = true ->
  file_text (save_new_prime p fs) = file_text fs ++ p ++ [newline] /\
  append_opens (save_new_prime p fs) = true.
Proof.
  intros Ha. unfold save_new_prime, file_text. rewrite Ha. cbn.
  split; [| reflexivity]. destruct (sequence_file fs); reflexivity.
Qed.

Lemma lines_of_save (p : cstring) (fs : file_system) :
  append_opens fs = true -> ~ In newline p ->
  lines_of (file_text (save_new_prime p fs))
  = removelast (lines_of (file_text fs)) ++ [unterminated_tail fs ++ p; []].
Proof.
  intros Ha Hp. destruct (file_text_save p fs Ha) as [-> _].
  rewrite app_assoc. change [newline] with (newline :: []).
  rewrite lines_of_app_newline, (lines_of_app_plain _ p Hp), <- app_assoc.
  reflexivity.
Qed.

Lemma unterminated_tail_save (p : cstring) (fs : file_system) :
  append_opens fs = true -> ~ In newline p ->
  unterminated_tail (save_new_prime p fs) = [].
Proof.
  intros Ha Hp. unfold unterminated_tail at 1. rewrite (lines_of_save p fs Ha Hp).
  rewrite last_app_default. reflexivity.
Qed.

Lemma unterminated_tail_terminated (fs : file_system) :
  file_text fs = [] \/ (exists pre, file_text fs = pre ++ [newline]) ->
  unterminated_tail fs = [].
Proof.
  unfold unterminated_tail. intros [-> | [pre ->]]; [reflexivity |].
  change [newline] with (newline :: []).
  rewrite lines_of_app_newline, last_app_default. reflexivity.
Qed.

Lemma load_after_save (p : cstring) (fs : file_system) :
  append_opens fs = true -> ~ In newline p -> p <> [] ->
  load_last_prime (save_new_prime p fs) = Some (unterminated_tail fs ++ p).
Proof.
  intros Ha Hp Hne. rewrite load_last_prime_spec. f_equal.
  unfold nonempty_lines. rewrite (lines_of_save p fs Ha Hp).
  rewrite filter_app. cbn [filter is_empty negb].
  assert (Hn : negb (is_empty (unterminated_tail fs ++ p)) = true).
  { destruct (unterminated_tail fs); destruct p; try reflexivity. congruence. }
  rewrite Hn, last_app_default. reflexivity.
Qed.

(** X10. [load_last_prime] returns the last non-empty line of the file,
    the lines being the pieces between newlines.  What it returns holds no
    newline, and it is the empty string exactly when the file is missing
    or holds nothing but newlines. *)
Theorem load_last_prime_last_line (fs : file_system) :
  exists r,
    load_last_prime fs = Some r /\
    r = last (nonempty_lines (file_text fs)) [] /\
    ~ In newline r /\
    (r <> [] -> In r (lines_of (file_text fs))) /\
    (r = [] <-> forall c, In c (file_text fs) -> c = newline).
Proof.
  exists (last (nonempty_lines (file_text fs)) []).
  split; [apply load_last_prime_spec |]. split; [reflexivity |].
  set (u := file_text fs).
  assert (Hmem : forall line, In line (nonempty_lines u) ->
                              In line (lines_of u) /\ line <> []).
  { intros line Hin. unfold nonempty_lines in Hin. apply filter_In in Hin.
    destruct Hin as [Hin Hne]. split; [exact Hin |]. intros ->. discriminate. }
  destruct (last_in_or_default (nonempty_lines u) []) as [[Hnil Hlast] | Hin].
  - rewrite Hlast. split; [intros [] |]. split; [congruence |].
    split; [intros _; apply nonempty_lines_nil; exact Hnil | reflexivity].
  - destruct (Hmem _ Hin) as [Hl Hne].
    split; [apply (lines_of_newline_free u); exact Hl |].
    split; [intros _; exact Hl |].
    split; [congruence |].
    intros Hall. apply nonempty_lines_nil in Hall. rewrite Hall in Hin. destruct Hin.
Qed.

(** X11. Saving, then loading.  When the file opens for appending, what
    [load_last_prime] returns after [save_new_prime] of a non-empty string
    without a newline is that string glued to whatever followed the last
    newline of the file: the string itself when the file was missing,
    empty or ended in a newline.  After the call the file ends in a
    newline. *)
Theorem save_then_load (p : cstring) (fs : file_system) :
  append_opens fs = true -> ~ In newline p -> p <> [] ->
  load_last_prime (save_new_prime p fs) = Some (unterminated_tail fs ++ p) /\
  (file_text fs = [] \/ (exists pre, file_text fs = pre ++ [newline]) ->
   load_last_prime (save_new_prime p fs) = Some p) /\
  unterminated_tail (save_new_prime p fs) = [].
Proof.
  intros Ha Hp Hne.
  split; [apply load_after_save; assumption |].
  split; [| apply unterminated_tail_save; assumption].
  intros Hterm. rewrite (load_after_save p fs Ha Hp Hne).
  rewrite (unterminated_tail_terminated fs Hterm). reflexivity.
Qed.

Lemma save_then_load_witness :
  let fs := {| sequence_file := Some (lit "9999999967" ++ [newline] ++ lit "12");
               append_opens := true |} in
  load_last_prime fs = Some (lit "12") /\
  load_last_prime (save_new_prime (lit "345") fs) = Some (lit "12345") /\
  load_last_prime (save_new_prime (lit "7") (save_new_prime (lit "345") fs))
  = Some (lit "7").
Proof.
  intros fs. split; [reflexivity |].
  assert (Hp : forall p, forallb (fun c => negb (Ascii.eqb c newline)) p = true ->
                         ~ In newline p).
  { intros p H Hin. rewrite forallb_forall in H. specialize (H _ Hin).
    rewrite Ascii.eqb_refl in H. discriminate. }
  assert (H345 : ~ In newline (lit "345")) by (apply Hp; reflexivity).
  assert (H7 : ~ In newline (lit "7")) by (apply Hp; reflexivity).
  split.
  - apply (save_then_load (lit "345") fs); [reflexivity | exact H345 | discriminate].
  - apply (save_then_load (lit "7") (save_new_prime (lit "345") fs));
      [reflexivity | exact H7 | discriminate |].
    right. exists (lit "9999999967" ++ [newline] ++ lit "12345"). reflexivity.
Defined.

(** * The menu *)

Lemma digit_set_is_digit (c : ascii) :
  existsb (Ascii.eqb c) (lit "0123456789") = is_digit c.
Proof. destruct c as [[] [] [] [] [] [] [] []]; vm_compute; reflexivity. Qed.

Lemma find_first_not_of_from_digits (s : cstring) :
  forall pos : Z,
    0 <= pos -> pos + Z.of_nat (length s) <= npos ->
    (find_first_not_of_from s (lit "0123456789") pos = npos <-> all_digits s).
Proof.
  induction s as [| c r IH]; intros pos H0 Hlen.
  - split; [constructor | reflexivity].
  - cbn [find_first_not_of_from]. rewrite digit_set_is_digit.
    cbn [length] in Hlen. rewrite Nat2Z.inj_succ in Hlen.
    destruct (is_digit c) eqn:Ec.
    + rewrite IH by lia. split; intros H.
      * constructor; assumption.
      * inversion H; assumption.
    + split; intros H; [lia |]. inversion H; congruence.
Qed.

Lemma valid_manual_entry_spec (s : cstring) :
  Z.of_nat (length s) <= npos ->
  (valid_manual_entry s = true <-> decimal_string s).
Proof.
  intros Hlen. unfold valid_manual_entry, find_first_not_of, decimal_string.
  rewrite andb_true_iff, Z.eqb_eq.
  rewrite (find_first_not_of_from_digits s 0 (Z.le_refl 0) Hlen).
  destruct s as [| c r]; cbn [is_empty negb]; split; intros [H1 H2];
    (split; [congruence || discriminate || reflexivity | exact H2]).
Qed.

(** X12. The test on a manual entry accepts exactly the non-empty strings
    of decimal digits: a sign, a blank, a decimal point or any other
    character makes it fail, and leading zeros pass.  (A [std::string] is
    shorter than [npos].) *)
Theorem valid_manual_entry_decimal (s : cstring) :
  Z.of_nat (length s) <= npos ->
  (valid_manual_entry s = true <-> decimal_string s).
Proof. exact (valid_manual_entry_spec s). Qed.

Lemma valid_manual_entry_decimal_witness :
  valid_manual_entry (lit "0042") = true /\
  decimal_string (lit "0042") /\
  valid_manual_entry (lit "-7") = false /\
  valid_manual_entry (lit "12 ") = false /\
  valid_manual_entry [] = false.
Proof.
  split; [reflexivity |].
  split; [apply (valid_manual_entry_decimal (lit "0042"));
          [vm_compute; discriminate | reflexivity] |].
  repeat split; reflexivity.
Defined.

Lemma is_list_choice_digits (choice : ascii) :
  is_list_choice choice = existsb (Ascii.eqb choice) (lit "1234").
Proof. destruct choice as [[] [] [] [] [] [] [] []]; vm_compute; reflexivity. Qed.

Lemma list_choice_checked (choice : ascii) :
  implb (is_list_choice choice)
        (index_in_range (list_index choice)
         && (list_index choice =? digit_of choice - 1)
         && match nth_error PRIME_LIST (Z.to_nat (list_index choice)) with
            | Some _ => true
            | None => false
            end) = true.
Proof. destruct choice as [[] [] [] [] [] [] [] []]; vm_compute; reflexivity. Qed.

Lemma list_choice_item (choice : ascii) :
  is_list_choice choice = true ->
  index_in_range (list_index choice) = true /\
  list_index choice = digit_of choice - 1 /\
  exists item, nth_error PRIME_LIST (Z.to_nat (list_index choice)) = Some item.
Proof.
  intros Hc. pose proof (list_choice_checked choice) as H. rewrite Hc in H.
  cbn [implb] in H. apply andb_true_iff in H. destruct H as [H Hnth].
  apply andb_true_iff in H. destruct H as [Hr Hi].
  split; [exact Hr |]. split; [apply Z.eqb_eq; exact Hi |].
  destruct (nth_error PRIME_LIST (Z.to_nat (list_index choice))) as [item |];
    [exists item; reflexivity | discriminate].
Qed.

(** X13. The numbered choices.  The branch is taken exactly for the
    characters 1 to 4; there the index is the digit minus one, the bounds
    test that follows always holds, so that its "Invalid selection" branch
    is never taken, and the index selects an entry of [PRIME_LIST]. *)
Theorem list_choice_in_range (choice : ascii) :
  (is_list_choice choice = true <-> In choice (lit "1234")) /\
  (is_list_choice choice = true ->
   index_in_range (list_index choice) = true /\
   list_index choice = digit_of choice - 1 /\
   exists item, nth_error PRIME_LIST (Z.to_nat (list_index choice)) = Some item).
Proof.
  split; [| apply list_choice_item].
  rewrite is_list_choice_digits, existsb_exists. split.
  - intros (x & Hin & Heq). apply Ascii.eqb_eq in Heq. subst x. exact Hin.
  - intros Hin. exists choice. split; [exact Hin | apply Ascii.eqb_refl].
Qed.

Lemma list_choice_in_range_witness :
  is_list_choice "3" = true /\
  index_in_range (list_index "3") = true /\
  list_index "3" = 2 /\
  exists item, nth_error PRIME_LIST (Z.to_nat (list_index "3")) = Some item.
Proof.
  split; [reflexivity |].
  destruct (list_choice_in_range "3") as [_ H].
  destruct (H eq_refl) as (Hr & Hi & Hitem).
  split; [exact Hr |]. split; [exact Hi | exact Hitem].
Defined.

Lemma PRIME_LIST_decimal (item : string * cstring) :
  In item PRIME_LIST -> decimal_string (snd item).
Proof.
  cbn [PRIME_LIST In].
  intros [<- | [<- | [<- | [<- | []]]]]; apply decimal_stringb_ok; reflexivity.
Qed.

Section ProgramFacts.

Context {L : Libm}.

Lemma menu_loop_returns (n : nat) :
  forall (cin : list cstring) (st : program_state),
    (length cin <= n)%nat ->
    Forall (fun line => Z.of_nat (length line) <= npos) cin ->
    (exists r, menu_loop cin st = Ok r) /\
    forall st' rest,
      menu_loop cin st = Ok (Returned st' rest) ->
      (length rest < length cin)%nat /\
      in_menu st' = false /\
      files st' = files st /\
      predictor_globals st' = predictor_globals st /\
      (is_running st' = false /\ predictions_made st' = predictions_made st \/
       is_running st' = is_running st /\ predictions_made st' = 0 /\
       user_prime_input st' <> [] /\
       (decimal_string (user_prime_input st') \/
        load_last_prime (files st) = Some (user_prime_input st'))).
Proof.
  induction n as [| n IH]; intros cin st Hn Hshort.
  { destruct cin; [| cbn in Hn; lia].
    split; [eexists; reflexivity | intros st' rest H; discriminate]. }
  destruct cin as [| input_line cin].
  { split; [eexists; reflexivity | intros st' rest H; discriminate]. }
  cbn [length] in Hn. inversion Hshort as [| x l Hline Hrest]; subst x l.
  assert (Hweak : forall st0,
             (exists r, menu_loop cin st0 = Ok r) /\
             forall st' rest,
               menu_loop cin st0 = Ok (Returned st' rest) ->
               (length rest < length (input_line :: cin))%nat /\
               in_menu st' = false /\
               files st' = files st0 /\
               predictor_globals st' = predictor_globals st0 /\
               (is_running st' = false /\ predictions_made st' = predictions_made st0 \/
                is_running st' = is_running st0 /\ predictions_made st' = 0 /\
                user_prime_input st' <> [] /\
                (decimal_string (user_prime_input st') \/
                 load_last_prime (files st0) = Some (user_prime_input st')))).
  { intros st0. destruct (IH cin st0 ltac:(lia) Hrest) as [Hex Hpost].
    split; [exact Hex |]. intros st' rest Hrun.
    destruct (Hpost st' rest Hrun) as (Hl & Hrem). split; [cbn [length]; lia | exact Hrem]. }
  cbn [menu_loop]. destruct input_line as [| c more]; [apply Hweak |].
  destruct (Ascii.eqb (toupper c) "Q").
  { split; [eexists; reflexivity |]. intros st' rest H. injection H as <- <-.
    split; [cbn [length]; lia |]. repeat split. left. split; reflexivity. }
  destruct (Ascii.eqb (toupper c) "L").
  { destruct (load_last_prime (files st)) as [loaded |] eqn:Hload;
      [| rewrite load_last_prime_spec in Hload; discriminate].
    destruct loaded as [| d line]; cbn [is_empty negb].
    - destruct (Hweak st) as [Hex Hpost]. rewrite Hload in Hpost.
      split; [exact Hex | exact Hpost].
    - split; [eexists; reflexivity |].
      intros st' rest H. injection H as <- <-.
      split; [cbn [length]; lia |]. repeat split. right.
      split; [reflexivity |]. split; [reflexivity |]. split; [discriminate |].
      right. reflexivity. }
  destruct (Ascii.eqb (toupper c) "M").
  { destruct cin as [| entry cin'].
    { split; [eexists; reflexivity | intros st' rest H; discriminate]. }
    inversion Hrest as [| x l Hentry Hrest']; subst x l.
    change (user_prime_input (set_user_prime_input entry st)) with entry.
    destruct (valid_manual_entry entry) eqn:Hvalid.
    - split; [eexists; reflexivity |].
      intros st' rest H. injection H as <- <-.
      split; [cbn [length]; lia |]. repeat split. right.
      apply (valid_manual_entry_spec entry Hentry) in Hvalid.
      split; [reflexivity |]. split; [reflexivity |].
      split; [exact (proj1 Hvalid) |]. left. exact Hvalid.
    - cbn [length] in Hn.
      destruct (IH cin' (set_user_prime_input entry st) ltac:(lia) Hrest') as [Hex Hpost].
      split; [exact Hex |]. intros st' rest Hrun.
      destruct (Hpost st' rest Hrun) as (Hl & Hrem).
      split; [cbn [length]; lia | exact Hrem]. }
  destruct (is_list_choice (toupper c)) eqn:Hchoice; [| apply Hweak].
  destruct (list_choice_item (toupper c) Hchoice) as (Hr & _ & item & Hitem).
  rewrite Hr, Hitem.
  split; [eexists; reflexivity |].
  intros st' rest H. injection H as <- <-.
  split; [cbn [length]; lia |]. repeat split. right.
  pose proof (PRIME_LIST_decimal item (nth_error_In _ _ Hitem)) as Hd.
  split; [reflexivity |]. split; [reflexivity |].
  split; [exact (proj1 Hd) |]. left. exact Hd.
Qed.

(** X14. [display_menu] never fails: the read of the file completes and
    [PRIME_LIST] is never indexed outside its bounds.  When
    it returns, [in_menu] is off and it has written neither the file nor
    the globals of the predictor.  Either the user quit ([is_running] is
    off and [predictions_made] is kept), or [predictions_made] is 0 and
    [user_prime_input] is non-empty: a non-empty string of decimal digits
    (a manual entry or an entry of [PRIME_LIST]), or the last non-empty
    line of the file, which is taken as it is. *)
Theorem display_menu_returns (cin : list cstring) (st : program_state) :
  Forall (fun line => Z.of_nat (length line) <= npos) cin ->
  (exists r, display_menu cin st = Ok r) /\
  forall st' rest,
    display_menu cin st = Ok (Returned st' rest) ->
    (length rest < length cin)%nat /\
    in_menu st' = false /\
    files st' = files st /\
    predictor_globals st' = predictor_globals st /\
    (is_running st' = false /\ predictions_made st' = predictions_made st \/
     is_running st' = is_running st /\ predictions_made st' = 0 /\
     user_prime_input st' <> [] /\
     (decimal_string (user_prime_input st') \/
      load_last_prime (files st) = Some (user_prime_input st'))).
Proof.
  intros Hshort. unfold display_menu.
  exact (menu_loop_returns (length cin) cin (set_in_menu true st) (Nat.le_refl _) Hshort).
Qed.

(** * The prediction loop *)

Lemma is_digit_not_newline (c : ascii) : is_digit c = true -> c <> newline.
Proof. intros H ->. discriminate H. Qed.

Lemma decimal_string_plain (s : cstring) : decimal_string s -> ~ In newline s.
Proof.
  intros [_ Hs] Hin. unfold all_digits in Hs. rewrite Forall_forall in Hs.
  exact (is_digit_not_newline _ (Hs _ Hin) eq_refl).
Qed.

Lemma prediction_loop_body_inv (st st1 : program_state) :
  prediction_loop_body st = Ok st1 ->
  (exists gap metrics,
      LGO_Predict_Deterministic (user_prime_input st) PredictionMetrics_init
                                (predictor_globals st)
      = Ok ((gap, user_prime_input st1), metrics, predictor_globals st1)) /\
  predictions_made st1 = add_ll (predictions_made st) 1 /\
  files st1 = save_new_prime (user_prime_input st1) (files st) /\
  is_running st1 = is_running st /\
  in_menu st1 = in_menu st.
Proof.
  unfold prediction_loop_body.
  destruct (LGO_Predict_Deterministic (user_prime_input st) PredictionMetrics_init
                                      (predictor_globals st))
    as [[[[gap next] metrics] g1] | e].
  - rewrite bind_Ok. intros H. injection H as <-.
    split; [exists gap, metrics; reflexivity |]. repeat split.
  - rewrite bind_Err. discriminate.
Qed.

Lemma save_new_prime_closed (p : cstring) (fs : file_system) :
  append_opens fs = false -> save_new_prime p fs = fs.
Proof. intros Ha. unfold save_new_prime. rewrite Ha. reflexivity. Qed.

Lemma save_new_prime_append_opens (p : cstring) (fs : file_system) :
  append_opens (save_new_prime p fs) = append_opens fs.
Proof. unfold save_new_prime. destruct (append_opens fs) eqn:Ha; [reflexivity | exact Ha]. Qed.

Lemma save_new_prime_extends (p : cstring) (fs : file_system) :
  exists added, file_text (save_new_prime p fs) = file_text fs ++ added.
Proof.
  destruct (append_opens fs) eqn:Ha.
  - destruct (file_text_save p fs Ha) as [-> _]. eexists. reflexivity.
  - rewrite (save_new_prime_closed p fs Ha). exists []. rewrite app_nil_r. reflexivity.
Qed.

(** What the loop leaves after it found the S key up [n] times. *)
Lemma prediction_loop_from_inv (key_S : list bool) :
  forall st st' : program_state,
    is_running st = true ->
    decimal_string (user_prime_input st) ->
    Z.max (Z.of_nat (length (user_prime_input st))) 20
    + Z.of_nat (polls_before_stop key_S) <= INT_MAX + 1 ->
    in_ll (predictions_made st) ->
    predictions_made st + Z.of_nat (polls_before_stop key_S) <= LLONG_MAX ->
    prediction_loop_from key_S st = Ok st' ->
    prediction_chain (polls_before_stop key_S)
                     (user_prime_input st, predictor_globals st)
    = Ok (user_prime_input st', predictor_globals st') /\
    predictions_made st' = predictions_made st + Z.of_nat (polls_before_stop key_S) /\
    is_running st' = true /\
    in_menu st' = in_menu st /\
    (exists added, file_text (files st') = file_text (files st) ++ added) /\
    append_opens (files st') = append_opens (files st) /\
    (append_opens (files st) = false -> files st' = files st) /\
    (append_opens (files st) = true -> (0 < polls_before_stop key_S)%nat ->
     unterminated_tail (files st') = [] /\
     (unterminated_tail (files st) = [] \/ (2 <= polls_before_stop key_S)%nat ->
      load_last_prime (files st') = Some (user_prime_input st'))).
Proof.
  assert (Hstop : forall st st' : program_state,
             prediction_loop_from [] st = Ok st' -> st' = st)
    by (intros st st' H; injection H as <-; reflexivity).
  induction key_S as [| down later IH]; intros st st' Hrun Hs Hlen Hpm Hpm' Hloop.
  { apply Hstop in Hloop. subst st'. cbn [polls_before_stop prediction_chain].
    split; [reflexivity |]. split; [lia |]. split; [exact Hrun |].
    split; [reflexivity |]. split; [exists []; rewrite app_nil_r; reflexivity |].
    split; [reflexivity |]. split; [reflexivity |]. intros _ H. lia. }
  cbn [prediction_loop_from] in Hloop. rewrite Hrun in Hloop.
  destruct down.
  { injection Hloop as <-. cbn [polls_before_stop prediction_chain].
    split; [reflexivity |]. split; [lia |]. split; [exact Hrun |].
    split; [reflexivity |]. split; [exists []; rewrite app_nil_r; reflexivity |].
    split; [reflexivity |]. split; [reflexivity |]. intros _ H. lia. }
  cbn [polls_before_stop] in *. rewrite Nat2Z.inj_succ in Hlen, Hpm'.
  destruct (prediction_loop_body st) as [st1 | e] eqn:Hbody;
    [rewrite bind_Ok in Hloop | rewrite bind_Err in Hloop; discriminate].
  destruct (prediction_loop_body_inv st st1 Hbody)
    as ((gap & metrics & Hcall) & Hpm1 & Hfs1 & Hrun1 & Hmenu1).
  destruct (predict_returns_sum _ _ _ gap _ metrics _ Hs ltac:(lia) Hcall)
    as (Hs1 & _ & _ & _ & Hl1).
  assert (Hpm1' : predictions_made st1 = predictions_made st + 1).
  { rewrite Hpm1. unfold add_ll. apply to_ll_id. unfold in_ll in *. lia. }
  destruct (IH st1 st' ltac:(congruence) Hs1 ltac:(lia)
               ltac:(unfold in_ll in *; lia) ltac:(lia) Hloop)
    as (Hchain & Hcount & Hrun' & Hmenu' & (added' & Hadded') & Hopens' & Hclosed' & Hopen').
  split.
  { cbn [prediction_chain]. unfold prediction_step. rewrite Hcall.
    rewrite !bind_Ok. exact Hchain. }
  split; [lia |]. split; [exact Hrun' |]. split; [congruence |].
  split.
  { destruct (save_new_prime_extends (user_prime_input st1) (files st)) as (added & Hadded).
    exists (added ++ added'). rewrite Hadded', Hfs1, Hadded, app_assoc. reflexivity. }
  split; [rewrite Hopens', Hfs1; apply save_new_prime_append_opens |].
  split.
  { intros Ha. rewrite Hclosed'; rewrite Hfs1.
    - apply save_new_prime_closed; exact Ha.
    - rewrite save_new_prime_append_opens. exact Ha. }
  intros Ha _.
  pose proof (decimal_string_plain _ Hs1) as Hplain.
  assert (Htail1 : unterminated_tail (files st1) = [])
    by (rewrite Hfs1; apply unterminated_tail_save; assumption).
  assert (Ha1 : append_opens (files st1) = true)
    by (rewrite Hfs1, save_new_prime_append_opens; exact Ha).
  destruct later as [| down' later'].
  { apply Hstop in Hloop. subst st'. split; [exact Htail1 |].
    cbn [polls_before_stop]. intros [Htail | Hn]; [| lia].
    rewrite Hfs1 at 1.
    rewrite (load_after_save _ _ Ha Hplain (proj1 Hs1)), Htail. reflexivity. }
  destruct down'.
  { cbn [prediction_loop_from] in Hloop. rewrite Hrun1, Hrun in Hloop.
    injection Hloop as <-. split; [exact Htail1 |].
    cbn [polls_before_stop]. intros [Htail | Hn]; [| lia].
    rewrite Hfs1 at 1.
    rewrite (load_after_save _ _ Ha Hplain (proj1 Hs1)), Htail. reflexivity. }
  cbn [polls_before_stop] in Hopen'.
  destruct (Hopen' Ha1 ltac:(lia)) as [Htail' Hload'].
  split; [exact Htail' |]. intros _. apply Hload'. left. exact Htail1.
Qed.

(** From a candidate below [10 ^ 20 + k * 2 ^ 63] the loop goes on for as
    long as [k] plus the number of its iterations stays below [2 ^ 30]. *)
Lemma prediction_loop_from_total (key_S : list bool) :
  forall (k : Z) (st : program_state),
    0 <= k -> k + Z.of_nat (polls_before_stop key_S) <= 2 ^ 30 ->
    chain_invariant k (user_prime_input st) ->
    exists st', prediction_loop_from key_S st = Ok st'.
Proof.
  induction key_S as [| down later IH]; intros k st Hk Hn Hinv.
  { eexists. reflexivity. }
  cbn [prediction_loop_from]. destruct (is_running st); [| eexists; reflexivity].
  destruct down; [eexists; reflexivity |].
  cbn [polls_before_stop] in Hn. rewrite Nat2Z.inj_succ in Hn.
  destruct (prediction_step_invariant k (user_prime_input st) (predictor_globals st)
                                      ltac:(lia) Hinv)
    as (s' & g' & Hstep & Hinv').
  destruct (prediction_step_inv _ _ _ _ Hstep) as (gap & metrics & Hcall).
  unfold prediction_loop_body. rewrite Hcall, !bind_Ok.
  apply (IH (k + 1)); [lia | lia | exact Hinv'].
Qed.

(** X15. The prediction loop and the file, for a loop entered with
    [is_running] on and a non-empty digit string in [user_prime_input],
    within these bounds: [max(length of that string, 20) + n <= 2^31],
    and [predictions_made], a [long long], stays one when [n] is added.
    When the loop ends without an exception after it found the S key up
    [n] times, [predictions_made] has grown by [n], [user_prime_input] is
    the [n]-th candidate of the chain, and the text of the file is the
    text it had with something appended: nothing that was in the file is
    changed.  If the file does not open for appending, it is left as it
    was and the candidates are lost without any notice.  If it opens and
    [n] is at least 1, the file ends in a newline and, provided it ended
    so before or [n] is at least 2, its last non-empty line is
    [user_prime_input]: choosing L in the menu resumes from where the loop
    stopped. *)
Theorem prediction_loop_file (key_S : list bool) (st st' : program_state) :
  is_running st = true ->
  decimal_string (user_prime_input st) ->
  Z.max (Z.of_nat (length (user_prime_input st))) 20
  + Z.of_nat (polls_before_stop key_S) <= INT_MAX + 1 ->
  in_ll (predictions_made st) ->
  predictions_made st + Z.of_nat (polls_before_stop key_S) <= LLONG_MAX ->
  prediction_loop key_S st = Ok st' ->
  prediction_chain (polls_before_stop key_S)
                   (user_prime_input st, predictor_globals st)
  = Ok (user_prime_input st', predictor_globals st') /\
  predictions_made st' = predictions_made st + Z.of_nat (polls_before_stop key_S) /\
  is_running st' = true /\
  in_menu st' = in_menu st /\
  (exists added, file_text (files st') = file_text (files st) ++ added) /\
  append_opens (files st') = append_opens (files st) /\
  (append_opens (files st) = false -> files st' = files st) /\
  (append_opens (files st) = true -> (0 < polls_before_stop key_S)%nat ->
   unterminated_tail (files st') = [] /\
   (unterminated_tail (files st) = [] \/ (2 <= polls_before_stop key_S)%nat ->
    load_last_prime (files st') = Some (user_prime_input st'))).
Proof.
  intros Hrun Hs Hlen Hpm Hpm' Hloop.
  unfold prediction_loop in Hloop. rewrite Hrun in Hloop.
  destruct (user_prime_input st) as [| c r] eqn:Hinput; [destruct Hs; congruence |].
  cbn [negb orb is_empty] in Hloop. rewrite <- Hinput in *.
  exact (prediction_loop_from_inv key_S st st' Hrun Hs Hlen Hpm Hpm' Hloop).
Qed.

End ProgramFacts.

Lemma display_menu_returns_witness :
  let st := program_start (L := CoarseLibm)
                          {| sequence_file := None; append_opens := true |} in
  let cin := [lit "x"; lit "m"; lit "12a"; lit "M"; lit "0042"; lit "Q"] in
  exists st',
    display_menu cin st = Ok (Returned st' [lit "Q"]) /\
    user_prime_input st' = lit "0042" /\
    in_menu st' = false /\
    files st' = files st.
Proof.
  intros st cin.
  assert (Hshort : Forall (fun line => Z.of_nat (length line) <= npos) cin)
    by (repeat constructor; vm_compute; discriminate).
  destruct (display_menu_returns cin st Hshort) as [_ Hpost].
  eexists. split; [reflexivity |]. split; [reflexivity |].
  destruct (Hpost _ _ eq_refl) as (_ & Hmenu & Hfiles & _).
  split; [exact Hmenu | exact Hfiles].
Defined.

Lemma prediction_loop_file_witness :
  let st := set_user_prime_input (lit "9999999967")
              (program_start (L := CoarseLibm)
                             {| sequence_file := None; append_opens := true |}) in
  exists st',
    prediction_loop [false; false; true] st = Ok st' /\
    predictions_made st' = 2 /\
    load_last_prime (files st') = Some (user_prime_input st').
Proof.
  intros st.
  assert (Hs : decimal_string (user_prime_input st))
    by (apply decimal_stringb_ok; reflexivity).
  assert (Hinv : chain_invariant 0 (user_prime_input st)).
  { split; [exact Hs |]. split; vm_compute; [reflexivity | discriminate]. }
  destruct (prediction_loop_from_total (L := CoarseLibm) [false; false; true] 0 st
              ltac:(lia) ltac:(vm_compute; discriminate) Hinv)
    as (st' & Hloop).
  exists st'. split; [exact Hloop |].
  destruct (prediction_loop_file (L := CoarseLibm) [false; false; true] st st'
              eq_refl Hs ltac:(vm_compute; discriminate)
              ltac:(vm_compute; split; discriminate)
              ltac:(vm_compute; discriminate) Hloop)
    as (_ & Hcount & _ & _ & _ & _ & _ & Hfile).
  split; [exact Hcount |].
  destruct (Hfile eq_refl ltac:(cbn; lia)) as (_ & Hload).
  apply Hload. left. reflexivity.
Defined.

(** * One round of the program: the menu, then the loop *)

Lemma nonempty_lines_save (p : cstring) (fs : file_system) :
  append_opens fs = true -> decimal_string p -> unterminated_tail fs = [] ->
  nonempty_lines (file_text (save_new_prime p fs))
  = nonempty_lines (file_text fs) ++ [p].
Proof.
  intros Ha Hp Htail. pose proof (decimal_string_plain p Hp) as Hplain.
  unfold nonempty_lines. rewrite (lines_of_save p fs Ha Hplain), Htail.
  rewrite filter_app, (filter_removelast_last _ Htail).
  destruct p as [| c r]; [destruct Hp; congruence | reflexivity].
Qed.

Lemma save_well_formed (p : cstring) (fs : file_system) :
  decimal_string p -> file_well_formed fs -> file_well_formed (save_new_prime p fs).
Proof.
  intros Hp [Htail Hlines].
  destruct (append_opens fs) eqn:Ha.
  - split; [apply unterminated_tail_save; [exact Ha | apply decimal_string_plain; exact Hp] |].
    rewrite (nonempty_lines_save p fs Ha Hp Htail).
    apply Forall_app. split; [exact Hlines | constructor; [exact Hp | constructor]].
  - rewrite (save_new_prime_closed p fs Ha). split; assumption.
Qed.

Lemma load_well_formed (fs : file_system) (r : cstring) :
  file_well_formed fs -> load_last_prime fs = Some r -> r <> [] -> decimal_string r.
Proof.
  intros [_ Hlines] Hload Hne. rewrite load_last_prime_spec in Hload.
  injection Hload as <-.
  destruct (last_in_or_default (nonempty_lines (file_text fs)) []) as [[_ Hnil] | Hin];
    [congruence |].
  rewrite Forall_forall in Hlines. apply Hlines. exact Hin.
Qed.

Section ProgramRound.

Context {L : Libm}.

Lemma prediction_loop_from_well_formed (key_S : list bool) :
  forall st st' : program_state,
    decimal_string (user_prime_input st) ->
    Z.max (Z.of_nat (length (user_prime_input st))) 20
    + Z.of_nat (polls_before_stop key_S) <= INT_MAX + 1 ->
    file_well_formed (files st) ->
    prediction_loop_from key_S st = Ok st' ->
    decimal_string (user_prime_input st') /\ file_well_formed (files st').
Proof.
  induction key_S as [| down later IH]; intros st st' Hs Hlen Hwf Hloop.
  { injection Hloop as <-. split; assumption. }
  cbn [prediction_loop_from] in Hloop.
  destruct (is_running st); [| injection Hloop as <-; split; assumption].
  destruct down; [injection Hloop as <-; split; assumption |].
  cbn [polls_before_stop] in Hlen. rewrite Nat2Z.inj_succ in Hlen.
  destruct (prediction_loop_body st) as [st1 | e] eqn:Hbody;
    [rewrite bind_Ok in Hloop | rewrite bind_Err in Hloop; discriminate].
  destruct (prediction_loop_body_inv st st1 Hbody)
    as ((gap & metrics & Hcall) & _ & Hfs1 & _ & _).
  destruct (predict_returns_sum _ _ _ gap _ metrics _ Hs ltac:(lia) Hcall)
    as (Hs1 & _ & _ & _ & Hl1).
  apply (IH st1 st' Hs1); [lia | | exact Hloop].
  rewrite Hfs1. apply save_well_formed; assumption.
Qed.

(** X16. One round of the program on a well-formed file, one that holds
    digit strings only, each on a line of its own (in particular a missing
    or an empty file).  A string that [display_menu] hands over with
    [is_running] on is a non-empty digit string, also when it was loaded
    from the file.  If the prediction loop that follows ends without an
    exception after [n] iterations, where
    [max(length of the string handed over, 20) + n <= 2^31], then
    [predictions_made] is [n], whatever it was before the menu;
    [user_prime_input] is again a digit string and the file is again well
    formed. *)
Theorem menu_then_loop (cin : list cstring) (key_S : list bool)
        (st st1 st2 : program_state) (rest : list cstring) :
  file_well_formed (files st) ->
  Forall (fun line => Z.of_nat (length line) <= npos) cin ->
  display_menu cin st = Ok (Returned st1 rest) ->
  is_running st1 = true ->
  Z.max (Z.of_nat (length (user_prime_input st1))) 20
  + Z.of_nat (polls_before_stop key_S) <= INT_MAX + 1 ->
  prediction_loop key_S st1 = Ok st2 ->
  decimal_string (user_prime_input st1) /\
  files st1 = files st /\
  predictions_made st2 = Z.of_nat (polls_before_stop key_S) /\
  decimal_string (user_prime_input st2) /\
  file_well_formed (files st2).
Proof.
  intros Hwf Hshort Hmenu Hrun Hlen Hloop.
  destruct (menu_loop_returns (length cin) cin (set_in_menu true st) (Nat.le_refl _) Hshort)
    as [_ Hpost].
  destruct (Hpost st1 rest Hmenu) as (_ & _ & Hfiles & _ & Hcase).
  change (files (set_in_menu true st)) with (files st) in *.
  destruct Hcase as [[Hquit _] | (_ & Hzero & Hne & Hinput)]; [congruence |].
  assert (Hs1 : decimal_string (user_prime_input st1)).
  { destruct Hinput as [Hd | Hload]; [exact Hd |].
    exact (load_well_formed (files st) _ Hwf Hload Hne). }
  split; [exact Hs1 |]. split; [exact Hfiles |].
  unfold prediction_loop in Hloop. rewrite Hrun in Hloop.
  destruct (user_prime_input st1) as [| c r] eqn:Hin; [congruence |].
  cbn [negb orb is_empty] in Hloop. rewrite <- Hin in *.
  assert (Hpm : in_ll (predictions_made st1))
    by (rewrite Hzero; unfold in_ll, LLONG_MIN, LLONG_MAX; lia).
  assert (Hpm' : predictions_made st1 + Z.of_nat (polls_before_stop key_S) <= LLONG_MAX)
    by (rewrite Hzero; unfold LLONG_MAX, INT_MAX in *; lia).
  destruct (prediction_loop_from_inv key_S st1 st2 Hrun Hs1 Hlen Hpm Hpm' Hloop)
    as (_ & Hcount & _).
  split; [rewrite Hcount, Hzero; reflexivity |].
  apply (prediction_loop_from_well_formed key_S st1 st2 Hs1 Hlen);
    [rewrite Hfiles; exact Hwf | exact Hloop].
Qed.

End ProgramRound.

Lemma menu_then_loop_witness :
  let fs := {| sequence_file := Some (lit "9999999967" ++ [newline]);
               append_opens := true |} in
  let st := set_predictions_made 5 (program_start (L := CoarseLibm) fs) in
  exists st1 st2,
    display_menu [lit "l"] st = Ok (Returned st1 []) /\
    prediction_loop [false; false; true] st1 = Ok st2 /\
    user_prime_input st1 = lit "9999999967" /\
    predictions_made st2 = 2 /\
    decimal_string (user_prime_input st2) /\
    file_well_formed (files st2).
Proof.
  intros fs st.
  assert (Hwf : file_well_formed (files st)).
  { split; [reflexivity |].
    constructor; [apply decimal_stringb_ok; reflexivity | constructor]. }
  assert (Hshort : Forall (fun line => Z.of_nat (length line) <= npos) [lit "l"])
    by (repeat constructor; vm_compute; discriminate).
  eexists. 
  assert (Hinv : chain_invariant 0 (lit "9999999967")).
  { split; [apply decimal_stringb_ok; reflexivity |].
    split; vm_compute; [reflexivity | discriminate]. }
  destruct (prediction_loop_from_total (L := CoarseLibm) [false; false; true] 0
              (accept (set_user_prime_input (lit "9999999967") (set_in_menu true st)))
              ltac:(lia) ltac:(vm_compute; discriminate) Hinv)
    as (st2 & Hloop).
  exists st2.
  split; [reflexivity |].
  split; [exact Hloop |].
  split; [reflexivity |].
  destruct (menu_then_loop (L := CoarseLibm) [lit "l"] [false; false; true] st _ st2 []
              Hwf Hshort eq_refl eq_refl ltac:(vm_compute; discriminate) Hloop)
    as (_ & _ & Hcount & Hs2 & Hwf2).
  split; [exact Hcount |]. split; [exact Hs2 | exact Hwf2].
Defined.

(** * Further properties of the classification and of the base gap *)

Lemma value_leading_zeros (n : nat) (s : cstring) :
  value (repeat "0"%char n ++ s) = value s.
Proof. rewrite value_app, value_repeat_zero. lia. Qed.

Lemma determine_prime_set_padded (n : nat) (s : cstring) :
  decimal_string s -> (0 < n)%nat ->
  determine_prime_set (repeat "0"%char n ++ s) = class_of_residue (value s mod 12).
Proof.
  intros Hs Hn.
  assert (Hd : decimal_string (repeat "0"%char n ++ s)).
  { split; [destruct n; [lia | discriminate] |].
    apply all_digits_app. split; [apply all_digits_repeat_zero | exact (proj2 Hs)]. }
  rewrite (determine_prime_set_spec _ Hd). unfold spec_prime_set.
  rewrite !cstring_eqb_neq by (destruct n; [lia | discriminate]).
  rewrite value_leading_zeros. reflexivity.
Qed.

(** X17. Leading zeros, which the menu lets through.  The two remainders
    of a digit string do not change when zeros are put in front of it,
    and neither does its prime set, with two exceptions: the strings "2"
    and "3" are SET_A and SET_B, and with a zero in front they are
    SET_NONE. *)
Theorem leading_zeros_classified (n : nat) (s : cstring) :
  decimal_string s ->
  calculate_mod_12 (repeat "0"%char n ++ s) = calculate_mod_12 s /\
  calculate_mod_7 (repeat "0"%char n ++ s) = calculate_mod_7 s /\
  (s <> lit "2" -> s <> lit "3" ->
   determine_prime_set (repeat "0"%char n ++ s) = determine_prime_set s) /\
  ((0 < n)%nat ->
   determine_prime_set (repeat "0"%char n ++ lit "2") = SET_NONE /\
   determine_prime_set (repeat "0"%char n ++ lit "3") = SET_NONE).
Proof.
  intros Hs.
  assert (Hd : all_digits (repeat "0"%char n ++ s)).
  { apply all_digits_app. split; [apply all_digits_repeat_zero | exact (proj2 Hs)]. }
  unfold calculate_mod_12, calculate_mod_7.
  rewrite !mod_loop_value by (try lia; try exact Hd; exact (proj2 Hs)).
  rewrite value_leading_zeros.
  split; [reflexivity |]. split; [reflexivity |]. split.
  - intros H2 H3. destruct n as [| n]; [reflexivity |].
    rewrite (determine_prime_set_padded (S n) s Hs) by lia.
    rewrite (determine_prime_set_spec s Hs). unfold spec_prime_set.
    rewrite (cstring_eqb_neq _ _ H2), (cstring_eqb_neq _ _ H3). reflexivity.
  - intros Hn.
    rewrite !determine_prime_set_padded
      by (try exact Hn; apply decimal_stringb_ok; reflexivity).
    split; reflexivity.
Qed.

Lemma leading_zeros_classified_witness :
  determine_prime_set (lit "0009999999967") = determine_prime_set (lit "9999999967") /\
  determine_prime_set (lit "2") = SET_A /\
  determine_prime_set (lit "02") = SET_NONE.
Proof.
  assert (Hs : decimal_string (lit "9999999967")) by (apply decimal_stringb_ok; reflexivity).
  destruct (leading_zeros_classified 3 (lit "9999999967") Hs) as (_ & _ & Hsame & _).
  split; [apply Hsame; discriminate |].
  split; [reflexivity |].
  assert (H2 : decimal_string (lit "2")) by (apply decimal_stringb_ok; reflexivity).
  destruct (leading_zeros_classified 1 (lit "2") H2) as (_ & _ & _ & Hz).
  exact (proj1 (Hz ltac:(lia))).
Defined.

Lemma spec_base_monotone (d e : Z) : 0 <= d <= e -> spec_base d <= spec_base e.
Proof.
  intros Hde. unfold spec_base.
  assert (H : (d * d + 25) / 50 <= (e * e + 25) / 50) by (apply Z.div_le_mono; nia).
  lia.
Qed.

Lemma spec_gap_monotone (x y : Z) : x <= y -> spec_gap x <= spec_gap y.
Proof.
  intros Hxy. unfold spec_gap, even_up.
  destruct (Z.odd x) eqn:Hx; destruct (Z.odd y) eqn:Hy; try lia.
  destruct (Z.eq_dec x y) as [-> | Hne]; [congruence | lia].
Qed.

(** X18. The base gap heuristic never shrinks when the input gets longer:
    of two strings the one with more characters gets a base gap at least
    as large, as long as the square of the larger length is below
    [2 ^ 53] where [long double] has 53 bits of precision (94906265
    characters) and below [2 ^ 64] where it has 64 (4294967295
    characters). *)
Theorem base_gap_monotone (f : long_double_format) (s t : cstring) :
  (length s <= length t)%nat ->
  Z.of_nat (length t) * Z.of_nat (length t) < 2 ^ ld_precision f ->
  fst (fst (fst (LGO_CalculateNextPrime_BaseGap_Detailed f s false)))
  <= fst (fst (fst (LGO_CalculateNextPrime_BaseGap_Detailed f t false))).
Proof.
  intros Hlen Hsq.
  pose proof (spec_base_monotone (Z.of_nat (length s)) (Z.of_nat (length t))
                                 ltac:(lia)) as Hmono.
  rewrite (base_gap_heuristic_closed f t false Hsq).
  rewrite (base_gap_heuristic_closed f s false) by nia.
  cbn [fst]. unfold spec_predicted. apply spec_gap_monotone. lia.
Qed.

Lemma base_gap_monotone_witness :
  fst (fst (fst (LGO_CalculateNextPrime_BaseGap_Detailed LD_binary64
                   (lit "9999999967") false)))
  <= fst (fst (fst (LGO_CalculateNextPrime_BaseGap_Detailed LD_binary64
                      (lit "9999999999999999997") false))).
Proof.
  apply base_gap_monotone; [vm_compute; lia | vm_compute; reflexivity].
Defined.

(** * When the predictor throws *)

Lemma ld_overflow_threshold_decades (f : long_double_format) :
  let digits := match f with LD_binary64 => 308 | LD_x87 => 4932 end in
  10 ^ digits < ld_overflow_threshold f <= 10 ^ (digits + 1).
Proof.
  destruct f; cbv zeta; split;
    (apply Z.ltb_lt || apply Z.leb_le); vm_compute; reflexivity.
Qed.

Section PredictorExceptions.

Context {L : Libm}.

(** X19. The one exception of [LGO_Predict_Deterministic] on a non-empty
    digit string is [std::out_of_range], and it is thrown exactly when the
    number reaches the overflow threshold of [long double].  So a call
    returns on every number below [10 ^ 308] where [long double] is the
    64-bit format and below [10 ^ 4932] where it is the x87 format, and it
    throws on every number from [10 ^ 309], or [10 ^ 4933], on. *)
Theorem predict_throws_iff (s : cstring) (m : PredictionMetrics) (g : globals) :
  decimal_string s ->
  let digits := match ld_format with LD_binary64 => 308 | LD_x87 => 4932 end in
  (LGO_Predict_Deterministic s m g = Err std_out_of_range
   <-> ld_overflow_threshold ld_format <= value s) /\
  (forall e, LGO_Predict_Deterministic s m g = Err e -> e = std_out_of_range) /\
  (value s < 10 ^ digits -> exists r, LGO_Predict_Deterministic s m g = Ok r) /\
  (10 ^ (digits + 1) <= value s ->
   LGO_Predict_Deterministic s m g = Err std_out_of_range).
Proof.
  intros Hs digits.
  pose proof (ld_overflow_threshold_decades ld_format) as Hdec. cbv zeta in Hdec.
  fold digits in Hdec.
  destruct (predict_run s m g Hs) as (next & _ & Hrun). rewrite Hrun.
  destruct (Z.leb_spec (ld_overflow_threshold ld_format) (value s)) as [Hge | Hlt].
  - split; [split; [intros _; exact Hge | reflexivity] |].
    split; [intros e He; injection He as <-; reflexivity |].
    split; [intros Hsmall; lia | reflexivity].
  - split; [split; [discriminate | lia] |].
    split; [intros e He; discriminate |].
    split; [intros _; eexists; reflexivity | intros Hbig; lia].
Qed.

(** X20. The prediction loop entered on a digit string of at most 20
    characters (every entry of [PRIME_LIST], every 64-bit number) throws
    nothing during its first [2 ^ 30] iterations. *)
Theorem prediction_loop_survives (key_S : list bool) (st : program_state) :
  decimal_string (user_prime_input st) ->
  Z.of_nat (length (user_prime_input st)) <= 20 ->
  Z.of_nat (polls_before_stop key_S) <= 2 ^ 30 ->
  exists st', prediction_loop key_S st = Ok st'.
Proof.
  intros Hs Hlen Hn. unfold prediction_loop.
  destruct (negb (is_running st) || is_empty (user_prime_input st));
    [eexists; reflexivity |].
  apply (prediction_loop_from_total key_S 0 st); [lia | lia |].
  split; [exact Hs |]. split; [| lia].
  pose proof (value_bounds _ (proj2 Hs)) as [_ Hv].
  assert (Hpow : 10 ^ Z.of_nat (length (user_prime_input st)) <= 10 ^ 20)
    by (apply Z.pow_le_mono_r; lia).
  lia.
Qed.

End PredictorExceptions.

Lemma predict_throws_iff_witness :
  let s := lit "9999999967" in
  exists r,
    LGO_Predict_Deterministic (L := CoarseLibm) s PredictionMetrics_init globals_init
    = Ok r.
Proof.
  intros s.
  assert (Hs : decimal_string s) by (apply decimal_stringb_ok; reflexivity).
  destruct (predict_throws_iff (L := CoarseLibm) s PredictionMetrics_init globals_init Hs)
    as (_ & _ & Hreturns & _).
  apply Hreturns. vm_compute. reflexivity.
Defined.

Lemma prediction_loop_survives_witness :
  let st := set_user_prime_input (lit "9999999999999999997")
              (program_start (L := CoarseLibm)
                             {| sequence_file := None; append_opens := false |}) in
  exists st', prediction_loop [false; false; false; true] st = Ok st'.
Proof.
  intros st.
  apply (prediction_loop_survives (L := CoarseLibm));
    [apply decimal_stringb_ok; reflexivity
    | vm_compute; discriminate
    | vm_compute; discriminate].
Defined.
